(** * lolcatpfp: the animation core and picture composer of ParticleEffect.js

    A shallow embedding of the React components of the application:

    - [FloatingParticles]: the ambient swarm with its forcefield respawn
      displacement and the transaction burst controller;
    - [ParticleFrame]: the frame-shaped swarm around the card;
    - [PFPCard]: the card's spin state machine and texture crossfade;
    - [App]: the composition of the picture from random layers and the
      discovery of the layer files.

    JavaScript numbers are modelled as real numbers: every arithmetic
    operation is the exact one, so rounding, NaN and infinities are outside
    the model.  [Math.random()] is an explicit stream of reals, [Date.now()]
    and the render clock are explicit inputs.  React state ([useState]) is
    read from the state of the last render and written into the state the
    next render sees; refs ([useRef]) are read and written in place.  A
    callback that can throw ends in a completion: it returns or throws,
    with the refs as they were at that point. *)

From Stdlib Require Import Reals Lra Lia ZArith String.
From stdpp Require Import base list.

Open Scope R_scope.

#[global] Instance R_inhabited : Inhabited R := populate 0.

(** ** JavaScript number helpers *)

Module JS.

Definition ltb (a b : R) : bool := if Rlt_dec a b then true else false.
Definition leb (a b : R) : bool := if Rle_dec a b then true else false.
Definition gtb (a b : R) : bool := ltb b a.
Definition geb (a b : R) : bool := leb b a.

(** Truthiness of a number: [0] is falsy (NaN is outside the model). *)
Definition truthy (a : R) : bool := if Req_dec_T a 0 then false else true.

(** Rounding toward zero, the quotient behind JavaScript's [%]. *)
Definition trunc (a : R) : Z := if Rlt_dec a 0 then Zceil a else Zfloor a.

(** [a % b]: the remainder of the truncated division; its sign follows
    the dividend. *)
Definition rem (a b : R) : R := a - b * IZR (trunc (a / b)).

(** [function fmod(a,b){return ((a % b)+b)%b;}] *)
Definition fmod (a b : R) : R := rem (rem a b + b) b.

(** [Math.atan2(y, x)] on finite arguments. *)
Definition atan2 (y x : R) : R :=
  if Rlt_dec 0 x then atan (y / x)
  else if Rlt_dec x 0 then
    (if Rlt_dec y 0 then atan (y / x) - PI else atan (y / x) + PI)
  else if Rlt_dec 0 y then PI / 2
  else if Rlt_dec y 0 then - (PI / 2)
  else 0.

(** The mathematical [a mod m], the remainder of the floored division,
    against which [fmod] is compared. *)
Definition floorMod (a m : R) : R := a - m * IZR (Zfloor (a / m)).

End JS.

(** ** Vectors and flat coordinate buffers *)

Record Vec3 : Type := mkVec3 { x : R; y : R; z : R }.

Definition vsub (a b : Vec3) : Vec3 := mkVec3 (x a - x b) (y a - y b) (z a - z b).
Definition vlength (a : Vec3) : R := sqrt (x a * x a + y a * y a + z a * z a).

(** A [Float32Array] holding [xyz] triples; reading particle [i] reads the
    three cells at [i * 3]. *)
Definition readVec (buf : list R) (i : nat) : Vec3 :=
  let idx := (i * 3)%nat in
  mkVec3 (buf !!! idx) (buf !!! (idx + 1)%nat) (buf !!! (idx + 2)%nat).

(** Writing the three cells at [i * 3]; a typed array ignores a write past
    its end, as [<[_:=_]>] does. *)
Definition writeVec (buf : list R) (i : nat) (v : Vec3) : list R :=
  let idx := (i * 3)%nat in
  <[(idx + 2)%nat := z v]> (<[(idx + 1)%nat := y v]> (<[idx := x v]> buf)).

(** Coordinate [k] of a vector, as the cell at offset [k] of its triple. *)
Definition coordinate (v : Vec3) (k : nat) : R :=
  match k with
  | O => x v
  | S O => y v
  | _ => z v
  end.

(** ** FloatingParticles *)

Module FloatingParticles.

Definition PARTICLE_LIFETIME : R := 4.
Definition PARTICLE_SPEED : R := 0.3.

Record BurstParticle : Type := mkBurstParticle {
  position : Vec3;
  velocity : Vec3;
  life : R;
  maxLife : R;
  size : R
}.

(** [burstStateRef.current]; [type] is [null] until the first burst. *)
Record BurstState : Type := mkBurstState {
  isActive : bool;
  startTime : R;
  type : option string;
  burstParticles : list BurstParticle
}.

(** The [transactionEffect] prop. *)
Record TransactionEffect : Type := mkTransactionEffect {
  te_type : string;
  te_isActive : bool
}.

(** The [effectConfig] prop; its [burstDuration] may be missing. *)
Record EffectConfig : Type := mkEffectConfig { burstDuration : option R }.

(** The uniforms of [ParticleMaterial] that the frame callback writes. *)
Record Uniforms : Type := mkUniforms {
  uTime : R;
  uTransactionType : R;
  uTransactionIntensity : R
}.

(** The result of the [useMemo]: [lifetimes] and [velocities] are the
    geometry attributes, [originalPositions] the private copy of the
    source positions. *)
Record ParticleData : Type := mkParticleData {
  velocities : list R;
  lifetimes : list R;
  originalPositions : list R
}.

(** The component instance: refs and memo.  [material] is
    [materialRef.current], [positions] the array of the position
    attribute of [geometryRef.current] (the [initialPositions] copy),
    [particleData] the memo ([None] without source geometry). *)
Record Component : Type := mkComponent {
  lastTime : R;
  burstState : BurstState;
  material : option Uniforms;
  positions : option (list R);
  particleData : option ParticleData
}.

(** What one frame reads from outside the component. [localMouse] is the
    delayed mouse position after [worldToLocal]. *)
Record FrameInput : Type := mkFrameInput {
  elapsedTime : R;      (* state.clock.getElapsedTime() *)
  now : R;              (* Date.now(), in milliseconds *)
  localMouse : Vec3;
  radius : R;           (* forcefieldConfig.radius *)
  strengthBase : R;     (* currentStrength.current *)
  effectConfig : option EffectConfig
}.

(** *** Particle initialisation (the [useMemo]) *)

(** Iteration [i] of the initialisation loop draws four random numbers,
    [rnd (4 i)] to [rnd (4 i + 3)]. *)
Definition initVelocity (rnd : nat -> R) (i : nat) : Vec3 :=
  mkVec3 ((rnd (4 * i)%nat - 0.5) * 0.2)
         ((rnd (4 * i + 1)%nat - 0.5) * 0.2)
         (rnd (4 * i + 2)%nat * PARTICLE_SPEED + 0.2).

Definition initLifetime (rnd : nat -> R) (i : nat) : R :=
  rnd (4 * i + 3)%nat * PARTICLE_LIFETIME.

(** The body of the loop on the pair of [velocities] and [lifetimes]: the
    three cells at [i * 3] and the cell [i]. *)
Definition initStep (rnd : nat -> R) (st : list R * list R) (i : nat)
  : list R * list R :=
  (writeVec (fst st) i (initVelocity rnd i), <[i := initLifetime rnd i]> (snd st)).

(** [for (let i = 0; i < numParticles; i++)] from [i] on.  [numParticles]
    is a quotient and need not be whole; [fuel] bounds the number of
    iterations. *)
Fixpoint initLoop (fuel : nat) (rnd : nat -> R) (numParticles : R) (i : nat)
    (st : list R * list R) : list R * list R :=
  match fuel with
  | O => st
  | S fuel' =>
      if JS.ltb (INR i) numParticles then
        initLoop fuel' rnd numParticles (S i) (initStep rnd st i)
      else st
  end.

(** [new Float32Array(len)]: [len] is truncated to a whole number and the
    cells start at 0. *)
Definition newFloat32Array (len : R) : list R := replicate (Z.to_nat (JS.trunc len)) 0.

(** [sourcePositions] is [None] when [sourceGeom] or its position
    attribute is missing.  The result pairs the memo with the
    [initialPositions] array handed to the position attribute.
    [numParticles] is [sourcePositions.length / 3] as a number: for a
    length that is not a multiple of 3 the loop runs once more than there
    are whole triples and [lifetimes] is one cell shorter than the loop is
    long.  The loop stops by its own test well within the fuel given. *)
Definition initParticles (rnd : nat -> R) (sourcePositions : option (list R))
  : option (ParticleData * list R) :=
  match sourcePositions with
  | None => None
  | Some src =>
      let numParticles := INR (length src) / 3 in
      let velocities := newFloat32Array (numParticles * 3) in
      let lifetimes := newFloat32Array numParticles in
      let st := initLoop (S (length src)) rnd numParticles 0 (velocities, lifetimes) in
      Some (mkParticleData (fst st) (snd st) src, src)
  end.

(** *** Burst initialisation (the [useEffect] on [transactionEffect]) *)

Definition numBurstParticles : nat := 50.

(** Burst particle [i] draws [rnd (4 i)] to [rnd (4 i + 3)]:
    elevation, speed, maxLife and size. *)
Definition newBurstParticle (rnd : nat -> R) (i : nat) : BurstParticle :=
  let angle := INR i / INR numBurstParticles * PI * 2 in
  let elevation := (rnd (4 * i)%nat - 0.5) * PI * 0.5 in
  let speed := 2 + rnd (4 * i + 1)%nat * 3 in
  mkBurstParticle
    (mkVec3 0 (-2) 0)
    (mkVec3 (cos angle * cos elevation * speed)
            (sin elevation * speed * 0.5)
            (sin angle * cos elevation * speed))
    1.0
    (0.8 + rnd (4 * i + 2)%nat * 0.4)
    (2 + rnd (4 * i + 3)%nat * 4).

Definition burstInit (rnd : nat -> R) (dateNow : R)
    (transactionEffect : option TransactionEffect) (bs : BurstState) : BurstState :=
  match transactionEffect with
  | Some te =>
      if te_isActive te && negb (isActive bs) then
        mkBurstState true dateNow (Some (te_type te))
          (map (newBurstParticle rnd) (seq 0 numBurstParticles))
      else bs
  | None => bs
  end.

Definition onTransactionEffect (rnd : nat -> R) (dateNow : R)
    (transactionEffect : option TransactionEffect) (c : Component) : Component :=
  mkComponent (lastTime c) (burstInit rnd dateNow transactionEffect (burstState c))
              (material c) (positions c) (particleData c).

(** *** The frame callback: burst animation *)

(** [effectConfig?.burstDuration || 1.5] *)
Definition burstDurationOf (cfg : option EffectConfig) : R :=
  match cfg with
  | Some (mkEffectConfig (Some d)) => if JS.truthy d then d else 1.5
  | _ => 1.5
  end.

Definition stepBurstParticle (delta : R) (p : BurstParticle) : BurstParticle :=
  let v := velocity p in
  let vy1 := y v - delta * 2 in
  let v' := mkVec3 (x v * 0.98) (vy1 * 0.98) (z v * 0.98) in
  let pos := position p in
  mkBurstParticle
    (mkVec3 (x pos + x v' * delta) (y pos + y v' * delta) (z pos + z v' * delta))
    v'
    (life p - delta / maxLife p)
    (maxLife p)
    (size p).

Definition transactionTypeCode (t : option string) : R :=
  match t with
  | Some s => if String.eqb s "buy" then 1.0
              else if String.eqb s "sell" then 2.0 else 0.0
  | None => 0.0
  end.

Definition burstIntensity (burstElapsed burstDuration : R) : R :=
  Rmax 0 (1 - burstElapsed / burstDuration).

(** The [if (burstStateRef.current.isActive)] block.  [ParticleMaterial]
    declares [uTransactionType], so the guard around the two uniform
    writes holds. *)
Definition burstFrame (delta dateNow : R) (cfg : option EffectConfig)
    (bs : BurstState) (u : Uniforms) : BurstState * Uniforms :=
  if isActive bs then
    let burstElapsed := (dateNow - startTime bs) / 1000 in
    let burstDuration := burstDurationOf cfg in
    if JS.ltb burstElapsed burstDuration then
      (mkBurstState true (startTime bs) (type bs)
         (map (stepBurstParticle delta) (burstParticles bs)),
       mkUniforms (uTime u) (transactionTypeCode (type bs))
         (burstIntensity burstElapsed burstDuration))
    else
      (mkBurstState false (startTime bs) (type bs) [], u)
  else (bs, u).

(** *** The frame callback: respawn displacement *)

Definition randomFactorOf (o d : Vec3) (globalTime : R) : R :=
  let time := globalTime * 0.3 in
  let spatialNoise :=
    sin (x o * 8.314 + y o * 5.926 + z o * 7.847 + time * 0.7) * 0.5 + 0.5 in
  let temporalNoise :=
    sin (time * 1.2 + x o * 3.141 + y o * 2.718) * 0.5 + 0.5 in
  let detailNoise :=
    sin (x o * 23.456 + y o * 17.321 + z o * 11.789 + time * 2.1) * 0.5 + 0.5 in
  let dirNoise := sin (JS.atan2 (y d) (x d) * 4.0 + time * 0.8) * 0.5 + 0.5 in
  let combinedNoise :=
    spatialNoise * 0.4 + temporalNoise * 0.3 + detailNoise * 0.2 + dirNoise * 0.1 in
  combinedNoise * 0.7 + 0.3.

Definition forceOf (dist radius : R) : R :=
  (1 - dist / radius) * (1 - dist / radius).

(** The seed position written for a respawning particle whose original
    position is [o]. *)
Definition respawnPosition (o mouse : Vec3) (radius strengthBase globalTime : R) : Vec3 :=
  let d := vsub o mouse in
  let dist := vlength d in
  if JS.ltb dist radius && JS.gtb dist 1e-6 then
    let randomFactor := randomFactorOf o d globalTime in
    let force := forceOf dist radius in
    let displacement := strengthBase * force * randomFactor in
    let inv := 1.0 / dist in
    mkVec3 (x o + x d * inv * displacement)
           (y o + y d * inv * displacement)
           (z o + z d * inv * displacement)
  else o.

Definition age (globalTime : R) (lifetimesArr : list R) (i : nat) : R :=
  JS.fmod (globalTime - lifetimesArr !!! i) PARTICLE_LIFETIME.

(** One iteration of the respawn loop. *)
Definition respawnStep (globalTime delta : R) (mouse : Vec3) (radius strengthBase : R)
    (pd : ParticleData) (pos : list R) (i : nat) : list R :=
  if JS.ltb (age globalTime (lifetimes pd) i) delta then
    writeVec pos i
      (respawnPosition (readVec (originalPositions pd) i) mouse radius strengthBase globalTime)
  else pos.

Definition respawnLoop (globalTime delta : R) (mouse : Vec3) (radius strengthBase : R)
    (pd : ParticleData) (pos : list R) : list R :=
  foldl (respawnStep globalTime delta mouse radius strengthBase pd) pos
        (seq 0 (length (lifetimes pd))).

(** *** The frame callback *)

(** [uniforms.uTime.value = globalTime]: the uniforms as the burst block
    finds them. *)
Definition timed (inp : FrameInput) (u : Uniforms) : Uniforms :=
  mkUniforms (elapsedTime inp) (uTransactionType u) (uTransactionIntensity u).

Definition useFrame (inp : FrameInput) (c : Component) : Component :=
  match material c with
  | None => c
  | Some u =>
      let globalTime := elapsedTime inp in
      let delta := globalTime - lastTime c in
      let u1 := timed inp u in
      let '(bs, u2) := burstFrame delta (now inp) (effectConfig inp) (burstState c) u1 in
      let pos :=
        match positions c, particleData c with
        | Some p, Some pd =>
            Some (respawnLoop globalTime delta (localMouse inp) (radius inp)
                    (strengthBase inp) pd p)
        | p, _ => p
        end in
      mkComponent globalTime bs (Some u2) pos (particleData c)
  end.

(** Frames in sequence, with no prop change in between. *)
Definition runFrames (inps : list FrameInput) (c : Component) : Component :=
  foldl (fun c inp => useFrame inp c) c inps.

(** What can happen to the component: the [transactionEffect] prop
    changes and its effect runs, or a frame is rendered. *)
Inductive Event : Type :=
| Trigger (rnd : nat -> R) (dateNow : R) (te : option TransactionEffect)
| Frame (inp : FrameInput).

Definition step (ev : Event) (c : Component) : Component :=
  match ev with
  | Trigger rnd dateNow te => onTransactionEffect rnd dateNow te c
  | Frame inp => useFrame inp c
  end.

Definition run (evs : list Event) (c : Component) : Component :=
  foldl (fun c ev => step ev c) c evs.

(** *** Concrete instances *)

(** A buy burst started at [Date.now() = 0] with a single particle. *)
Definition buyBurst : BurstState :=
  mkBurstState true 0 (Some "buy"%string)
    [mkBurstParticle (mkVec3 0 (-2) 0) (mkVec3 1 1 0) 1.0 1 2].

(** One particle with base position at the origin and phase offset 0,
    currently drawn away from its base position; the last frame was at
    3.9 s. *)
Definition oneParticle (bs : BurstState) : Component :=
  mkComponent 3.9 bs (Some (mkUniforms 3.9 0.0 0.0))
    (Some [5; 5; 5]) (Some (mkParticleData [0; 0; 0.3] [0] [0; 0; 0])).

(** A frame at 4 s of the render clock and [ms] milliseconds of wall
    clock, the pointer one unit away from the origin, default burst
    duration. *)
Definition frameAt (ms : R) : FrameInput :=
  mkFrameInput 4 ms (mkVec3 1 0 0) 0.8 0.4 None.

(** *** Burst particles over several frames *)

(** A burst particle after frames of the given deltas, oldest first. *)
Definition ageBurstParticle (deltas : list R) (p : BurstParticle) : BurstParticle :=
  foldl (fun p d => stepBurstParticle d p) p deltas.

(** The total of a list of deltas. *)
Definition sumDeltas (deltas : list R) : R := foldr Rplus 0 deltas.

(** The instants at which a particle of phase offset [l] wraps around. *)
Definition wrapsIn (l lo hi : R) : Prop :=
  exists m : Z, lo < l + PARTICLE_LIFETIME * IZR m <= hi.

End FloatingParticles.

(** ** ParticleFrame *)

Module ParticleFrame.

Definition PARTICLE_LIFETIME : R := 6.
Definition DEFAULT_NUM_PARTICLES : nat := 2000.

(** The uniforms the frame callback writes, on a material that has
    them. *)
Record Uniforms : Type := mkUniforms {
  uTime : R;
  uCardPosition : Vec3;
  uIsGenerating : R;
  uGenerationIntensity : R;
  uBurstTime : R;
  uBurstActive : R
}.

(** What [materialRef.current] can point to, as far as the frame callback
    looks at it: an object that may or may not have a [uniforms] property. *)
Record Material : Type := mkMaterial { uniforms : option Uniforms }.

(** The material the component renders, [<pointsMaterial ... />]: a
    [THREE.PointsMaterial], which has no [uniforms].
    [FrameParticleMaterial] is declared and registered with [extend] but
    no element of it is rendered. *)
Definition pointsMaterial : Material := mkMaterial None.

(** The component instance.  [positions], [originalPositions] and
    [lifetimes] are the arrays of [particleData]; [geometry] tells whether
    [geometryRef.current] is set, [material] is [materialRef.current]. *)
Record Component : Type := mkComponent {
  positions : list R;
  originalPositions : list R;
  lifetimes : list R;
  generationIntensity : R;
  burstTime : R;
  wasBursting : bool;
  material : option Material;
  geometry : bool
}.

(** How a call of the frame callback ends: it returns, or it throws; either
    way the refs are left as the call had them at that point. *)
Inductive Error : Type := TypeError.

Inductive Completion : Type :=
| Returns (c : Component)
| Throws (e : Error) (c : Component).

Definition stateOf (r : Completion) : Component :=
  match r with Returns c => c | Throws _ c => c end.

Record FrameInput : Type := mkFrameInput {
  isGenerating : bool;           (* the prop of the current render *)
  elapsedTime : R;               (* state.clock.getElapsedTime() *)
  clockDelta : R;                (* state.clock.getDelta() *)
  cardPosition : option Vec3     (* cardRef.current.position *)
}.

(** Iteration [i] of [generateFrameGeometry] draws seven random numbers;
    the last one, [rnd (7 i + 6)], seeds the lifetime offset.  This is the
    [lifetimes] array of its result. *)
Definition generateFrameGeometry_lifetimes (rnd : nat -> R) (numParticles : nat) : list R :=
  map (fun i => rnd (7 * i + 6)%nat * PARTICLE_LIFETIME) (seq 0 numParticles).

(** The [useEffect] on [isGenerating]. *)
Definition onGenerating (isGen : bool) (dateNow : R) (c : Component) : Component :=
  if isGen && negb (wasBursting c) then
    mkComponent (positions c) (originalPositions c) (lifetimes c)
      (generationIntensity c) (dateNow / 1000) true (material c) (geometry c)
  else if negb isGen then
    mkComponent (positions c) (originalPositions c) (lifetimes c)
      (generationIntensity c) (burstTime c) false (material c) (geometry c)
  else c.

(** [THREE.MathUtils.lerp] *)
Definition lerp (a b t : R) : R := (1 - t) * a + t * b.

Definition jitter (orig : list R) (i : nat) (rnd : nat -> R) (k : nat) (amount : R) : Vec3 :=
  let o := readVec orig i in
  mkVec3 (x o + (rnd k - 0.5) * amount)
         (y o + (rnd (k + 1)%nat - 0.5) * amount)
         (z o + (rnd (k + 2)%nat - 0.5) * amount).

(** The arrays the respawn loop mutates, with the number of random
    numbers drawn so far in this frame. *)
Record Buffers : Type := mkBuffers {
  b_positions : list R;
  b_lifetimes : list R;
  b_drawn : nat
}.

(** One iteration of the respawn loop. *)
Definition respawnStep (isGen wasB : bool) (globalTime delta : R) (orig : list R)
    (rnd : nat -> R) (b : Buffers) (i : nat) : Buffers :=
  let age := JS.fmod (globalTime - b_lifetimes b !!! i) PARTICLE_LIFETIME in
  if JS.ltb age delta then
    if isGen && wasB then
      mkBuffers (writeVec (b_positions b) i (jitter orig i rnd (b_drawn b) 0.1))
                (<[i := globalTime]> (b_lifetimes b))
                (b_drawn b + 3)
    else if negb isGen then
      mkBuffers (writeVec (b_positions b) i (jitter orig i rnd (b_drawn b) 0.05))
                (b_lifetimes b)
                (b_drawn b + 3)
    else b
  else b.

Definition respawnLoop (isGen wasB : bool) (globalTime delta : R) (orig : list R)
    (rnd : nat -> R) (b : Buffers) : Buffers :=
  foldl (respawnStep isGen wasB globalTime delta orig rnd) b
        (seq 0 (length (b_lifetimes b))).

(** The frame callback; [rnd] is the stream of [Math.random()] results of
    this frame.  After the guard on the two refs the first statement reads
    [materialRef.current.uniforms.uTime]: on a material without [uniforms]
    that is a property read on [undefined], which throws a [TypeError]
    before anything has been written. *)
Definition useFrame (rnd : nat -> R) (inp : FrameInput) (c : Component) : Completion :=
  match material c, cardPosition inp with
  | Some m, Some cardPos =>
      match uniforms m with
      | None => Throws TypeError c
      | Some _ =>
          let globalTime := elapsedTime inp in
          let targetIntensity := if isGenerating inp then 1.0 else 0.0 in
          let gi := lerp (generationIntensity c) targetIntensity 0.05 in
          let u := mkUniforms globalTime cardPos
                     (if isGenerating inp then 1.0 else 0.0) gi
                     (burstTime c) (if wasBursting c then 1.0 else 0.0) in
          let b :=
            if geometry c then
              respawnLoop (isGenerating inp) (wasBursting c) globalTime (clockDelta inp)
                (originalPositions c) rnd (mkBuffers (positions c) (lifetimes c) 0)
            else mkBuffers (positions c) (lifetimes c) 0 in
          Returns
            (mkComponent (b_positions b) (originalPositions c) (b_lifetimes b)
               gi (burstTime c) (wasBursting c) (Some (mkMaterial (Some u))) (geometry c))
      end
  | _, _ => Returns c
  end.


(** A random source that always returns one half. *)
Definition half : nat -> R := fun _ => 0.5.

(** *** Frame geometry *)

Definition FRAME_SIZE : R := 3.4.
Definition FRAME_THICKNESS : R := 0.1.

(** The point of the frame outline for the parameter [t]: the [switch] on
    [side = Math.floor(t * 4)] with [sideT = (t * 4) % 1]. *)
Definition outlinePoint (t : R) : R * R :=
  let halfSize := FRAME_SIZE / 2 in
  let side := Zfloor (t * 4) in
  let sideT := JS.rem (t * 4) 1 in
  match side with
  | 0%Z => (- halfSize + sideT * FRAME_SIZE, halfSize)
  | 1%Z => (halfSize, halfSize - sideT * FRAME_SIZE)
  | 2%Z => (halfSize - sideT * FRAME_SIZE, - halfSize)
  | 3%Z => (- halfSize, - halfSize + sideT * FRAME_SIZE)
  | _ => (0, 0)
  end.

(** [THREE.Vector3.normalize]: division by the length, or by 1 for the
    zero vector. *)
Definition normalize (v : Vec3) : Vec3 :=
  let l := if JS.truthy (vlength v) then vlength v else 1 in
  mkVec3 (x v * (1 / l)) (y v * (1 / l)) (z v * (1 / l)).

Definition radialSpeed : R := 0.4.
Definition upwardSpeed : R := 0.

(** The seed position of particle [i] of [numParticles]; iteration [i]
    draws [rnd (7 i)] to [rnd (7 i + 6)]. *)
Definition seedPosition (rnd : nat -> R) (numParticles i : nat) : Vec3 :=
  let t := INR i / INR numParticles in
  let offsetDirection := rnd (7 * i)%nat * PI * 2 in
  let offsetDistance := rnd (7 * i + 1)%nat * FRAME_THICKNESS in
  mkVec3 (fst (outlinePoint t) + cos offsetDirection * offsetDistance)
         (snd (outlinePoint t) + sin offsetDirection * offsetDistance)
         ((rnd (7 * i + 2)%nat - 0.5) * 0.05).

(** The radial part of the velocity of particle [i]. *)
Definition radialVelocity (rnd : nat -> R) (numParticles i : nat) : Vec3 :=
  let p := seedPosition rnd numParticles i in
  let radialDir := normalize (mkVec3 (x p) (y p) 0) in
  mkVec3 (x radialDir * radialSpeed) (y radialDir * radialSpeed)
         (z radialDir * radialSpeed).

Definition seedVelocity (rnd : nat -> R) (numParticles i : nat) : Vec3 :=
  let r := radialVelocity rnd numParticles i in
  mkVec3 (x r + (rnd (7 * i + 3)%nat - 0.5) * 0.05)
         (y r + (upwardSpeed + (rnd (7 * i + 4)%nat - 0.5) * 0.1))
         (z r + (rnd (7 * i + 5)%nat - 0.5) * 0.05).

Definition cells (v : Vec3) : list R := [x v; y v; z v].

(** The five arrays [generateFrameGeometry] returns. *)
Record FrameGeometry : Type := mkFrameGeometry {
  g_positions : list R;
  g_originalPositions : list R;
  g_velocities : list R;
  g_lifetimes : list R;
  g_framePositions : list R
}.

Definition generateFrameGeometry (rnd : nat -> R) (numParticles : nat) : FrameGeometry :=
  let idx := seq 0 numParticles in
  mkFrameGeometry
    (flat_map (fun i => cells (seedPosition rnd numParticles i)) idx)
    (flat_map (fun i => cells (seedPosition rnd numParticles i)) idx)
    (flat_map (fun i => cells (seedVelocity rnd numParticles i)) idx)
    (map (fun i => rnd (7 * i + 6)%nat * PARTICLE_LIFETIME) idx)
    (map (fun i => INR i / INR numParticles) idx).

(** A point of the square outline of the frame. *)
Definition onOutline (p : R * R) : Prop :=
  Rabs (fst p) <= FRAME_SIZE / 2 /\ Rabs (snd p) <= FRAME_SIZE / 2
  /\ (Rabs (fst p) = FRAME_SIZE / 2 \/ Rabs (snd p) = FRAME_SIZE / 2).

(** The component as the first render leaves it, before any ref is set. *)
Definition newComponent (rnd : nat -> R) (numParticles : nat) : Component :=
  let g := generateFrameGeometry rnd numParticles in
  mkComponent (g_positions g) (g_originalPositions g) (g_lifetimes g)
    0 0 false None false.

(** *** The component's life as a sequence of events *)

(** React commits the first render: [geometryRef] and [materialRef] now
    point to the rendered [<bufferGeometry>] and [<pointsMaterial>]. *)
Definition onCommit (c : Component) : Component :=
  mkComponent (positions c) (originalPositions c) (lifetimes c)
    (generationIntensity c) (burstTime c) (wasBursting c) (Some pointsMaterial) true.

(** What can happen to the component after its first render: the commit,
    the effect on [isGenerating], or a frame.  A frame that throws leaves
    the refs as they were at the throw. *)
Inductive Event : Type :=
| Commit
| Generating (isGen : bool) (dateNow : R)
| Frame (rnd : nat -> R) (inp : FrameInput).

Definition step (ev : Event) (c : Component) : Component :=
  match ev with
  | Commit => onCommit c
  | Generating isGen dateNow => onGenerating isGen dateNow c
  | Frame rnd inp => stateOf (useFrame rnd inp c)
  end.

Definition run (evs : list Event) (c : Component) : Component :=
  foldl (fun c ev => step ev c) c evs.

(** What is fixed once [generateFrameGeometry] has run: the arrays and the
    generation intensity are those of the first render, and the material,
    if any, is the rendered one. *)
Definition frozenAt (c0 c : Component) : Prop :=
  positions c = positions c0 /\ originalPositions c = originalPositions c0
  /\ lifetimes c = lifetimes c0
  /\ generationIntensity c = generationIntensity c0
  /\ (material c = None \/ material c = Some pointsMaterial).

End ParticleFrame.

(** ** PFPCard *)

Module PFPCard.

(** A texture handle. *)
Definition Texture : Type := nat.

(** The part of [meshRef.current] the frame callback writes. *)
Record Transform : Type := mkTransform {
  rotation_x : R;
  rotation_y : R;
  position_y : R
}.

(** The component instance.  The first three fields and [isSpinning] are
    React state, the others refs.  [mesh] is [meshRef.current];
    [currentOpacity] and [nextOpacity] are the [opacity] of the materials
    of [currentMeshRef.current] and [nextMeshRef.current], [None] while
    the mesh is not mounted. *)
Record Card : Type := mkCard {
  currentTexture : option Texture;
  nextTexture : option Texture;
  isTransitioning : bool;
  baseRotation : R;
  isSpinning : bool;
  spinStartRotation : R;
  spinProgress : R;
  transitionProgress : R;
  mesh : option Transform;
  currentOpacity : option R;
  nextOpacity : option R
}.

(** *** Effects and callbacks *)

(** The texture loader's success callback.  [capturedCurrent] is the
    [currentTexture] its closure captured.  Both branches on [isSpinning]
    do the same. *)
Definition onTextureLoaded (capturedCurrent : option Texture) (loaded : Texture)
    (c : Card) : Card :=
  match capturedCurrent with
  | Some _ =>
      mkCard (currentTexture c) (Some loaded) true (baseRotation c) (isSpinning c)
        (spinStartRotation c) (spinProgress c) 0 (mesh c)
        (currentOpacity c) (nextOpacity c)
  | None =>
      mkCard (Some loaded) (nextTexture c) (isTransitioning c) (baseRotation c)
        (isSpinning c) (spinStartRotation c) (spinProgress c) (transitionProgress c)
        (mesh c) (currentOpacity c) (nextOpacity c)
  end.

(** The [useEffect] on [isGenerating]: start a spin. *)
Definition onGenerating (isGen : bool) (c : Card) : Card :=
  if isGen then
    mkCard (currentTexture c) (nextTexture c) (isTransitioning c) (baseRotation c)
      true (baseRotation c) 0 (transitionProgress c) (mesh c)
      (currentOpacity c) (nextOpacity c)
  else c.

(** The [useEffect] on [isSpinning], [isTransitioning], [nextTexture]. *)
Definition onSpinCompletion (c : Card) : Card :=
  match nextTexture c with
  | Some nt =>
      if negb (isSpinning c) && isTransitioning c then
        mkCard (Some nt) None false (baseRotation c) (isSpinning c)
          (spinStartRotation c) (spinProgress c) (transitionProgress c) (mesh c)
          (currentOpacity c) (nextOpacity c)
      else c
  | None => c
  end.

(** Rendering mounts the next mesh, with a fresh material of opacity 1,
    exactly while [nextTexture && isTransitioning]. *)
Definition render (c : Card) : Card :=
  let mounted :=
    match nextTexture c with Some _ => isTransitioning c | None => false end in
  mkCard (currentTexture c) (nextTexture c) (isTransitioning c) (baseRotation c)
    (isSpinning c) (spinStartRotation c) (spinProgress c) (transitionProgress c)
    (mesh c) (currentOpacity c)
    (if mounted then
       match nextOpacity c with Some o => Some o | None => Some 1 end
     else None).

(** *** The frame callback: rotation *)

Definition spinSpeed : R := 1.5.

(** The rotation written to [baseRotation] when a spin completes. *)
Definition normalizeRotation (spinStart : R) : R :=
  let completedRotation := spinStart + PI * 2 in
  let normalizedRotation :=
    JS.rem (JS.rem completedRotation (PI * 2) + PI * 2) (PI * 2) in
  if JS.gtb normalizedRotation PI then normalizedRotation - PI * 2
  else normalizedRotation.

(** What the rotation block leaves behind: the transform, the two refs it
    writes and the value passed to [setIsSpinning]. *)
Record SpinResult : Type := mkSpinResult {
  s_mesh : option Transform;
  s_baseRotation : R;
  s_isSpinning : bool;
  s_spinProgress : R
}.

Definition spinBlock (elapsed delta : R) (c : Card) : SpinResult :=
  match mesh c with
  | None => mkSpinResult None (baseRotation c) (isSpinning c) (spinProgress c)
  | Some m =>
      if isSpinning c then
        let p := Rmin (spinProgress c + delta * spinSpeed) 1.0 in
        let easedProgress := p * p * (3 - 2 * p) in
        let currentYRotation := spinStartRotation c + (PI * 2) * easedProgress in
        let m' := mkTransform 0 currentYRotation 0 in
        if JS.geb p 1.0 then
          mkSpinResult (Some m') (normalizeRotation (spinStartRotation c)) false 0
        else
          mkSpinResult (Some m') (baseRotation c) true p
      else
        mkSpinResult
          (Some (mkTransform (sin (elapsed * 0.3) * 0.02)
                             (baseRotation c + sin (elapsed * 0.5) * 0.05)
                             (sin (elapsed * 0.8) * 0.1)))
          (baseRotation c) false (spinProgress c)
  end.

(** *** The frame callback: crossfade *)

Definition crossfadeStart : R := 0.4.
Definition transitionSpeed : R := 2.0.

Definition crossfadeProgress (spinProgressNow : R) : R :=
  Rmax 0 (Rmin ((spinProgressNow - crossfadeStart) / (1.0 - crossfadeStart)) 1.0).

(** Which branch of the transition block a frame takes. *)
Inductive Branch : Type :=
| NoTransition      (* the outer guard fails *)
| SpinCoupled       (* [if (isSpinning)] *)
| Immediate         (* [else if (!isSpinning && nextTexture)] *)
| TimeCoupled.      (* the final [else] *)

Definition is_some {A : Type} (o : option A) : bool :=
  match o with Some _ => true | None => false end.

Definition branchOf (c : Card) : Branch :=
  if isTransitioning c && is_some (nextTexture c)
     && is_some (currentOpacity c) && is_some (nextOpacity c) then
    if isSpinning c then SpinCoupled
    else if negb (isSpinning c) && is_some (nextTexture c) then Immediate
    else TimeCoupled
  else NoTransition.

(** What the transition block and the idle-opacity block leave behind. *)
Record FadeResult : Type := mkFadeResult {
  f_currentTexture : option Texture;
  f_nextTexture : option Texture;
  f_isTransitioning : bool;
  f_transitionProgress : R;
  f_currentOpacity : option R;
  f_nextOpacity : option R
}.

Definition unchanged (c : Card) : FadeResult :=
  mkFadeResult (currentTexture c) (nextTexture c) (isTransitioning c)
    (transitionProgress c) (currentOpacity c) (nextOpacity c).

(** The body of the final [else]: time-coupled progress. *)
Definition timeCoupled (delta : R) (c : Card) : FadeResult :=
  let tp := transitionProgress c + delta * transitionSpeed in
  let done := JS.geb tp 1.0 in
  let tp' := if done then 1.0 else tp in
  let finish := done && is_some (nextTexture c) in
  let progress := Rmin tp' 1.0 in
  mkFadeResult
    (if finish then nextTexture c else currentTexture c)
    (if finish then None else nextTexture c)
    (if finish then false else isTransitioning c)
    tp'
    (Some (1.0 - progress))
    (Some progress).

(** The transition block; [spinProgressNow] is [spinProgress.current]
    as the rotation block left it. *)
Definition transitionBlock (delta spinProgressNow : R) (c : Card) : FadeResult :=
  match branchOf c with
  | NoTransition => unchanged c
  | SpinCoupled =>
      let p := crossfadeProgress spinProgressNow in
      mkFadeResult (currentTexture c) (nextTexture c) (isTransitioning c)
        (transitionProgress c) (Some (1.0 - p)) (Some p)
  | Immediate =>
      mkFadeResult (nextTexture c) None false
        (transitionProgress c) (currentOpacity c) (nextOpacity c)
  | TimeCoupled => timeCoupled delta c
  end.

(** The [if (!isTransitioning)] block at the end of the callback. *)
Definition idleOpacityBlock (c : Card) (f : FadeResult) : FadeResult :=
  if negb (isTransitioning c) then
    mkFadeResult (f_currentTexture f) (f_nextTexture f) (f_isTransitioning f)
      (f_transitionProgress f)
      (match f_currentOpacity f with Some _ => Some 1.0 | None => None end)
      (match f_nextOpacity f with Some _ => Some 0.0 | None => None end)
  else f.

(** The frame callback [useFrame((state, delta) => ...)]. *)
Definition useFrame (elapsed delta : R) (c : Card) : Card :=
  let s := spinBlock elapsed delta c in
  let f := idleOpacityBlock c (transitionBlock delta (s_spinProgress s) c) in
  mkCard (f_currentTexture f) (f_nextTexture f) (f_isTransitioning f)
    (s_baseRotation s) (s_isSpinning s) (spinStartRotation c) (s_spinProgress s)
    (f_transitionProgress f) (s_mesh s) (f_currentOpacity f) (f_nextOpacity f).

(** Frames in sequence; each pair is [(elapsed, delta)]. *)
Definition runFrames (frames : list (R * R)) (c : Card) : Card :=
  foldl (fun c fr => useFrame (fst fr) (snd fr) c) c frames.

(** A card at rest showing texture [a]: not spinning, no transition, the
    current mesh fully opaque and no next mesh mounted. *)
Definition stableCard (a : Texture) : Card :=
  mkCard (Some a) None false 0 false 0 0 0
    (Some (mkTransform 0 0 0)) (Some 1) None.

(** A card in mid-spin with texture [b] fading in over texture [a]. *)
Definition spinningCard (a b : Texture) (progress : R) : Card :=
  mkCard (Some a) (Some b) true 0 true 0 progress 0
    (Some (mkTransform 0 0 0)) (Some 1) (Some 0).

(** *** The component's life as a sequence of events *)

(** The [else] of the texture effect: [generatedImage] became null. *)
Definition onImageCleared (c : Card) : Card :=
  mkCard None None false (baseRotation c) (isSpinning c)
    (spinStartRotation c) (spinProgress c) (transitionProgress c) (mesh c)
    (currentOpacity c) (nextOpacity c).

(** The [useEffect] on [currentTexture] and [isTransitioning]: outside a
    transition the current material is made opaque. *)
Definition onOpacityEffect (c : Card) : Card :=
  if negb (isTransitioning c) then
    mkCard (currentTexture c) (nextTexture c) (isTransitioning c) (baseRotation c)
      (isSpinning c) (spinStartRotation c) (spinProgress c) (transitionProgress c)
      (mesh c)
      (match currentOpacity c with Some _ => Some 1.0 | None => None end)
      (nextOpacity c)
  else c.

(** The card right after mounting: initial state and refs, the group and
    the current mesh mounted, no next mesh. *)
Definition mountedCard : Card :=
  mkCard None None false 0 false 0 0 0 (Some (mkTransform 0 0 0)) (Some 1) None.

Inductive Event : Type :=
| Frame (elapsed delta : R)
| Generating (isGen : bool)
| TextureLoaded (capturedCurrent : option Texture) (loaded : Texture)
| ImageCleared
| SpinCompletionEffect
| OpacityEffect
| Render.

Definition step (ev : Event) (c : Card) : Card :=
  match ev with
  | Frame elapsed delta => useFrame elapsed delta c
  | Generating isGen => onGenerating isGen c
  | TextureLoaded cap loaded => onTextureLoaded cap loaded c
  | ImageCleared => onImageCleared c
  | SpinCompletionEffect => onSpinCompletion c
  | OpacityEffect => onOpacityEffect c
  | Render => render c
  end.

Definition run (evs : list Event) (c : Card) : Card :=
  foldl (fun c ev => step ev c) c evs.

(** The time covered by a sequence of frames. *)
Definition totalDelta (frames : list (R * R)) : R :=
  foldr (fun fr acc => snd fr + acc) 0 frames.

(** [p * p * (3 - 2 * p)], the easing of the spin. *)
Definition smoothstep (p : R) : R := p * p * (3 - 2 * p).

(** What every event keeps: the base rotation is normalised and the
    recorded start of the spin is the base rotation. *)
Definition rotationInv (c : Card) : Prop :=
  - PI < baseRotation c <= PI /\ spinStartRotation c = baseRotation c.

(** The state is consistent about a pending texture: there is a next
    texture exactly while a transition is flagged. *)
Definition pendingInv (c : Card) : Prop :=
  is_some (nextTexture c) = isTransitioning c.

(** The sum of the opacities of the two materials, while both meshes
    are mounted. *)
Definition opacitySum (c : Card) : option R :=
  match currentOpacity c, nextOpacity c with
  | Some a, Some b => Some (a + b)
  | _, _ => None
  end.

End PFPCard.

(** ** App: composing the picture *)

From Stdlib Require Import Ascii DecimalString.
From stdpp Require Import strings gmap.

Open Scope R_scope.

Module App.

(** *** Strings

    The strings of this part are ASCII; a character is its code unit. *)

(** [s.startsWith(p)], returning what follows the prefix. *)
Fixpoint stripPrefix (p s : string) : option string :=
  match p, s with
  | EmptyString, _ => Some s
  | String a p', String b s' => if Ascii.eqb a b then stripPrefix p' s' else None
  | String _ _, EmptyString => None
  end.

(** [hay.includes(needle)] on strings. *)
Fixpoint includes (needle hay : string) : bool :=
  match stripPrefix needle hay with
  | Some _ => true
  | None =>
      match hay with
      | EmptyString => false
      | String _ hay' => includes needle hay'
      end
  end.

(** [files.includes(name)] on arrays of strings. *)
Definition arrayIncludes (files : list string) (name : string) : bool :=
  existsb (String.eqb name) files.

(** The white space [trim] removes. *)
Definition isSpace (c : ascii) : bool :=
  let n := nat_of_ascii c in
  ((9 <=? n) && (n <=? 13))%nat || (n =? 32)%nat.

Fixpoint trimStart (s : string) : string :=
  match s with
  | String c s' => if isSpace c then trimStart s' else s
  | EmptyString => EmptyString
  end.

Fixpoint trimEnd (s : string) : string :=
  match s with
  | EmptyString => EmptyString
  | String c s' =>
      match trimEnd s' with
      | EmptyString => if isSpace c then EmptyString else String c EmptyString
      | t => String c t
      end
  end.

Definition trim (s : string) : string := trimEnd (trimStart s).

(** [s.split(',')]: never empty. *)
Fixpoint splitComma (s : string) : list string :=
  match s with
  | EmptyString => [EmptyString]
  | String c s' =>
      if Ascii.eqb c "," then EmptyString :: splitComma s'
      else match splitComma s' with
           | h :: t => String c h :: t
           | [] => [String c EmptyString]
           end
  end.

(** The longest run of characters other than [)] and what follows it. *)
Fixpoint spanNotParen (s : string) : string * string :=
  match s with
  | EmptyString => (EmptyString, EmptyString)
  | String c s' =>
      if Ascii.eqb c ")" then (EmptyString, s)
      else let (run, rest) := spanNotParen s' in (String c run, rest)
  end.

(** A match of [/linear-gradient\(([^)]+)\)/] starting at the head of [s],
    as its captured group: the run of non-parenthesis characters must be
    non-empty and followed by the closing parenthesis. *)
Definition gradientAt (s : string) : option string :=
  match stripPrefix "linear-gradient(" s with
  | Some rest =>
      match spanNotParen rest with
      | (String c run, String _ _) => Some (String c run)
      | _ => None
      end
  | None => None
  end.

(** [value.match(/linear-gradient\(([^)]+)\)/)]: the group of the leftmost
    match. *)
Fixpoint matchGradient (s : string) : option string :=
  match gradientAt s with
  | Some g => Some g
  | None =>
      match s with
      | EmptyString => None
      | String _ s' => matchGradient s'
      end
  end.

(** *** Random choices *)

(** [Math.floor(r * n)] *)
Definition floorTimes (r : R) (n : nat) : Z := Zfloor (r * INR n).

(** [arr[z]] for a number [z]: [undefined] outside the array. *)
Definition at_index {A : Type} (arr : list A) (z : Z) : option A :=
  if (z <? 0)%Z then None else arr !! Z.to_nat z.

(** A value spliced into a template string. *)
Definition show (v : option string) : string :=
  match v with Some s => s | None => "undefined" end.

Definition colors : list string := [
  "#FF6B9D"; "#C44569"; "#F8B500"; "#FF3838"; "#FF6348";
  "#1DD1A1"; "#00D2D3"; "#0ABDE3"; "#3742FA"; "#5F27CD";
  "#FD79A8"; "#FDCB6E"; "#6C5CE7"; "#A29BFE"; "#00B894";
  "#00CEC9"; "#0984E3"; "#74B9FF"; "#E17055"; "#81ECEC";
  "#FF7675"; "#FFDD59"; "#00B894"; "#6C5CE7"; "#FF6B6B";
  "#2C2C54"; "#40407A"; "#706FD3"; "#474787"; "#8C7AE6";
  "#34495E"; "#2F3542"; "#57606F"; "#A4B0BE"; "#747D8C";
  "#5F27CD"; "#341F97"; "#6C5CE7"; "#A29BFE"; "#74B9FF";
  "#2D3436"; "#636E72"; "#B2BEC3"; "#DDD6FE"; "#6366F1";
  "#1E1E2E"; "#313244"; "#45475A"; "#585B70"; "#6C7086";
  "#7F849C"; "#9399B2"; "#A6ADC8"; "#BAC2DE"; "#CDD6F4";
  "#000000"; "#1A1A1A"; "#2D2D2D"; "#404040"; "#1F1F23";
  "#0F0F23"; "#262626"; "#181818"; "#0D1117"; "#161B22";
  "#21262D"; "#30363D"; "#21262D"; "#0E0E0E"; "#141414";
  "#8B0000"; "#800080"; "#483D8B"; "#2F4F4F"; "#000080";
  "#008B8B"; "#556B2F"; "#8B4513"; "#2F4F4F"; "#191970";
  "#8B008B"; "#9932CC"; "#4B0082"; "#6A0DAD"; "#4B0082"
]%string.

(** [generateRandomColor], with the random number it draws. *)
Definition generateRandomColor (r : R) : option string :=
  at_index colors (floorTimes r (length colors)).

Definition directions : list string :=
  ["45deg"; "90deg"; "135deg"; "180deg"; "225deg"; "270deg"; "315deg"; "0deg"]%string.

(** [generateRandomGradient]; it draws [rnd k] to [rnd (k + 4)]. *)
Definition generateRandomGradient (rnd : nat -> R) (k : nat) : string :=
  let direction := show (at_index directions (floorTimes (rnd k) (length directions))) in
  let color1 := show (generateRandomColor (rnd (k + 1)%nat)) in
  let color2 := show (generateRandomColor (rnd (k + 2)%nat)) in
  let color3 := show (generateRandomColor (rnd (k + 3)%nat)) in
  if JS.gtb (rnd (k + 4)%nat) 0.3 then
    "linear-gradient(" +:+ direction +:+ ", " +:+ color1 +:+ ", " +:+ color2 +:+ ")"
  else
    "linear-gradient(" +:+ direction +:+ ", " +:+ color1 +:+ ", " +:+ color2
      +:+ ", " +:+ color3 +:+ ")".

Inductive BackgroundType : Type := gradient | solid.

Record Background : Type := mkBackground {
  bg_type : BackgroundType;
  bg_value : option string
}.

(** [generateCSSBackground] starting at draw [k], with the number of the
    next draw. *)
Definition generateCSSBackground (rnd : nat -> R) (k : nat) : Background * nat :=
  if JS.gtb (rnd k) 0.3 then
    (mkBackground gradient (Some (generateRandomGradient rnd (k + 1))), (k + 6)%nat)
  else
    (mkBackground solid (generateRandomColor (rnd (k + 1)%nat)), (k + 2)%nat).

(** *** Drawing *)

(** What is painted on the canvas: an image stretched over the canvas, or
    the whole canvas filled with the style just assigned. *)
Inductive DrawOp : Type :=
| DrawImage (path : string)
| FillSolid (value : option string)
| FillGradient (x0 y0 x1 y1 : R) (stops : list (R * string)).

(** The ends of the gradient line for a CSS direction. *)
Definition gradientLine (direction : string) (width height : R) : R * R * R * R :=
  if includes "45deg" direction then (0, height, width, 0)
  else if includes "90deg" direction then (0, height, 0, 0)
  else if includes "135deg" direction then (width, height, 0, 0)
  else if includes "180deg" direction then (width, 0, 0, 0)
  else if includes "225deg" direction then (width, 0, 0, height)
  else if includes "270deg" direction then (0, 0, 0, height)
  else if includes "315deg" direction then (0, 0, width, height)
  else (0, 0, width, height).

(** The colour stops added by the [forEach]. *)
Definition colorStops (cs : list string) : list (R * string) :=
  imap (fun index color =>
          (if (length cs =? 1)%nat then 0 else INR index / (INR (length cs) - 1),
           color)) cs.

(** [drawCSSBackground] as the canvas operations it performs. *)
Definition drawCSSBackground (background : Background) (width height : R) : list DrawOp :=
  match bg_type background with
  | solid => [FillSolid (bg_value background)]
  | gradient =>
      match matchGradient (show (bg_value background)) with
      | Some group =>
          let params := map trim (splitComma group) in
          let direction := show (head params) in
          let cs := tail params in
          let '(x0, y0, x1, y1) := gradientLine direction width height in
          [FillGradient x0 y0 x1 y1 (colorStops cs)]
      | None => []
      end
  end.

(** [selectRandomFile], with the random number it draws. *)
Definition selectRandomFile (r : R) (files : list string) : option string :=
  at_index files (floorTimes r (length files)).

(** *** Tokens

    A clean token is non-empty and free of commas, parentheses and white
    space: the shape of the directions and colours spliced into a
    gradient. *)

Fixpoint allChars (P : ascii -> bool) (s : string) : bool :=
  match s with
  | EmptyString => true
  | String c s' => P c && allChars P s'
  end.

Definition tokenChar (c : ascii) : bool :=
  negb (Ascii.eqb c ",") && negb (Ascii.eqb c ")") && negb (Ascii.eqb c "(")
  && negb (isSpace c).

Definition cleanToken (s : string) : bool :=
  match s with
  | EmptyString => false
  | String _ _ => allChars tokenChar s
  end.

(** *** Composing the layers *)

(** The layers in z-index order. *)
Definition layers : list string :=
  ["backgrounds"; "z0"; "z1"; "z2"; "z3"; "z4"; "z5"]%string.

(** The [layerProbabilities] state: the optional layers only. *)
Record LayerProbabilities : Type := mkLayerProbabilities {
  p_backgrounds : R;
  p_z1 : R;
  p_z3 : R;
  p_z4 : R
}.

Definition initialProbabilities : LayerProbabilities :=
  mkLayerProbabilities 0.8 0.6 0.7 0.5.

(** [layerProbabilities[layerName]] *)
Definition lookupProbability (lp : LayerProbabilities) (layerName : string) : option R :=
  if String.eqb layerName "backgrounds" then Some (p_backgrounds lp)
  else if String.eqb layerName "z1" then Some (p_z1 lp)
  else if String.eqb layerName "z3" then Some (p_z3 lp)
  else if String.eqb layerName "z4" then Some (p_z4 lp)
  else None.

Definition mandatory (layerName : string) : bool :=
  String.eqb layerName "z0" || String.eqb layerName "z2" || String.eqb layerName "z5".

(** The state of the [App] component.  [generatedImage] is the data URL of
    the canvas, kept as the operations that painted it; [canvas] tells
    whether [canvasRef.current] and its 2d context are there. *)
Record State : Type := mkState {
  generatedImage : option (list DrawOp);
  isGenerating : bool;
  isLoadingAssets : bool;
  availableFiles : gmap string (list string);
  layerProbabilities : LayerProbabilities;
  canvas : bool
}.

(** [availableFiles[layerName] || []] *)
Definition filesOf (st : State) (layerName : string) : list string :=
  match availableFiles st !! layerName with Some files => files | None => [] end.

Definition pathOf (layerName file : string) : string :=
  "/pfp/" +:+ layerName +:+ "/" +:+ file.

(** Loading the selected image and drawing it; a failed load is caught and
    draws nothing.  [loads] tells which image paths load. *)
Definition drawFile (loads : string -> bool) (layerName : string)
    (selectedFile : option string) : list DrawOp :=
  let imagePath := pathOf layerName (show selectedFile) in
  if loads imagePath then [DrawImage imagePath] else [].

(** [Math.random() <= probability] *)
Definition includedBy (r : R) (probability : option R) : bool :=
  match probability with Some p => JS.leb r p | None => false end.

(** One iteration of the loop over the layers, starting at draw [k]: what
    it paints and the number of the next draw. *)
Definition composeLayer (rnd : nat -> R) (loads : string -> bool) (st : State)
    (width height : R) (k : nat) (layerName : string) : list DrawOp * nat :=
  let probability :=
    if mandatory layerName then Some 1.0
    else lookupProbability (layerProbabilities st) layerName in
  if includedBy (rnd k) probability then
    if String.eqb layerName "backgrounds" then
      let layerFiles := filesOf st layerName in
      let totalOptions := (length layerFiles + 5)%nat in
      let choice := floorTimes (rnd (k + 1)%nat) totalOptions in
      if (choice <? Z.of_nat (length layerFiles))%Z && (0 <? length layerFiles)%nat then
        (drawFile loads layerName (selectRandomFile (rnd (k + 2)%nat) layerFiles),
         (k + 3)%nat)
      else
        let '(cssBackground, k') := generateCSSBackground rnd (k + 2) in
        (drawCSSBackground cssBackground width height, k')
    else
      let layerFiles := filesOf st layerName in
      if (length layerFiles =? 0)%nat then ([], (k + 1)%nat)
      else
        (drawFile loads layerName (selectRandomFile (rnd (k + 1)%nat) layerFiles),
         (k + 2)%nat)
  else ([], (k + 1)%nat).

(** The loop over the layers: what each layer paints, in order. *)
Fixpoint composeLayers (rnd : nat -> R) (loads : string -> bool) (st : State)
    (width height : R) (k : nat) (ls : list string) : list (list DrawOp) :=
  match ls with
  | [] => []
  | layerName :: ls' =>
      let '(ops, k') := composeLayer rnd loads st width height k layerName in
      ops :: composeLayers rnd loads st width height k' ls'
  end.

(** [generatePFP], from the click to the last state update. *)
Definition generatePFP (rnd : nat -> R) (loads : string -> bool) (st : State) : State :=
  if isLoadingAssets st then st
  else if negb (canvas st) then
    mkState (generatedImage st) true (isLoadingAssets st) (availableFiles st)
      (layerProbabilities st) (canvas st)
  else
    mkState (Some (concat (composeLayers rnd loads st 800 800 0 layers)))
      false (isLoadingAssets st) (availableFiles st) (layerProbabilities st)
      (canvas st).

(** An operation a layer may paint: one of its discovered files, or, for
    the background, a fill. *)
Definition paintedBy (st : State) (layerName : string) (op : DrawOp) : Prop :=
  match op with
  | DrawImage path => exists file, file ∈ filesOf st layerName /\ path = pathOf layerName file
  | _ => layerName = "backgrounds"%string
  end.

(** *** Asset discovery

    [probe url] is the answer of [checkImageExists(url)]: whether the image
    loads within the timeout.  One discovery is taken to get the same answer
    each time it probes the same address. *)

(** The keys and names of [LAYER_CONFIG], in insertion order. *)
Definition LAYER_CONFIG : list (string * string) :=
  [("backgrounds", "Backgrounds"); ("z0", "Base Cat"); ("z1", "Hands");
   ("z2", "Paws"); ("z3", "Eyes"); ("z4", "Head Accessories");
   ("z5", "Whiskers")]%string.

(** [LAYER_CONFIG[layerName]] for the keys the object defines itself. *)
Fixpoint configOf (config : list (string * string)) (layerName : string) : option string :=
  match config with
  | [] => None
  | (key, name) :: config' =>
      if String.eqb key layerName then Some name else configOf config' layerName
  end.

(** [i.toString()] *)
Definition toString (i : nat) : string := NilEmpty.string_of_uint (Nat.to_uint i).

(** [s.padStart(3, '0')] *)
Definition padStart3 (s : string) : string :=
  match String.length s with
  | 0%nat => "000" +:+ s
  | 1%nat => "00" +:+ s
  | 2%nat => "0" +:+ s
  | _ => s
  end.

Definition isDigit (c : ascii) : bool :=
  let n := nat_of_ascii c in ((48 <=? n) && (n <=? 57))%nat.

(** The whole of [s] is an underscore, three digits and [.png]. *)
Definition isNumberedTail (s : string) : bool :=
  match s with
  | String u (String a (String b (String c rest))) =>
      Ascii.eqb u "_" && isDigit a && isDigit b && isDigit c && String.eqb rest ".png"
  | _ => false
  end.

(** [filename.replace(/_\d{3}\.png$/, '_')] when the expression matches,
    [None] when it does not. *)
Fixpoint numberedBase (s : string) : option string :=
  if isNumberedTail s then Some "_"%string
  else match s with
       | EmptyString => None
       | String c s' =>
           match numberedBase s' with
           | Some base => Some (String c base)
           | None => None
           end
       end.

(** The file names tried for a layer, in order. *)
Definition patterns (layerName : string) : list string :=
  [layerName +:+ "_000.png"; layerName +:+ "_001.png"; layerName +:+ "_002.png";
   layerName +:+ "_hand_000.png"; layerName +:+ "_eye_000.png";
   layerName +:+ "_head_000.png"; layerName +:+ "_paw.png";
   layerName +:+ "_whiskers.png"; layerName +:+ "_lolcat.png";
   layerName +:+ ".png"].

(** The inner loop over a numbered series: a name already found is passed
    over, the first name that does not exist ends the loop. *)
Fixpoint seriesFrom (probe : string -> bool) (layerName basePattern : string)
    (numbers : list nat) (discoveredFiles : list string) : list string :=
  match numbers with
  | [] => discoveredFiles
  | i :: numbers' =>
      let numberedFilename := basePattern +:+ padStart3 (toString i) +:+ ".png" in
      if arrayIncludes discoveredFiles numberedFilename then
        seriesFrom probe layerName basePattern numbers' discoveredFiles
      else if probe (pathOf layerName numberedFilename) then
        seriesFrom probe layerName basePattern numbers'
          (discoveredFiles ++ [numberedFilename])
      else discoveredFiles
  end.

(** One iteration of the loop over the patterns. *)
Definition tryPattern (probe : string -> bool) (layerName : string)
    (discoveredFiles : list string) (filename : string) : list string :=
  if probe (pathOf layerName filename) && negb (arrayIncludes discoveredFiles filename)
  then
    let found := discoveredFiles ++ [filename] in
    if includes "_" filename then
      match numberedBase filename with
      | Some basePattern => seriesFrom probe layerName basePattern (seq 1 49) found
      | None => found
      end
    else found
  else discoveredFiles.

Definition tryNamingPatterns (probe : string -> bool) (layerName : string) : list string :=
  foldl (tryPattern probe layerName) [] (patterns layerName).

(** The numbered files of the comprehensive search: a gap ends the loop
    once something has been found. *)
Fixpoint numberedScan (probe : string -> bool) (layerName prefix : string)
    (numbers : list nat) (discoveredFiles : list string) : list string :=
  match numbers with
  | [] => discoveredFiles
  | i :: numbers' =>
      let filename := prefix +:+ "_" +:+ padStart3 (toString i) +:+ ".png" in
      if probe (pathOf layerName filename) then
        numberedScan probe layerName prefix numbers' (discoveredFiles ++ [filename])
      else if (0 <? length discoveredFiles)%nat then discoveredFiles
      else numberedScan probe layerName prefix numbers' discoveredFiles
  end.

Definition discoverLayerFiles (probe : string -> bool) (layerName : string) : list string :=
  match configOf LAYER_CONFIG layerName with
  | None => []
  | Some _ =>
      let discoveredFiles := tryNamingPatterns probe layerName in
      if (length discoveredFiles =? 0)%nat then
        let prefix :=
          if String.eqb layerName "backgrounds" then "background"%string else layerName in
        let scanned := numberedScan probe layerName prefix (seq 0 20) discoveredFiles in
        let singleFilename := prefix +:+ ".png" in
        if probe (pathOf layerName singleFilename)
           && negb (arrayIncludes scanned singleFilename)
        then scanned ++ [singleFilename]
        else scanned
      else discoveredFiles
  end.

(** [discoverAllFiles], from the mount to its last state update. *)
Definition discoverAllFiles (probe : string -> bool) (st : State) : State :=
  mkState (generatedImage st) (isGenerating st) false
    (foldl (fun discovered layer => <[layer := discoverLayerFiles probe layer]> discovered)
       ∅ (map fst LAYER_CONFIG))
    (layerProbabilities st) (canvas st).

(** The state of [App] at mount. *)
Definition initialState : State :=
  mkState None false true ∅ initialProbabilities true.

(** Every listed file answered its probe, and none is listed twice. *)
Definition sound (probe : string -> bool) (layerName : string) (files : list string) : Prop :=
  NoDup files /\ forall f, f ∈ files -> probe (pathOf layerName f) = true.

End App.

(** ** The random source *)

(** [Math.random()] returns a number in [[0, 1)]. *)
Definition unitRandom (rnd : nat -> R) : Prop := forall k, 0 <= rnd k < 1.

(** * Properties *)

(** ** Comparisons and remainders *)

Section JSFacts.

Lemma ltb_true (a b : R) : JS.ltb a b = true <-> a < b.
Proof. unfold JS.ltb. destruct (Rlt_dec a b); split; intros; try easy. Qed.

Lemma ltb_false (a b : R) : JS.ltb a b = false <-> b <= a.
Proof.
  unfold JS.ltb. destruct (Rlt_dec a b); split; intros; try easy; lra.
Qed.

Lemma leb_true (a b : R) : JS.leb a b = true <-> a <= b.
Proof. unfold JS.leb. destruct (Rle_dec a b); split; intros; try easy. Qed.

Lemma leb_false (a b : R) : JS.leb a b = false <-> b < a.
Proof.
  unfold JS.leb. destruct (Rle_dec a b); split; intros; try easy; lra.
Qed.

Lemma gtb_true (a b : R) : JS.gtb a b = true <-> b < a.
Proof. apply ltb_true. Qed.

Lemma gtb_false (a b : R) : JS.gtb a b = false <-> a <= b.
Proof. apply ltb_false. Qed.

Lemma geb_true (a b : R) : JS.geb a b = true <-> b <= a.
Proof. apply leb_true. Qed.

Lemma geb_false (a b : R) : JS.geb a b = false <-> a < b.
Proof. apply leb_false. Qed.

(** The truncated quotient is within one of the exact quotient, on the
    side of zero. *)
Lemma trunc_nonneg (q : R) :
  0 <= q -> IZR (JS.trunc q) <= q < IZR (JS.trunc q) + 1.
Proof.
  intros Hq. unfold JS.trunc. destruct (Rlt_dec q 0); [lra|].
  apply Zfloor_bound.
Qed.

Lemma trunc_neg (q : R) :
  q < 0 -> IZR (JS.trunc q) - 1 < q <= IZR (JS.trunc q).
Proof.
  intros Hq. unfold JS.trunc. destruct (Rlt_dec q 0); [|lra].
  apply Zceil_bound.
Qed.

Variable b : R.
Hypothesis b_pos : 0 < b.

Lemma quotient_mult (a : R) : a = b * (a / b).
Proof. field. lra. Qed.

(** A non-negative dividend leaves a remainder in [[0, b)]. *)
Lemma rem_nonneg (a : R) : 0 <= a -> 0 <= JS.rem a b < b.
Proof.
  intros Ha. unfold JS.rem.
  assert (Hq : 0 <= a / b).
  { unfold Rdiv. apply Rmult_le_pos; [lra|].
    left. apply Rinv_0_lt_compat. lra. }
  destruct (trunc_nonneg _ Hq) as [H1 H2].
  pose proof (quotient_mult a) as E.
  set (q := a / b) in *. set (k := IZR (JS.trunc q)) in *.
  split; nra.
Qed.

(** Any dividend leaves a remainder strictly between [-b] and [b]. *)
Lemma rem_bound (a : R) : - b < JS.rem a b < b.
Proof.
  destruct (Rle_dec 0 a) as [Ha|Ha].
  - pose proof (rem_nonneg a Ha). lra.
  - unfold JS.rem.
    assert (Hq : a / b < 0).
    { pose proof (quotient_mult a) as E. set (q := a / b) in *.
      destruct (Rlt_dec q 0); [assumption|]. exfalso. nra. }
    destruct (trunc_neg _ Hq) as [H1 H2].
    pose proof (quotient_mult a) as E.
    set (q := a / b) in *. set (k := IZR (JS.trunc q)) in *.
    split; nra.
Qed.

Lemma fmod_range (a : R) : 0 <= JS.fmod a b < b.
Proof.
  unfold JS.fmod. apply rem_nonneg. pose proof (rem_bound a). lra.
Qed.

Lemma fmod_congruent (a : R) : exists k : Z, JS.fmod a b = a + b * IZR k.
Proof.
  unfold JS.fmod, JS.rem.
  set (k1 := JS.trunc (a / b)).
  set (k2 := JS.trunc (_ / b)).
  exists (1 - k1 - k2)%Z. rewrite !minus_IZR. lra.
Qed.

(** [fmod] is the floored remainder. *)
Lemma fmod_floorMod (a : R) : JS.fmod a b = JS.floorMod a b.
Proof.
  destruct (fmod_congruent a) as [k Hk].
  pose proof (fmod_range a) as Hr. rewrite Hk in *.
  unfold JS.floorMod.
  assert (E : Zfloor (a / b) = (- k)%Z).
  { apply Zfloor_eq. rewrite opp_IZR.
    pose proof (quotient_mult a) as Eq. set (q := a / b) in *.
    split; nra. }
  rewrite E, opp_IZR. lra.
Qed.

End JSFacts.

(** ** The card: spin normalisation *)

Section Spin.
Import PFPCard.

Lemma two_pi_pos : 0 < PI * 2.
Proof. pose proof PI_RGT_0. lra. Qed.

Lemma normalizeRotation_range (s : R) : - PI < normalizeRotation s <= PI.
Proof.
  unfold normalizeRotation.
  pose proof (fmod_range (PI * 2) two_pi_pos (s + PI * 2)) as Hr.
  unfold JS.fmod in Hr.
  set (n := JS.rem _ (PI * 2)) in *.
  destruct (JS.gtb n PI) eqn:E.
  - apply gtb_true in E. lra.
  - apply gtb_false in E. pose proof PI_RGT_0. lra.
Qed.

Lemma normalizeRotation_congruent (s : R) :
  exists k : Z, normalizeRotation s = s + PI * 2 * IZR k.
Proof.
  unfold normalizeRotation.
  destruct (fmod_congruent (PI * 2) (s + PI * 2)) as [k Hk].
  unfold JS.fmod in Hk. rewrite Hk.
  destruct (JS.gtb _ PI).
  - exists k. lra.
  - exists (k + 1)%Z. rewrite plus_IZR. lra.
Qed.

Lemma normalizeRotation_floorMod (s : R) :
  normalizeRotation s =
    let n := JS.floorMod (s + PI * 2) (PI * 2) in
    if Rlt_dec PI n then n - PI * 2 else n.
Proof.
  unfold normalizeRotation. cbv zeta.
  rewrite <- (fmod_floorMod (PI * 2) two_pi_pos). unfold JS.fmod, JS.gtb, JS.ltb.
  destruct (Rlt_dec PI _); reflexivity.
Qed.

Lemma spinBlock_completes (c : Card) (m : Transform) (elapsed delta : R) :
  mesh c = Some m -> isSpinning c = true ->
  1 <= spinProgress c + delta * spinSpeed ->
  s_baseRotation (spinBlock elapsed delta c) = normalizeRotation (spinStartRotation c)
  /\ s_isSpinning (spinBlock elapsed delta c) = false
  /\ s_spinProgress (spinBlock elapsed delta c) = 0.
Proof.
  intros Hm Hs Hp. unfold spinBlock. rewrite Hm, Hs.
  assert (E : JS.geb (Rmin (spinProgress c + delta * spinSpeed) 1.0) 1.0 = true).
  { apply geb_true. rewrite Rmin_right; lra. }
  rewrite E. cbn. auto.
Qed.

(** C4. When a spin completes, [baseRotation] becomes
    [(spinStartRotation + 2 pi) mod 2 pi] mapped into [(-pi, pi]]: it lies
    in that interval and differs from [spinStartRotation] by a multiple of
    [2 pi]; the card stops spinning. *)
Theorem spin_completion_normalizes (c : Card) (m : Transform) (elapsed delta : R) :
  mesh c = Some m -> isSpinning c = true ->
  1 <= spinProgress c + delta * spinSpeed ->
  let c' := useFrame elapsed delta c in
  let n := JS.floorMod (spinStartRotation c + PI * 2) (PI * 2) in
  baseRotation c' = (if Rlt_dec PI n then n - PI * 2 else n)
  /\ - PI < baseRotation c' <= PI
  /\ (exists k : Z, baseRotation c' = spinStartRotation c + PI * 2 * IZR k)
  /\ isSpinning c' = false.
Proof.
  intros Hm Hs Hp c' n.
  destruct (spinBlock_completes c m elapsed delta Hm Hs Hp) as (Hb & Hi & _).
  assert (Eb : baseRotation c' = normalizeRotation (spinStartRotation c))
    by (unfold c', useFrame; cbn; exact Hb).
  assert (Ei : isSpinning c' = false) by (unfold c', useFrame; cbn; exact Hi).
  rewrite Eb. repeat split.
  - apply normalizeRotation_floorMod.
  - apply normalizeRotation_range.
  - apply normalizeRotation_range.
  - apply normalizeRotation_congruent.
  - exact Ei.
Qed.

Lemma spin_completion_normalizes_witness :
  let c := spinningCard 1%nat 2%nat 0.9 in
  let c' := useFrame 0 0.1 c in
  - PI < baseRotation c' <= PI /\ isSpinning c' = false.
Proof.
  intros c c'.
  destruct (spin_completion_normalizes c (mkTransform 0 0 0) 0 0.1)
    as (_ & H & _ & Hs).
  - reflexivity.
  - reflexivity.
  - unfold c, spinningCard, spinSpeed. cbn. lra.
  - split; assumption.
Defined.

End Spin.

(** ** The card: texture crossfade *)

Section Crossfade.
Import PFPCard.

Lemma crossfadeProgress_range (p : R) : 0 <= crossfadeProgress p <= 1.
Proof.
  unfold crossfadeProgress. split.
  - apply Rmax_l.
  - apply Rmax_lub; [lra|].
    pose proof (Rmin_r ((p - crossfadeStart) / (1.0 - crossfadeStart)) 1.0). lra.
Qed.

(** The final [else] of the transition block is dead: whenever the outer
    guard holds and the card is not spinning, the [else if] before it is
    taken. *)
Lemma time_coupled_branch_unreachable (c : Card) : branchOf c <> TimeCoupled.
Proof.
  unfold branchOf.
  destruct (isTransitioning c), (nextTexture c), (currentOpacity c),
    (nextOpacity c), (isSpinning c); cbn; discriminate.
Qed.

(** A pending transition on a card that is not spinning is finalised by
    the very next frame, whatever its [delta]; the progress ref is not
    advanced and the transition block writes no opacity. *)
Lemma idle_transition_finalised_by_first_frame (c : Card) (b : Texture) (o1 o2 : R)
    (elapsed delta : R) :
  isTransitioning c = true -> nextTexture c = Some b -> isSpinning c = false ->
  currentOpacity c = Some o1 -> nextOpacity c = Some o2 ->
  let c' := useFrame elapsed delta c in
  currentTexture c' = Some b /\ nextTexture c' = None
  /\ isTransitioning c' = false
  /\ transitionProgress c' = transitionProgress c
  /\ currentOpacity c' = Some o1 /\ nextOpacity c' = Some o2.
Proof.
  intros Ht Hn Hs H1 H2. unfold useFrame, idleOpacityBlock, transitionBlock, branchOf.
  rewrite Ht, Hn, Hs, H1, H2. cbn. repeat split.
Qed.

(** The same finalisation by the effect on [isSpinning], [isTransitioning]
    and [nextTexture], should it run before the next frame. *)
Lemma idle_transition_finalised_by_effect (c : Card) (b : Texture) :
  isTransitioning c = true -> nextTexture c = Some b -> isSpinning c = false ->
  currentTexture (onSpinCompletion c) = Some b
  /\ nextTexture (onSpinCompletion c) = None
  /\ isTransitioning (onSpinCompletion c) = false.
Proof.
  intros Ht Hn Hs. unfold onSpinCompletion. rewrite Ht, Hn, Hs. cbn. auto.
Qed.

(** C1. Texture 2 arrives while texture 1 is current and the card is not
    spinning.  The first frame, 0.1 s later, takes the [else if] branch:
    texture 2 is already current, the progress is still 0 instead of 0.2,
    and the time-coupled branch has not run. *)
Theorem idle_crossfade_skips_time_coupling :
  let c := render (onTextureLoaded (Some 1%nat) 2%nat (stableCard 1%nat)) in
  let c' := useFrame 0 0.1 c in
  isTransitioning c = true /\ isSpinning c = false
  /\ currentTexture c = Some 1%nat /\ nextTexture c = Some 2%nat
  /\ branchOf c = Immediate
  /\ currentTexture c' = Some 2%nat /\ nextTexture c' = None
  /\ isTransitioning c' = false
  /\ transitionProgress c' = 0
  /\ transitionProgress c' <> 0 + 0.1 * transitionSpeed.
Proof.
  cbn. repeat split. unfold transitionSpeed. lra.
Qed.

(** What a frame in spin-coupled mode writes: [1 - p] and [p], with [p]
    the clamped progress read from [spinProgress] as the rotation block
    left it. *)
Lemma spin_coupled_frame_opacities (c : Card) (b : Texture) (o1 o2 : R)
    (elapsed delta : R) :
  isTransitioning c = true -> nextTexture c = Some b -> isSpinning c = true ->
  currentOpacity c = Some o1 -> nextOpacity c = Some o2 ->
  let c' := useFrame elapsed delta c in
  let p := crossfadeProgress (s_spinProgress (spinBlock elapsed delta c)) in
  currentOpacity c' = Some (1 - p) /\ nextOpacity c' = Some p
  /\ opacitySum c' = Some 1.
Proof.
  intros Ht Hn Hs H1 H2 c' p.
  assert (E1 : currentOpacity c' = Some (1 - p)).
  { unfold c', useFrame, idleOpacityBlock, transitionBlock, branchOf.
    rewrite Ht, Hn, Hs, H1, H2. cbn. f_equal. fold p. lra. }
  assert (E2 : nextOpacity c' = Some p).
  { unfold c', useFrame, idleOpacityBlock, transitionBlock, branchOf.
    rewrite Ht, Hn, Hs, H1, H2. reflexivity. }
  split; [exact E1|]. split; [exact E2|].
  unfold opacitySum. rewrite E1, E2. f_equal. lra.
Qed.

(** C5. The crossfade keeps the two opacities summing to 1 only while the
    card spins.  Texture 2 arrives while texture 1 is shown and the card is
    at rest; the next mesh is mounted with its fresh, fully opaque
    material.  The frame that follows, whatever its clock and [delta],
    takes the [else if] branch and skips the idle block, so it writes
    neither opacity: both materials stay at 1 and the sum is 2.  Had a spin
    been started on that very card, the frame would have written [1 - p]
    and [p]. *)
Theorem idle_transition_frame_breaks_crossfade (elapsed delta : R) :
  let c := render (onTextureLoaded (Some 1%nat) 2%nat (stableCard 1%nat)) in
  let c' := useFrame elapsed delta c in
  let spun := useFrame elapsed delta (onGenerating true c) in
  (isTransitioning c = true /\ nextTexture c = Some 2%nat /\ isSpinning c = false
   /\ branchOf c = Immediate)
  /\ (currentOpacity c = Some 1 /\ nextOpacity c = Some 1)
  /\ (currentOpacity c' = Some 1 /\ nextOpacity c' = Some 1)
  /\ opacitySum c' = Some (1 + 1)
  /\ opacitySum c' <> Some 1
  /\ exists p, 0 <= p <= 1
       /\ currentOpacity spun = Some (1 - p) /\ nextOpacity spun = Some p
       /\ opacitySum spun = Some 1.
Proof.
  intros c c' spun.
  split; [repeat split|]. split; [split; reflexivity|].
  split; [split; reflexivity|]. split; [reflexivity|].
  split.
  - change (opacitySum c') with (Some (1 + 1)). intros [= H]. lra.
  - exists (crossfadeProgress
              (s_spinProgress (spinBlock elapsed delta (onGenerating true c)))).
    split; [apply crossfadeProgress_range|].
    apply (spin_coupled_frame_opacities (onGenerating true c) 2%nat 1 1 elapsed delta);
      reflexivity.
Qed.

End Crossfade.

(** ** Coordinate buffers *)

Section Buffers.

Lemma writeVec_length (buf : list R) (i : nat) (v : Vec3) :
  length (writeVec buf i v) = length buf.
Proof. unfold writeVec. rewrite !length_insert. reflexivity. Qed.

Lemma readVec_writeVec_same (buf : list R) (i : nat) (v : Vec3) :
  (i * 3 + 2 < length buf)%nat -> readVec (writeVec buf i v) i = v.
Proof.
  intros Hi. unfold readVec, writeVec. destruct v as [a b c]. cbn [x y z].
  f_equal.
  - rewrite !list_lookup_total_insert_ne by lia.
    apply list_lookup_total_insert_eq. lia.
  - rewrite list_lookup_total_insert_ne by lia.
    apply list_lookup_total_insert_eq. rewrite length_insert. lia.
  - apply list_lookup_total_insert_eq. rewrite !length_insert. lia.
Qed.

Lemma readVec_writeVec_other (buf : list R) (i j : nat) (v : Vec3) :
  i <> j -> readVec (writeVec buf j v) i = readVec buf i.
Proof.
  intros Hij. unfold readVec, writeVec.
  rewrite !list_lookup_total_insert_ne by lia. reflexivity.
Qed.

End Buffers.

(** ** The swarm: forcefield displacement *)

Section Displacement.
Import FloatingParticles.

Lemma noise_term_range (a : R) : 0 <= sin a * 0.5 + 0.5 <= 1.
Proof. pose proof (SIN_bound a). lra. Qed.

Lemma randomFactor_range (o d : Vec3) (t : R) :
  0.3 <= randomFactorOf o d t <= 1.
Proof.
  unfold randomFactorOf. cbv zeta.
  pose proof (noise_term_range
    (x o * 8.314 + y o * 5.926 + z o * 7.847 + t * 0.3 * 0.7)).
  pose proof (noise_term_range (t * 0.3 * 1.2 + x o * 3.141 + y o * 2.718)).
  pose proof (noise_term_range
    (x o * 23.456 + y o * 17.321 + z o * 11.789 + t * 0.3 * 2.1)).
  pose proof (noise_term_range (JS.atan2 (y d) (x d) * 4.0 + t * 0.3 * 0.8)).
  lra.
Qed.

Lemma force_range (dist radius : R) :
  0 < dist -> dist < radius -> 0 <= forceOf dist radius <= 1.
Proof.
  intros Hd Hr. unfold forceOf.
  assert (H : 0 < dist / radius < 1).
  { split.
    - apply Rdiv_lt_0_compat; lra.
    - apply Rmult_lt_reg_r with radius; [lra|].
      unfold Rdiv. rewrite Rmult_assoc, Rinv_l by lra. lra. }
  nra.
Qed.

Lemma sum_squares_nonneg (a b c : R) : 0 <= a * a + b * b + c * c.
Proof. nra. Qed.

Lemma vlength_nonneg (d : Vec3) : 0 <= vlength d.
Proof. apply sqrt_pos. Qed.

Lemma vlength_scaled (d : Vec3) (k : R) :
  0 <= k -> vlength (mkVec3 (x d * k) (y d * k) (z d * k)) = vlength d * k.
Proof.
  intros Hk. unfold vlength. cbn [x y z].
  replace (x d * k * (x d * k) + y d * k * (y d * k) + z d * k * (z d * k))
    with ((x d * x d + y d * y d + z d * z d) * (k * k)) by ring.
  rewrite sqrt_mult.
  - rewrite (sqrt_square k Hk). reflexivity.
  - apply sum_squares_nonneg.
  - nra.
Qed.

Lemma vlength_zero : vlength (mkVec3 0 0 0) = 0.
Proof.
  unfold vlength. cbn [x y z].
  replace (0 * 0 + 0 * 0 + 0 * 0) with 0 by ring. apply sqrt_0.
Qed.

(** Outside the radius, or at the division guard, the seed is the base
    position itself. *)
Lemma respawnPosition_out_of_range (o mouse : Vec3) (radius strength t : R) :
  radius <= vlength (vsub o mouse) \/ vlength (vsub o mouse) <= 1e-6 ->
  respawnPosition o mouse radius strength t = o.
Proof.
  intros H. unfold respawnPosition. cbv zeta.
  destruct (JS.ltb (vlength (vsub o mouse)) radius) eqn:E1;
    [|reflexivity].
  destruct (JS.gtb (vlength (vsub o mouse)) 1e-6) eqn:E2;
    [|reflexivity].
  apply ltb_true in E1. apply gtb_true in E2. lra.
Qed.

(** C6. The seed written at a respawn is at most [strength] away from the
    base position.  Inside the radius the force lies in [[0, 1]] and the
    random factor, a weighted sum of four noise terms in [[0, 1]], lies
    in [[0.3, 1]]. *)
Theorem respawn_displacement_bounded (o mouse : Vec3) (radius strength t : R) :
  0 <= strength ->
  let d := vsub o mouse in
  vlength (vsub (respawnPosition o mouse radius strength t) o) <= strength
  /\ (1e-6 < vlength d < radius -> 0 <= forceOf (vlength d) radius <= 1)
  /\ 0.3 <= randomFactorOf o d t <= 1.
Proof.
  intros Hs d. split; [|split].
  - unfold respawnPosition. cbv zeta. fold d.
    destruct (JS.ltb (vlength d) radius) eqn:E1; cbn [andb].
    + destruct (JS.gtb (vlength d) 1e-6) eqn:E2.
      * apply ltb_true in E1. apply gtb_true in E2.
        pose proof (force_range (vlength d) radius ltac:(lra) E1) as Hf.
        pose proof (randomFactor_range o d t) as Hrf.
        set (f := forceOf (vlength d) radius) in *.
        set (rf := randomFactorOf o d t) in *.
        set (k := 1.0 / vlength d * (strength * f * rf)).
        assert (Hfr : 0 <= f * rf <= 1) by nra.
        assert (Hdisp : 0 <= strength * f * rf <= strength).
        { rewrite Rmult_assoc. split; [apply Rmult_le_pos; lra|].
          rewrite <- (Rmult_1_r strength) at 2.
          apply Rmult_le_compat_l; lra. }
        assert (Hk : 0 <= k).
        { unfold k. apply Rmult_le_pos; [|lra].
          apply Rlt_le. apply Rdiv_lt_0_compat; lra. }
        replace (vsub _ o) with (mkVec3 (x d * k) (y d * k) (z d * k)).
        2:{ unfold vsub, k. cbn [x y z]. f_equal; ring. }
        rewrite vlength_scaled by assumption.
        replace (vlength d * k) with (strength * f * rf).
        2:{ unfold k. replace 1.0 with 1 by lra. unfold Rdiv.
            rewrite Rmult_1_l, <- Rmult_assoc, Rinv_r by lra. ring. }
        lra.
      * replace (vsub o o) with (mkVec3 0 0 0)
          by (unfold vsub; f_equal; ring).
        rewrite vlength_zero. assumption.
    + replace (vsub o o) with (mkVec3 0 0 0)
        by (unfold vsub; f_equal; ring).
      rewrite vlength_zero. assumption.
  - intros [H1 H2]. apply force_range; lra.
  - apply randomFactor_range.
Qed.

Lemma respawn_displacement_bounded_witness :
  let o := mkVec3 0.5 0 0 in
  let mouse := mkVec3 0 0 0 in
  vlength (vsub (respawnPosition o mouse 0.8 0.4 1) o) <= 0.4.
Proof.
  intros o mouse.
  destruct (respawn_displacement_bounded o mouse 0.8 0.4 1) as (H & _).
  - lra.
  - exact H.
Defined.

(** *** The respawn loop over the position buffer *)

Variables (globalTime delta : R) (mouse : Vec3) (radius strength : R).
Variable pd : ParticleData.

Let loopStep := respawnStep globalTime delta mouse radius strength pd.
Let seed (i : nat) : Vec3 :=
  respawnPosition (readVec (originalPositions pd) i) mouse radius strength globalTime.

Lemma respawnStep_length (pos : list R) (i : nat) :
  length (loopStep pos i) = length pos.
Proof.
  unfold loopStep, respawnStep. destruct (JS.ltb _ delta); [|reflexivity].
  apply writeVec_length.
Qed.

Lemma respawnPrefix_length (pos : list R) (n : nat) :
  length (foldl loopStep pos (seq 0 n)) = length pos.
Proof.
  induction n as [|n IH]; [reflexivity|].
  rewrite seq_S, foldl_snoc, respawnStep_length. exact IH.
Qed.

(** After the first [n] iterations, particle [i] holds its seed if it is
    among them and respawns, and its previous position otherwise. *)
Lemma respawnPrefix_readVec (pos : list R) (n i : nat) :
  (3 * n <= length pos)%nat ->
  readVec (foldl loopStep pos (seq 0 n)) i =
    if (i <? n)%nat && JS.ltb (age globalTime (lifetimes pd) i) delta
    then seed i else readVec pos i.
Proof.
  induction n as [|n IH]; intros Hn; [reflexivity|].
  rewrite seq_S, foldl_snoc. cbn [Nat.add].
  unfold loopStep at 1, respawnStep.
  destruct (Nat.eq_dec i n) as [->|Hne].
  - replace (n <? S n)%nat with true by (symmetry; apply Nat.ltb_lt; lia).
    cbn [andb].
    destruct (JS.ltb (age globalTime (lifetimes pd) n) delta).
    + apply readVec_writeVec_same. rewrite respawnPrefix_length. lia.
    + rewrite IH by lia.
      replace (n <? n)%nat with false by (symmetry; apply Nat.ltb_ge; lia).
      reflexivity.
  - assert (E : (i <? S n)%nat = (i <? n)%nat).
    { destruct (Nat.ltb_spec i n), (Nat.ltb_spec i (S n)); try reflexivity; lia. }
    rewrite E.
    destruct (JS.ltb (age globalTime (lifetimes pd) n) delta).
    + rewrite readVec_writeVec_other by assumption. apply IH. lia.
    + apply IH. lia.
Qed.

Lemma respawnLoop_length (pos : list R) :
  length (respawnLoop globalTime delta mouse radius strength pd pos) = length pos.
Proof. apply respawnPrefix_length. Qed.

Lemma respawnLoop_respawned (pos : list R) (i : nat) :
  (3 * length (lifetimes pd) <= length pos)%nat ->
  (i < length (lifetimes pd))%nat ->
  age globalTime (lifetimes pd) i < delta ->
  readVec (respawnLoop globalTime delta mouse radius strength pd pos) i = seed i.
Proof.
  intros Hlen Hi Hage. unfold respawnLoop. fold loopStep.
  rewrite respawnPrefix_readVec by assumption.
  replace (i <? length (lifetimes pd))%nat with true
    by (symmetry; apply Nat.ltb_lt; assumption).
  apply ltb_true in Hage. rewrite Hage. reflexivity.
Qed.

End Displacement.

(** ** The swarm: one frame *)

Section SwarmFrame.
Import FloatingParticles.

Lemma fmod_multiple (b : R) (k : Z) : 0 < b -> JS.fmod (b * IZR k) b = 0.
Proof.
  intros Hb. rewrite (fmod_floorMod b Hb). unfold JS.floorMod.
  replace (b * IZR k / b) with (IZR k) by (field; lra).
  rewrite ZfloorZ. ring.
Qed.

Lemma useFrame_burst (inp : FrameInput) (c : Component) (u : Uniforms) :
  material c = Some u ->
  let r := burstFrame (elapsedTime inp - lastTime c) (now inp) (effectConfig inp)
             (burstState c) (timed inp u) in
  burstState (useFrame inp c) = fst r
  /\ material (useFrame inp c) = Some (snd r)
  /\ particleData (useFrame inp c) = particleData c
  /\ lastTime (useFrame inp c) = elapsedTime inp.
Proof.
  intros Hm. unfold useFrame, timed. rewrite Hm. cbv zeta.
  destruct (burstFrame _ _ _ _ _) as [bs u2]. cbn. repeat split.
Qed.

Lemma useFrame_positions (inp : FrameInput) (c : Component) (u : Uniforms)
    (pos : list R) (pd : ParticleData) :
  material c = Some u -> positions c = Some pos -> particleData c = Some pd ->
  positions (useFrame inp c) =
    Some (respawnLoop (elapsedTime inp) (elapsedTime inp - lastTime c)
            (localMouse inp) (radius inp) (strengthBase inp) pd pos).
Proof.
  intros Hm Hp Hd. unfold useFrame. rewrite Hm, Hp, Hd. cbv zeta.
  destruct (burstFrame _ _ _ _ _) as [bs u2]. reflexivity.
Qed.






(** Frames keep the memo and the size of the position buffer. *)
Lemma frames_keep_buffers (inps : list FrameInput) (c : Component)
    (u : Uniforms) (pos : list R) (pd : ParticleData) :
  material c = Some u -> positions c = Some pos -> particleData c = Some pd ->
  exists u' pos',
    material (runFrames inps c) = Some u'
    /\ positions (runFrames inps c) = Some pos'
    /\ length pos' = length pos
    /\ particleData (runFrames inps c) = Some pd.
Proof.
  revert c u pos. induction inps as [|inp inps IH]; intros c u pos Hm Hp Hd.
  - exists u, pos. auto.
  - destruct (useFrame_burst inp c u Hm) as (_ & Hm1 & Hd1 & _).
    pose proof (useFrame_positions inp c u pos pd Hm Hp Hd) as Hp1.
    rewrite Hd in Hd1.
    destruct (IH _ _ _ Hm1 Hp1 Hd1) as (u' & pos' & H1 & H2 & H3 & H4).
    exists u', pos'. cbn [runFrames foldl]. unfold runFrames in *.
    rewrite respawnLoop_length in H3. auto.
Qed.

End SwarmFrame.

(** ** The swarm: respawn writes *)

Section RespawnWrites.
Import FloatingParticles.

(** C7. A particle that respawns while its base position is at least
    [radius] away from the pointer, or closer than the guard [1e-6], gets
    its base position written back unchanged. *)
Theorem respawn_outside_forcefield_is_identity (inp : FrameInput) (c : Component)
    (u : Uniforms) (pos : list R) (pd : ParticleData) (i : nat) :
  material c = Some u -> positions c = Some pos -> particleData c = Some pd ->
  (3 * length (lifetimes pd) <= length pos)%nat ->
  (i < length (lifetimes pd))%nat ->
  age (elapsedTime inp) (lifetimes pd) i < elapsedTime inp - lastTime c ->
  let o := readVec (originalPositions pd) i in
  let dist := vlength (vsub o (localMouse inp)) in
  radius inp <= dist \/ dist < 1e-6 ->
  respawnPosition o (localMouse inp) (radius inp) (strengthBase inp) (elapsedTime inp) = o
  /\ exists pos', positions (useFrame inp c) = Some pos' /\ readVec pos' i = o.
Proof.
  intros Hm Hp Hd Hlen Hi Hage o dist Hout.
  assert (E : respawnPosition o (localMouse inp) (radius inp) (strengthBase inp)
                (elapsedTime inp) = o).
  { apply respawnPosition_out_of_range. fold dist. lra. }
  split; [exact E|].
  eexists. split; [apply (useFrame_positions inp c u pos pd Hm Hp Hd)|].
  rewrite respawnLoop_respawned by assumption. exact E.
Qed.

Lemma oneParticle_age : age 4 [0] 0 = 0.
Proof.
  unfold age, PARTICLE_LIFETIME. cbn [lookup_total list_lookup_total].
  replace (4 - 0) with (4 * IZR 1) by lra. apply fmod_multiple. lra.
Qed.

Lemma oneParticle_dist : vlength (vsub (mkVec3 0 0 0) (mkVec3 1 0 0)) = 1.
Proof.
  unfold vlength, vsub. cbn [x y z].
  replace ((0 - 1) * (0 - 1) + (0 - 0) * (0 - 0) + (0 - 0) * (0 - 0)) with 1 by ring.
  apply sqrt_1.
Qed.

Lemma respawn_outside_forcefield_is_identity_witness :
  exists pos', positions (useFrame (frameAt 0) (oneParticle buyBurst)) = Some pos'
               /\ readVec pos' 0 = mkVec3 0 0 0.
Proof.
  destruct (respawn_outside_forcefield_is_identity (frameAt 0) (oneParticle buyBurst)
              (mkUniforms 3.9 0.0 0.0) [5; 5; 5]
              (mkParticleData [0; 0; 0.3] [0] [0; 0; 0]) 0) as (_ & H).
  - reflexivity.
  - reflexivity.
  - reflexivity.
  - cbn. lia.
  - cbn. lia.
  - cbn [frameAt elapsedTime lifetimes oneParticle lastTime].
    rewrite oneParticle_age. lra.
  - left. cbn [frameAt localMouse radius originalPositions].
    change (readVec [0; 0; 0] 0) with (mkVec3 0 0 0).
    rewrite oneParticle_dist. lra.
  - exact H.
Defined.

(** C9. The seed of a respawning particle is computed from the memoised
    original positions only: after any number of earlier frames, which may
    have displaced the particle, a respawn writes
    [respawnPosition (original base position)], and with the pointer out of
    range exactly the original base position. *)
Theorem respawn_seed_ignores_history (earlier : list FrameInput) (inp : FrameInput)
    (c : Component) (u : Uniforms) (pos : list R) (pd : ParticleData) (i : nat) :
  material c = Some u -> positions c = Some pos -> particleData c = Some pd ->
  (3 * length (lifetimes pd) <= length pos)%nat ->
  (i < length (lifetimes pd))%nat ->
  let c1 := runFrames earlier c in
  age (elapsedTime inp) (lifetimes pd) i < elapsedTime inp - lastTime c1 ->
  let o := readVec (originalPositions pd) i in
  let dist := vlength (vsub o (localMouse inp)) in
  particleData (useFrame inp c1) = Some pd
  /\ exists pos', positions (useFrame inp c1) = Some pos'
       /\ readVec pos' i
          = respawnPosition o (localMouse inp) (radius inp) (strengthBase inp)
              (elapsedTime inp)
       /\ (radius inp <= dist \/ dist <= 1e-6 -> readVec pos' i = o).
Proof.
  intros Hm Hp Hd Hlen Hi c1 Hage o dist.
  destruct (frames_keep_buffers earlier c u pos pd Hm Hp Hd)
    as (u1 & pos1 & Hm1 & Hp1 & Hl1 & Hd1).
  fold c1 in Hm1, Hp1, Hd1.
  destruct (useFrame_burst inp c1 u1 Hm1) as (_ & _ & Hd2 & _).
  split; [rewrite Hd2; exact Hd1|].
  eexists. split; [apply (useFrame_positions inp c1 u1 pos1 pd Hm1 Hp1 Hd1)|].
  rewrite respawnLoop_respawned by (try assumption; lia).
  split; [reflexivity|].
  intros Hout. apply respawnPosition_out_of_range. exact Hout.
Qed.

Lemma respawn_seed_ignores_history_witness :
  exists pos', positions (useFrame (frameAt 0) (oneParticle buyBurst)) = Some pos'
               /\ readVec pos' 0
                  = respawnPosition (mkVec3 0 0 0) (mkVec3 1 0 0) 0.8 0.4 4.
Proof.
  destruct (respawn_seed_ignores_history [] (frameAt 0) (oneParticle buyBurst)
              (mkUniforms 3.9 0.0 0.0) [5; 5; 5]
              (mkParticleData [0; 0; 0.3] [0] [0; 0; 0]) 0)
    as (_ & pos' & H1 & H2 & _).
  - reflexivity.
  - reflexivity.
  - reflexivity.
  - cbn. lia.
  - cbn. lia.
  - cbn [runFrames foldl frameAt elapsedTime lifetimes oneParticle lastTime].
    rewrite oneParticle_age. lra.
  - exists pos'. split; [exact H1|exact H2].
Defined.

End RespawnWrites.

(** ** The swarm: transaction burst *)

Section Burst.
Import FloatingParticles.








(** C8. A trigger that arrives while a burst is active changes nothing:
    the active flag, the start time, the kind and the particle list stay as
    they are.  The controller has one burst slot, and whatever happens to
    an active burst, trigger or frame, the slot afterwards holds the same
    burst or none. *)
Theorem trigger_while_active_is_ignored (rnd : nat -> R) (dateNow : R)
    (te : option TransactionEffect) (c : Component) :
  isActive (burstState c) = true ->
  onTransactionEffect rnd dateNow te c = c
  /\ burstInit rnd dateNow te (burstState c) = burstState c
  /\ forall ev : Event,
       isActive (burstState (step ev c)) = true ->
       startTime (burstState (step ev c)) = startTime (burstState c)
       /\ type (burstState (step ev c)) = type (burstState c).
Proof.
  intros Ha.
  assert (Hinit : forall r t e, burstInit r t e (burstState c) = burstState c).
  { intros r t [e|]; [|reflexivity]. unfold burstInit. rewrite Ha.
    rewrite andb_false_r. reflexivity. }
  split; [|split].
  - unfold onTransactionEffect. rewrite Hinit. destruct c; reflexivity.
  - apply Hinit.
  - intros [r t e|inp]; cbn [step].
    + unfold onTransactionEffect. cbn [burstState]. rewrite Hinit. auto.
    + destruct (material c) as [u|] eqn:Hm.
      * destruct (useFrame_burst inp c u Hm) as (Hb & _). rewrite Hb.
        unfold burstFrame. rewrite Ha.
        destruct (JS.ltb _ _); cbn; auto.
      * unfold useFrame. rewrite Hm. auto.
Qed.

Lemma trigger_while_active_is_ignored_witness :
  onTransactionEffect (fun _ => 0.5) 100
    (Some (mkTransactionEffect "sell" true)) (oneParticle buyBurst)
  = oneParticle buyBurst.
Proof.
  apply (trigger_while_active_is_ignored (fun _ => 0.5) 100
           (Some (mkTransactionEffect "sell" true)) (oneParticle buyBurst)).
  reflexivity.
Defined.



End Burst.

(** ** The swarm: particle initialisation *)

Section SwarmInitLoop.
Import FloatingParticles.

Lemma writeVec_cell (buf : list R) (i k : nat) (v : Vec3) :
  (k < 3)%nat -> (i * 3 + k < length buf)%nat ->
  writeVec buf i v !!! (i * 3 + k)%nat = coordinate v k.
Proof.
  intros Hk Hi. unfold writeVec.
  destruct k as [|[|[|k]]]; [| | |lia]; cbn [coordinate].
  - rewrite Nat.add_0_r. rewrite !list_lookup_total_insert_ne by lia.
    apply list_lookup_total_insert_eq. lia.
  - rewrite list_lookup_total_insert_ne by lia.
    apply list_lookup_total_insert_eq. rewrite length_insert. lia.
  - apply list_lookup_total_insert_eq. rewrite !length_insert. lia.
Qed.

Lemma writeVec_elsewhere (buf : list R) (i j : nat) (v : Vec3) :
  (j < i * 3 \/ i * 3 + 3 <= j)%nat -> writeVec buf i v !!! j = buf !!! j.
Proof.
  intros Hj. unfold writeVec. rewrite !list_lookup_total_insert_ne by lia.
  reflexivity.
Qed.

(** The arrays after the first [n] iterations. *)
Lemma initPrefix (rnd : nat -> R) (v0 l0 : list R) (n : nat) :
  let st := foldl (initStep rnd) (v0, l0) (seq 0 n) in
  length (fst st) = length v0 /\ length (snd st) = length l0
  /\ (forall i k, (i < n)%nat -> (k < 3)%nat -> (i * 3 + k < length v0)%nat ->
        fst st !!! (i * 3 + k)%nat = coordinate (initVelocity rnd i) k)
  /\ (forall i, (i < n)%nat -> (i < length l0)%nat ->
        snd st !!! i = initLifetime rnd i).
Proof.
  induction n as [|n IH]; cbv zeta.
  - cbn [seq foldl fst snd]. repeat split; intros; lia.
  - rewrite seq_S, foldl_snoc. cbn [Nat.add].
    destruct IH as (Hv & Hl & Hvel & Hlife).
    set (st := foldl (initStep rnd) (v0, l0) (seq 0 n)) in *.
    unfold initStep. cbn [fst snd].
    split; [rewrite writeVec_length; exact Hv|].
    split; [rewrite length_insert; exact Hl|].
    split.
    + intros i k Hi Hk Hik. destruct (Nat.eq_dec i n) as [->|Hne].
      * apply writeVec_cell; [exact Hk|]. rewrite Hv. exact Hik.
      * rewrite writeVec_elsewhere by lia. apply Hvel; [lia|exact Hk|exact Hik].
    + intros i Hi Hil. destruct (Nat.eq_dec i n) as [->|Hne].
      * apply list_lookup_total_insert_eq. rewrite Hl. exact Hil.
      * rewrite list_lookup_total_insert_ne by auto. apply Hlife; [lia|exact Hil].
Qed.

(** With fuel to spare the loop ends by its own test, after the [n]
    iterations for which the test holds. *)
Lemma initLoop_foldl (rnd : nat -> R) (numParticles : R) (n : nat) :
  (forall j, (j < n)%nat -> INR j < numParticles) -> ~ INR n < numParticles ->
  forall fuel i st, (i <= n)%nat -> (n - i < fuel)%nat ->
    initLoop fuel rnd numParticles i st = foldl (initStep rnd) st (seq i (n - i)).
Proof.
  intros Hlt Hge. induction fuel as [|fuel IH]; intros i st Hi Hf; [lia|].
  cbn [initLoop]. destruct (Nat.eq_dec i n) as [->|Hne].
  - replace (JS.ltb (INR n) numParticles) with false
      by (symmetry; apply ltb_false; lra).
    rewrite Nat.sub_diag. reflexivity.
  - replace (JS.ltb (INR i) numParticles) with true
      by (symmetry; apply ltb_true; apply Hlt; lia).
    rewrite IH by lia.
    replace (n - i)%nat with (S (n - S i)) by lia. reflexivity.
Qed.

Lemma newFloat32Array_length (len : nat) (a : R) :
  IZR (Z.of_nat len) <= a < IZR (Z.of_nat len) + 1 ->
  length (newFloat32Array a) = len.
Proof.
  intros Ha. unfold newFloat32Array. rewrite length_replicate.
  assert (E : JS.trunc a = Z.of_nat len).
  { unfold JS.trunc. destruct (Rlt_dec a 0) as [Hn|_].
    - exfalso. pose proof (IZR_le 0 (Z.of_nat len) ltac:(lia)). lra.
    - apply Zfloor_eq. exact Ha. }
  rewrite E. apply Nat2Z.id.
Qed.

(** The number of whole triples and the number of iterations. *)
Lemma thirds (len : nat) :
  let q := (len / 3)%nat in
  let n := ((len + 2) / 3)%nat in
  (3 * q <= len < 3 * q + 3)%nat /\ (q <= n <= len)%nat
  /\ (forall j, (j < n)%nat <-> (3 * j < len)%nat).
Proof.
  cbv zeta.
  pose proof (Nat.div_mod_eq len 3) as E1.
  pose proof (Nat.mod_upper_bound len 3 ltac:(lia)) as B1.
  pose proof (Nat.div_mod_eq (len + 2) 3) as E2.
  pose proof (Nat.mod_upper_bound (len + 2) 3 ltac:(lia)) as B2.
  split; [lia|]. split; [lia|]. intros j. lia.
Qed.

(** What the memo holds: as many velocity cells as source cells, one
    lifetime per whole triple, and in every velocity cell the coordinate
    drawn for it, in the trailing cells of an incomplete triple too. *)
Lemma initParticles_cells (rnd : nat -> R) (src : list R) :
  exists pd, initParticles rnd (Some src) = Some (pd, src)
    /\ originalPositions pd = src
    /\ length (velocities pd) = length src
    /\ length (lifetimes pd) = (length src / 3)%nat
    /\ (forall i k, (k < 3)%nat -> (i * 3 + k < length src)%nat ->
          velocities pd !!! (i * 3 + k)%nat = coordinate (initVelocity rnd i) k)
    /\ (forall i, (i < length src / 3)%nat ->
          lifetimes pd !!! i = initLifetime rnd i).
Proof.
  destruct (thirds (length src)) as (Hq & Hqn & Hn).
  set (q := (length src / 3)%nat) in *. set (n := ((length src + 2) / 3)%nat) in *.
  assert (Hlen3 : INR (length src) = 3 * INR q + INR (length src - 3 * q)).
  { assert (E : length src = (3 * q + (length src - 3 * q))%nat) by lia.
    apply (f_equal INR) in E. rewrite plus_INR, mult_INR in E.
    cbn [INR] in E. lra. }
  assert (Hr : 0 <= INR (length src - 3 * q) <= 2).
  { split; [apply pos_INR|]. apply (le_INR _ 2). lia. }
  assert (Lv : length (newFloat32Array (INR (length src) / 3 * 3)) = length src).
  { apply newFloat32Array_length. rewrite <- INR_IZR_INZ.
    replace (INR (length src) / 3 * 3) with (INR (length src)) by lra. lra. }
  assert (Ll : length (newFloat32Array (INR (length src) / 3)) = q).
  { apply newFloat32Array_length. rewrite <- INR_IZR_INZ. lra. }
  assert (Hloop : forall st,
            initLoop (S (length src)) rnd (INR (length src) / 3) 0 st
            = foldl (initStep rnd) st (seq 0 n)).
  { intros st. rewrite (initLoop_foldl rnd _ n); [rewrite Nat.sub_0_r; reflexivity| | |lia|lia].
    - intros j Hj. apply Hn in Hj. apply lt_INR in Hj. rewrite mult_INR in Hj.
      cbn [INR] in Hj. lra.
    - intros Hc. assert (H3 : INR (3 * n) < INR (length src)).
      { rewrite mult_INR. cbn [INR]. lra. }
      apply INR_lt in H3. apply Hn in H3. lia. }
  unfold initParticles. cbv zeta. rewrite Hloop.
  destruct (initPrefix rnd (newFloat32Array (INR (length src) / 3 * 3))
              (newFloat32Array (INR (length src) / 3)) n) as (Hv & Hl & Hvel & Hlife).
  eexists. split; [reflexivity|]. cbn [originalPositions velocities lifetimes].
  split; [reflexivity|]. split; [rewrite Hv; exact Lv|].
  split; [rewrite Hl; exact Ll|]. split.
  - intros i k Hk Hik. apply Hvel; [apply Hn; lia|exact Hk|rewrite Lv; exact Hik].
  - intros i Hi. apply Hlife; [lia|rewrite Ll; exact Hi].
Qed.

End SwarmInitLoop.

(** ** Phase offsets *)

Section PhaseOffsets.





Import ParticleFrame.

(** On the rendered material the frame callback ends at its guard or
    throws at its first uniform write; either way it has written
    nothing. *)
Lemma frame_callback_outcome (rnd : nat -> R) (inp : FrameInput) (c : Component) :
  material c = None \/ material c = Some pointsMaterial ->
  useFrame rnd inp c =
    match material c, cardPosition inp with
    | Some _, Some _ => Throws TypeError c
    | _, _ => Returns c
    end
  /\ stateOf (useFrame rnd inp c) = c.
Proof.
  intros [Hm|Hm]; unfold useFrame; rewrite Hm.
  - split; reflexivity.
  - destruct (cardPosition inp); split; reflexivity.
Qed.

Lemma step_frozen (c0 : Component) (ev : Event) (c : Component) :
  frozenAt c0 c -> frozenAt c0 (step ev c).
Proof.
  intros (Hp & Ho & Hl & Hg & Hm). destruct ev as [|isGen t|r inp]; cbn [step].
  - unfold frozenAt, onCommit. cbn.
    split; [exact Hp|]. split; [exact Ho|]. split; [exact Hl|].
    split; [exact Hg|]. right. reflexivity.
  - unfold onGenerating.
    destruct (isGen && negb (wasBursting c)); [|destruct (negb isGen)];
      unfold frozenAt; cbn;
      (split; [exact Hp|]; split; [exact Ho|]; split; [exact Hl|];
       split; [exact Hg|exact Hm]).
  - rewrite (proj2 (frame_callback_outcome r inp c Hm)).
    unfold frozenAt. auto.
Qed.

Lemma run_frozen (c0 : Component) (evs : list Event) (c : Component) :
  frozenAt c0 c -> frozenAt c0 (run evs c).
Proof.
  revert c. induction evs as [|ev evs IH]; intros c H; [exact H|].
  change (frozenAt c0 (run evs (step ev c))). apply IH, step_frozen, H.
Qed.

Lemma newComponent_frozen (rnd : nat -> R) (n : nat) :
  frozenAt (newComponent rnd n) (newComponent rnd n).
Proof.
  unfold frozenAt. split; [reflexivity|]. split; [reflexivity|].
  split; [reflexivity|]. split; [reflexivity|]. left. reflexivity.
Qed.

End PhaseOffsets.

Section PhaseOffsetClaim.
Import ParticleFrame.



End PhaseOffsetClaim.

(** * Further properties of the card *)

Section CardRotation.
Import PFPCard.

Lemma normalizeRotation_fixed (s : R) : - PI < s <= PI -> normalizeRotation s = s.
Proof.
  intros Hs. rewrite normalizeRotation_floorMod. cbv zeta. unfold JS.floorMod.
  pose proof PI_RGT_0 as Hpi.
  pose proof (quotient_mult (PI * 2) two_pi_pos (s + PI * 2)) as Eq.
  set (q := (s + PI * 2) / (PI * 2)) in *.
  destruct (Rlt_dec s 0) as [Hneg|Hpos].
  - assert (E : Zfloor q = 0%Z) by (apply Zfloor_eq; split; nra).
    rewrite E. destruct (Rlt_dec PI _); lra.
  - assert (E : Zfloor q = 1%Z) by (apply Zfloor_eq; split; nra).
    rewrite E. destruct (Rlt_dec PI _); lra.
Qed.

(** X1. Normalising is idempotent, and a rotation already in [(-pi, pi]]
    is its own normal form: a full turn from such a rotation ends exactly
    where it started. *)
Theorem normalizeRotation_idempotent (s : R) :
  normalizeRotation (normalizeRotation s) = normalizeRotation s
  /\ (- PI < s <= PI -> normalizeRotation s = s).
Proof.
  split.
  - apply normalizeRotation_fixed. apply normalizeRotation_range.
  - apply normalizeRotation_fixed.
Qed.

Lemma normalizeRotation_idempotent_witness : normalizeRotation 0 = 0.
Proof.
  apply (normalizeRotation_idempotent 0). pose proof PI_RGT_0. lra.
Defined.

Lemma spinBlock_rotation (elapsed delta : R) (c : Card) :
  rotationInv c ->
  s_baseRotation (spinBlock elapsed delta c) = baseRotation c.
Proof.
  intros [Hr Hs]. unfold spinBlock.
  destruct (mesh c); [|reflexivity].
  destruct (isSpinning c); [|reflexivity].
  destruct (JS.geb _ 1.0); [|reflexivity].
  cbn [s_baseRotation]. rewrite Hs. apply normalizeRotation_fixed. exact Hr.
Qed.

Lemma step_rotation (ev : Event) (c : Card) :
  rotationInv c ->
  baseRotation (step ev c) = baseRotation c /\ rotationInv (step ev c).
Proof.
  intros Hi. pose proof Hi as [Hr Hs].
  assert (G : forall c', baseRotation c' = baseRotation c ->
                         spinStartRotation c' = baseRotation c ->
                         baseRotation c' = baseRotation c /\ rotationInv c').
  { intros c' H1 H2. split; [exact H1|]. unfold rotationInv. rewrite H1, H2.
    split; [exact Hr|reflexivity]. }
  destruct ev as [elapsed delta|g|cap t| | | |]; cbn [step].
  - apply G; unfold useFrame; cbn [baseRotation spinStartRotation];
      [apply spinBlock_rotation; exact Hi | exact Hs].
  - unfold onGenerating. destruct g; apply G; auto.
  - unfold onTextureLoaded. destruct cap; apply G; auto.
  - apply G; auto.
  - unfold onSpinCompletion. destruct (nextTexture c); [|apply G; auto].
    destruct (negb (isSpinning c) && isTransitioning c); apply G; auto.
  - unfold onOpacityEffect. destruct (negb (isTransitioning c)); apply G; auto.
  - apply G; auto.
Qed.

(** X2. Whatever happens to a mounted card (frames, generation starting
    or ending, textures arriving, effects, renders), [baseRotation] stays
    at its initial 0: each completed spin normalises a full turn back to the
    rotation the spin started from. *)
Theorem baseRotation_constant (evs : list Event) :
  baseRotation (run evs mountedCard) = 0
  /\ spinStartRotation (run evs mountedCard) = 0.
Proof.
  assert (H : forall c, rotationInv c ->
                baseRotation (run evs c) = baseRotation c /\ rotationInv (run evs c)).
  { induction evs as [|ev evs IH]; intros c Hi; [split; [reflexivity|exact Hi]|].
    destruct (step_rotation ev c Hi) as [E Hi'].
    destruct (IH _ Hi') as [E' Hi'']. cbn [run foldl].
    unfold run in E', Hi''. split; [rewrite E', E; reflexivity|exact Hi'']. }
  assert (H0 : rotationInv mountedCard).
  { unfold rotationInv, mountedCard. cbn. pose proof PI_RGT_0. lra. }
  destruct (H _ H0) as [E [_ Es]]. split; [exact E|]. rewrite Es. exact E.
Qed.

End CardRotation.

Section CardSpin.
Import PFPCard.

Lemma smoothstep_range (p : R) : 0 <= p <= 1 -> 0 <= smoothstep p <= 1.
Proof.
  intros Hp. unfold smoothstep. split.
  - apply Rmult_le_pos; [nra|lra].
  - assert (H : 1 - p * p * (3 - 2 * p) = (1 - p) * (1 - p) * (1 + 2 * p)) by ring.
    assert (0 <= (1 - p) * (1 - p) * (1 + 2 * p)) by (apply Rmult_le_pos; nra).
    lra.
Qed.

Lemma spinBlock_running (elapsed delta : R) (c : Card) (m : Transform) :
  mesh c = Some m -> isSpinning c = true ->
  spinProgress c + delta * spinSpeed < 1 ->
  let p := spinProgress c + delta * spinSpeed in
  spinBlock elapsed delta c =
    mkSpinResult
      (Some (mkTransform 0 (spinStartRotation c + PI * 2 * (p * p * (3 - 2 * p))) 0))
      (baseRotation c) true p.
Proof.
  intros Hm Hs Hp p. unfold spinBlock. rewrite Hm, Hs.
  rewrite Rmin_left by lra. fold p.
  replace (JS.geb p 1.0) with false by (symmetry; apply geb_false; unfold p; lra).
  reflexivity.
Qed.

Lemma spinBlock_idle (elapsed delta : R) (c : Card) :
  isSpinning c = false ->
  s_isSpinning (spinBlock elapsed delta c) = false
  /\ s_spinProgress (spinBlock elapsed delta c) = spinProgress c
  /\ s_baseRotation (spinBlock elapsed delta c) = baseRotation c
  /\ (forall m, mesh c = Some m -> exists m', s_mesh (spinBlock elapsed delta c) = Some m').
Proof.
  intros Hs. unfold spinBlock. rewrite Hs.
  destruct (mesh c) as [m|]; cbn; repeat split; try reflexivity.
  - intros m0 _. eexists. reflexivity.
  - intros m0 [=].
Qed.

(** X3. While the accumulated time keeps the progress below 1, spinning
    frames only add [delta * 1.5] to [spinProgress]: after a run of frames
    with non-negative deltas the card still spins, the progress is the
    initial progress plus 1.5 times the total time, and [baseRotation] has
    not moved. *)
Theorem spin_progress_accumulates (frames : list (R * R)) (c : Card) (m : Transform) :
  mesh c = Some m -> isSpinning c = true ->
  Forall (fun fr => 0 <= snd fr) frames ->
  spinProgress c + totalDelta frames * spinSpeed < 1 ->
  let c' := runFrames frames c in
  isSpinning c' = true
  /\ spinProgress c' = spinProgress c + totalDelta frames * spinSpeed
  /\ baseRotation c' = baseRotation c
  /\ spinStartRotation c' = spinStartRotation c.
Proof.
  revert c m. induction frames as [|[el d] frames IH]; intros c m Hm Hs Hd Hp.
  - cbn. repeat split; try assumption. lra.
  - inversion Hd as [|? ? Hd1 Hd2]; subst. cbn [snd] in Hd1.
    cbn [totalDelta foldr snd] in Hp. fold (totalDelta frames) in Hp.
    assert (Ht : 0 <= totalDelta frames).
    { clear -Hd2. induction Hd2 as [|fr l H _ IHl]; cbn; [lra|].
      fold (totalDelta l). lra. }
    unfold spinSpeed in *.
    assert (Hp1 : spinProgress c + d * spinSpeed < 1) by (unfold spinSpeed; nra).
    pose proof (spinBlock_running el d c m Hm Hs Hp1) as Eb. cbv zeta in Eb.
    set (c1 := useFrame el d c).
    assert (E1 : mesh c1 = s_mesh (spinBlock el d c)) by reflexivity.
    assert (E2 : isSpinning c1 = s_isSpinning (spinBlock el d c)) by reflexivity.
    assert (E3 : spinProgress c1 = s_spinProgress (spinBlock el d c)) by reflexivity.
    assert (E4 : baseRotation c1 = s_baseRotation (spinBlock el d c)) by reflexivity.
    assert (E5 : spinStartRotation c1 = spinStartRotation c) by reflexivity.
    rewrite Eb in E1, E2, E3, E4.
    cbn [s_mesh s_isSpinning s_spinProgress s_baseRotation] in E1, E2, E3, E4.
    destruct (IH c1 _ E1 E2 Hd2) as (H1 & H2 & H3 & H4).
    { rewrite E3. unfold spinSpeed. lra. }
    cbn [runFrames foldl fst snd]. fold c1. unfold runFrames in H1, H2, H3, H4.
    rewrite H1, H2, H3, H4, E3, E4, E5.
    cbn [totalDelta foldr snd]. fold (totalDelta frames). unfold spinSpeed.
    repeat split; try reflexivity. lra.
Qed.

Lemma spin_progress_accumulates_witness :
  spinProgress (runFrames [(0, 0.1); (0.1, 0.2)] (spinningCard 1%nat 2%nat 0.2))
  = 0.2 + (0.1 + (0.2 + 0)) * spinSpeed.
Proof.
  apply (spin_progress_accumulates [(0, 0.1); (0.1, 0.2)]
           (spinningCard 1%nat 2%nat 0.2) (mkTransform 0 0 0)).
  - reflexivity.
  - reflexivity.
  - repeat constructor; cbn; lra.
  - cbn. unfold spinSpeed. lra.
Defined.

Lemma runFrames_idle (frames : list (R * R)) (c : Card) :
  isSpinning c = false -> isSpinning (runFrames frames c) = false.
Proof.
  revert c. induction frames as [|[el d] frames IH]; intros c Hs; [exact Hs|].
  cbn [runFrames foldl]. apply IH.
  change (s_isSpinning (spinBlock el d c) = false).
  apply spinBlock_idle. exact Hs.
Qed.

(** X4. A spin always completes: once the frames of a spinning card add
    up to enough time (progress plus 1.5 times the total time reaches 1),
    the card has stopped spinning at the end of the run, however the time
    is split into frames. *)
Theorem spin_always_completes (frames : list (R * R)) (c : Card) (m : Transform) :
  mesh c = Some m -> isSpinning c = true -> spinProgress c < 1 ->
  Forall (fun fr => 0 <= snd fr) frames ->
  1 <= spinProgress c + totalDelta frames * spinSpeed ->
  isSpinning (runFrames frames c) = false.
Proof.
  revert c m. induction frames as [|[el d] frames IH]; intros c m Hm Hs Hlt Hd Hp.
  - cbn in Hp. lra.
  - inversion Hd as [|? ? Hd1 Hd2]; subst. cbn [snd] in Hd1.
    cbn [totalDelta foldr snd] in Hp. fold (totalDelta frames) in Hp.
    cbn [runFrames foldl fst snd].
    destruct (Rlt_dec (spinProgress c + d * spinSpeed) 1) as [Hrun|Hdone].
    + pose proof (spinBlock_running el d c m Hm Hs Hrun) as Eb. cbv zeta in Eb.
      set (c1 := useFrame el d c).
      assert (E1 : mesh c1 = s_mesh (spinBlock el d c)) by reflexivity.
      assert (E2 : isSpinning c1 = s_isSpinning (spinBlock el d c)) by reflexivity.
      assert (E3 : spinProgress c1 = s_spinProgress (spinBlock el d c)) by reflexivity.
      rewrite Eb in E1, E2, E3.
      cbn [s_mesh s_isSpinning s_spinProgress] in E1, E2, E3.
      apply (IH c1 _ E1 E2); [rewrite E3; exact Hrun|exact Hd2|].
      rewrite E3. lra.
    + apply runFrames_idle.
      change (s_isSpinning (spinBlock el d c) = false).
      apply (spinBlock_completes c m el d Hm Hs). lra.
Qed.

Lemma spin_always_completes_witness :
  isSpinning (runFrames [(0, 0.3); (0.3, 0.4)] (spinningCard 1%nat 2%nat 0)) = false.
Proof.
  apply (spin_always_completes [(0, 0.3); (0.3, 0.4)]
           (spinningCard 1%nat 2%nat 0) (mkTransform 0 0 0)).
  - reflexivity.
  - reflexivity.
  - cbn. lra.
  - repeat constructor; cbn; lra.
  - cbn. unfold spinSpeed. lra.
Defined.

(** X5. During a spin the frame writes the eased rotation and nothing
    else to the group: no tilt, no bob, and a yaw between the start of the
    spin and one full turn beyond it. *)
Theorem spinning_transform_bounds (elapsed delta : R) (c : Card) (m : Transform) :
  mesh c = Some m -> isSpinning c = true ->
  0 <= spinProgress c -> 0 <= delta ->
  exists m', mesh (useFrame elapsed delta c) = Some m'
    /\ rotation_x m' = 0 /\ position_y m' = 0
    /\ spinStartRotation c <= rotation_y m' <= spinStartRotation c + PI * 2
    /\ rotation_y m'
       = spinStartRotation c
         + PI * 2 * smoothstep (Rmin (spinProgress c + delta * spinSpeed) 1).
Proof.
  intros Hm Hs Hp Hd.
  set (p := Rmin (spinProgress c + delta * spinSpeed) 1).
  assert (Hr : 0 <= p <= 1).
  { unfold p, spinSpeed. split; [apply Rmin_glb; nra|apply Rmin_r]. }
  pose proof (smoothstep_range p Hr) as He. pose proof PI_RGT_0 as Hpi.
  exists (mkTransform 0 (spinStartRotation c + PI * 2 * smoothstep p) 0).
  assert (E : mesh (useFrame elapsed delta c)
              = Some (mkTransform 0 (spinStartRotation c + PI * 2 * smoothstep p) 0)).
  { unfold useFrame. cbn [mesh]. unfold spinBlock.
    rewrite Hm, Hs. replace 1.0 with 1 by lra. fold p.
    destruct (JS.geb p 1); reflexivity. }
  split; [exact E|]. cbn [rotation_x rotation_y position_y].
  repeat split; try reflexivity; nra.
Qed.

Lemma spinning_transform_bounds_witness :
  exists m', mesh (useFrame 0 0.1 (spinningCard 1%nat 2%nat 0.5)) = Some m'
             /\ rotation_x m' = 0 /\ position_y m' = 0.
Proof.
  destruct (spinning_transform_bounds 0 0.1 (spinningCard 1%nat 2%nat 0.5)
              (mkTransform 0 0 0)) as (m' & H1 & H2 & H3 & _).
  - reflexivity.
  - reflexivity.
  - cbn. lra.
  - lra.
  - exists m'. auto.
Defined.

(** X6. An idle card only floats: the tilt stays within 0.02, the bob
    within 0.1 and the yaw within 0.05 of [baseRotation]; the frame changes
    neither [baseRotation] nor the spin state. *)
Theorem idle_float_bounds (elapsed delta : R) (c : Card) (m : Transform) :
  mesh c = Some m -> isSpinning c = false ->
  let c' := useFrame elapsed delta c in
  (exists m', mesh c' = Some m'
     /\ Rabs (rotation_x m') <= 0.02
     /\ Rabs (position_y m') <= 0.1
     /\ Rabs (rotation_y m' - baseRotation c) <= 0.05)
  /\ baseRotation c' = baseRotation c
  /\ isSpinning c' = false
  /\ spinProgress c' = spinProgress c.
Proof.
  intros Hm Hs c'.
  assert (E : spinBlock elapsed delta c =
              mkSpinResult
                (Some (mkTransform (sin (elapsed * 0.3) * 0.02)
                                   (baseRotation c + sin (elapsed * 0.5) * 0.05)
                                   (sin (elapsed * 0.8) * 0.1)))
                (baseRotation c) false (spinProgress c)).
  { unfold spinBlock. rewrite Hm, Hs. reflexivity. }
  split; [|split; [|split]].
  - eexists. split.
    + unfold c', useFrame. cbn [mesh]. rewrite E. reflexivity.
    + cbn [rotation_x rotation_y position_y].
      pose proof (SIN_bound (elapsed * 0.3)).
      pose proof (SIN_bound (elapsed * 0.5)).
      pose proof (SIN_bound (elapsed * 0.8)).
      repeat split; apply Rabs_le; lra.
  - unfold c', useFrame. cbn [baseRotation]. rewrite E. reflexivity.
  - unfold c', useFrame. cbn [isSpinning]. rewrite E. reflexivity.
  - unfold c', useFrame. cbn [spinProgress]. rewrite E. reflexivity.
Qed.

Lemma idle_float_bounds_witness :
  baseRotation (useFrame 2 0.1 (stableCard 1%nat)) = 0.
Proof.
  apply (idle_float_bounds 2 0.1 (stableCard 1%nat) (mkTransform 0 0 0)); reflexivity.
Defined.

End CardSpin.

Section CardCrossfade.
Import PFPCard.

Lemma branchOf_spin_coupled (c : Card) :
  branchOf c = SpinCoupled ->
  isTransitioning c = true /\ isSpinning c = true
  /\ is_some (currentOpacity c) = true /\ is_some (nextOpacity c) = true.
Proof.
  unfold branchOf.
  destruct (isTransitioning c), (nextTexture c), (currentOpacity c),
    (nextOpacity c), (isSpinning c); cbn; intros H; try discriminate H; auto.
Qed.

Lemma crossfadeProgress_zero (p : R) : p <= 0.4 -> crossfadeProgress p = 0.
Proof.
  intros Hp. unfold crossfadeProgress, crossfadeStart.
  assert (H : (p - 0.4) / (1.0 - 0.4) <= 0).
  { unfold Rdiv. replace (1.0 - 0.4) with 0.6 by lra.
    assert (0 < / 0.6) by (apply Rinv_0_lt_compat; lra). nra. }
  rewrite Rmin_left by lra. apply Rmax_left. exact H.
Qed.

Lemma crossfadeProgress_monotone (p q : R) :
  p <= q -> crossfadeProgress p <= crossfadeProgress q.
Proof.
  intros Hpq. unfold crossfadeProgress, crossfadeStart.
  assert (H : (p - 0.4) / (1.0 - 0.4) <= (q - 0.4) / (1.0 - 0.4)).
  { unfold Rdiv. replace (1.0 - 0.4) with 0.6 by lra.
    assert (0 < / 0.6) by (apply Rinv_0_lt_compat; lra). nra. }
  apply Rmax_lub; [apply Rmax_l|].
  eapply Rle_trans; [|apply Rmax_r].
  apply Rmin_glb; [|apply Rmin_r].
  eapply Rle_trans; [apply Rmin_l|exact H].
Qed.

(** X7. The spin-coupled crossfade is hidden in the back of the spin: it
    is 0 up to 40 % of the spin, then grows linearly as
    [(p - 0.4) / 0.6], reaches 1 at the end of the spin, and never
    decreases with the spin progress. *)
Theorem spin_coupled_crossfade_profile (p q : R) :
  (p <= 0.4 -> crossfadeProgress p = 0)
  /\ (0.4 <= p <= 1 -> crossfadeProgress p = (p - 0.4) / 0.6)
  /\ (1 <= p -> crossfadeProgress p = 1)
  /\ (p <= q -> crossfadeProgress p <= crossfadeProgress q).
Proof.
  split; [apply crossfadeProgress_zero|]. split; [|split].
  - intros [H1 H2]. unfold crossfadeProgress, crossfadeStart.
    replace (1.0 - 0.4) with 0.6 by lra.
    assert (Hr : 0 <= (p - 0.4) / 0.6 <= 1).
    { unfold Rdiv. assert (Hi : / 0.6 * 0.6 = 1) by (apply Rinv_l; lra).
      assert (0 < / 0.6) by (apply Rinv_0_lt_compat; lra). split; nra. }
    rewrite Rmin_left by lra. apply Rmax_right. lra.
  - intros H1. unfold crossfadeProgress, crossfadeStart.
    replace (1.0 - 0.4) with 0.6 by lra.
    assert (Hr : 1 <= (p - 0.4) / 0.6).
    { unfold Rdiv. assert (Hi : / 0.6 * 0.6 = 1) by (apply Rinv_l; lra).
      assert (0 < / 0.6) by (apply Rinv_0_lt_compat; lra). nra. }
    rewrite Rmin_right by lra. rewrite Rmax_right by lra. lra.
  - apply crossfadeProgress_monotone.
Qed.

Lemma spin_coupled_crossfade_profile_witness :
  crossfadeProgress 0.3 = 0 /\ crossfadeProgress 0.7 = (0.7 - 0.4) / 0.6
  /\ crossfadeProgress 1 = 1 /\ crossfadeProgress 0.3 <= crossfadeProgress 0.7.
Proof.
  destruct (spin_coupled_crossfade_profile 0.3 0.7) as (H1 & _ & _ & H4).
  destruct (spin_coupled_crossfade_profile 0.7 1) as (_ & H2 & _ & _).
  destruct (spin_coupled_crossfade_profile 1 1) as (_ & _ & H3 & _).
  split; [apply H1; lra|]. split; [apply H2; lra|].
  split; [apply H3; lra|apply H4; lra].
Defined.

(** X8. The frame that completes a spin resets [spinProgress] before the
    crossfade block reads it, so on that frame the crossfade falls back to
    its start: the current material is written fully opaque and the next
    one fully transparent, and the textures are not swapped by this frame. *)
Theorem completing_frame_resets_crossfade (elapsed delta : R) (c : Card) (m : Transform) :
  mesh c = Some m -> branchOf c = SpinCoupled ->
  1 <= spinProgress c + delta * spinSpeed ->
  let c' := useFrame elapsed delta c in
  (exists o1 o2, currentOpacity c' = Some o1 /\ nextOpacity c' = Some o2
                 /\ o1 = 1 /\ o2 = 0)
  /\ currentTexture c' = currentTexture c
  /\ nextTexture c' = nextTexture c
  /\ isTransitioning c' = true
  /\ isSpinning c' = false
  /\ spinProgress c' = 0.
Proof.
  intros Hm Hb Hp c'.
  destruct (branchOf_spin_coupled c Hb) as (Ht & Hs & _).
  destruct (spinBlock_completes c m elapsed delta Hm Hs Hp) as (_ & Hi & H0).
  unfold c', useFrame, idleOpacityBlock, transitionBlock.
  rewrite Ht, Hb, H0, Hi.
  cbn [negb f_currentTexture f_nextTexture f_isTransitioning f_currentOpacity
       f_nextOpacity currentOpacity nextOpacity currentTexture nextTexture
       isTransitioning isSpinning spinProgress].
  split; [|repeat split; assumption].
  exists (1.0 - crossfadeProgress 0), (crossfadeProgress 0).
  rewrite crossfadeProgress_zero by lra. repeat split; lra.
Qed.

Lemma completing_frame_resets_crossfade_witness :
  exists o1 o2,
    currentOpacity (useFrame 0 0.1 (spinningCard 1%nat 2%nat 0.95)) = Some o1
    /\ nextOpacity (useFrame 0 0.1 (spinningCard 1%nat 2%nat 0.95)) = Some o2
    /\ o1 = 1 /\ o2 = 0.
Proof.
  apply (completing_frame_resets_crossfade 0 0.1 (spinningCard 1%nat 2%nat 0.95)
           (mkTransform 0 0 0)).
  - reflexivity.
  - reflexivity.
  - cbn. unfold spinSpeed. lra.
Defined.

Lemma spinning_frame_keeps_textures (elapsed delta : R) (c : Card) :
  isSpinning c = true -> isTransitioning c = true ->
  currentTexture (useFrame elapsed delta c) = currentTexture c
  /\ nextTexture (useFrame elapsed delta c) = nextTexture c
  /\ isTransitioning (useFrame elapsed delta c) = true.
Proof.
  intros Hs Ht. unfold useFrame, idleOpacityBlock, transitionBlock, branchOf.
  rewrite Ht, Hs. cbn [negb andb].
  destruct (is_some (nextTexture c) && is_some (currentOpacity c)
            && is_some (nextOpacity c)); cbn; auto.
Qed.

(** X9. A transition requested during a spin is gated on the spin: no
    frame of the spinning card swaps the textures, not even the one that
    completes the spin; the effect that runs once the card has stopped
    spinning makes the next texture current and clears the transition. *)
Theorem spin_completion_finalises_transition (elapsed delta : R) (c : Card)
    (m : Transform) (b : Texture) :
  mesh c = Some m -> isSpinning c = true -> isTransitioning c = true ->
  nextTexture c = Some b ->
  let c1 := useFrame elapsed delta c in
  (currentTexture c1 = currentTexture c /\ nextTexture c1 = Some b
   /\ isTransitioning c1 = true)
  /\ (spinProgress c + delta * spinSpeed < 1 -> onSpinCompletion c1 = c1)
  /\ (1 <= spinProgress c + delta * spinSpeed ->
        currentTexture (onSpinCompletion c1) = Some b
        /\ nextTexture (onSpinCompletion c1) = None
        /\ isTransitioning (onSpinCompletion c1) = false).
Proof.
  intros Hm Hs Ht Hn c1.
  destruct (spinning_frame_keeps_textures elapsed delta c Hs Ht) as (K1 & K2 & K3).
  fold c1 in K1, K2, K3. rewrite Hn in K2.
  split; [auto|]. split.
  - intros Hp.
    assert (E : isSpinning c1 = true).
    { unfold c1, useFrame. cbn [isSpinning].
      rewrite (spinBlock_running elapsed delta c m Hm Hs Hp). reflexivity. }
    unfold onSpinCompletion. rewrite K2, E. reflexivity.
  - intros Hp.
    assert (E : isSpinning c1 = false).
    { unfold c1, useFrame. cbn [isSpinning].
      apply (spinBlock_completes c m elapsed delta Hm Hs Hp). }
    apply idle_transition_finalised_by_effect; assumption.
Qed.

Lemma spin_completion_finalises_transition_witness :
  currentTexture (onSpinCompletion (useFrame 0 0.1 (spinningCard 1%nat 2%nat 0.95)))
  = Some 2%nat.
Proof.
  apply (spin_completion_finalises_transition 0 0.1 (spinningCard 1%nat 2%nat 0.95)
           (mkTransform 0 0 0) 2%nat).
  - reflexivity.
  - reflexivity.
  - reflexivity.
  - reflexivity.
  - cbn. unfold spinSpeed. lra.
Defined.

Lemma transitionBlock_pending (delta sp : R) (c : Card) :
  pendingInv c ->
  is_some (f_nextTexture (transitionBlock delta sp c))
  = f_isTransitioning (transitionBlock delta sp c).
Proof.
  unfold pendingInv. intros Hi. unfold transitionBlock.
  destruct (branchOf c) eqn:Hb; cbn; try exact Hi; try reflexivity.
  exfalso. exact (time_coupled_branch_unreachable c Hb).
Qed.

Lemma step_pending (ev : Event) (c : Card) :
  pendingInv c /\ is_some (currentOpacity c) = true ->
  pendingInv (step ev c) /\ is_some (currentOpacity (step ev c)) = true.
Proof.
  intros [Hi Ho]. unfold pendingInv in *.
  destruct ev as [elapsed delta|g|cap t| | | |]; cbn [step].
  - unfold useFrame. cbn [nextTexture isTransitioning currentOpacity].
    pose proof (transitionBlock_pending delta
                  (s_spinProgress (spinBlock elapsed delta c)) c Hi) as Hp.
    assert (Hc : is_some (f_currentOpacity
                   (transitionBlock delta (s_spinProgress (spinBlock elapsed delta c)) c))
                 = true).
    { unfold transitionBlock. destruct (branchOf c); cbn; auto. }
    unfold idleOpacityBlock. destruct (negb (isTransitioning c)).
    + cbn [f_nextTexture f_isTransitioning f_currentOpacity].
      split; [exact Hp|].
      destruct (f_currentOpacity _); [reflexivity|discriminate Hc].
    + split; [exact Hp|exact Hc].
  - unfold onGenerating. destruct g; cbn; auto.
  - unfold onTextureLoaded. destruct cap; cbn; auto.
  - cbn. auto.
  - unfold onSpinCompletion. destruct (nextTexture c) eqn:Hn.
    + destruct (negb (isSpinning c) && isTransitioning c); cbn;
        [auto | rewrite Hn; auto].
    + rewrite Hn. auto.
  - unfold onOpacityEffect. destruct (negb (isTransitioning c)); cbn; [|auto].
    split; [exact Hi|]. destruct (currentOpacity c); [reflexivity|discriminate Ho].
  - cbn. auto.
Qed.

(** X10. However frames, props, texture loads and effects interleave
    after mounting, a next texture is held exactly while a transition is
    flagged; and a frame outside a transition leaves no next texture and
    writes the current material fully opaque. *)
Theorem pending_texture_invariant (evs : list Event) (elapsed delta : R) :
  let c := run evs mountedCard in
  is_some (nextTexture c) = isTransitioning c
  /\ (isTransitioning c = false ->
        nextTexture (useFrame elapsed delta c) = None
        /\ isTransitioning (useFrame elapsed delta c) = false
        /\ exists o, currentOpacity (useFrame elapsed delta c) = Some o /\ o = 1).
Proof.
  assert (H : forall c,
             pendingInv c /\ is_some (currentOpacity c) = true ->
             pendingInv (run evs c) /\ is_some (currentOpacity (run evs c)) = true).
  { induction evs as [|ev evs IH]; intros c Hc; [exact Hc|].
    cbn [run foldl]. apply IH. apply step_pending. exact Hc. }
  intros c. destruct (H mountedCard) as [Hi Ho]; [split; reflexivity|].
  fold c in Hi, Ho. split; [exact Hi|].
  intros Ht. unfold pendingInv in Hi. rewrite Ht in Hi.
  unfold useFrame, idleOpacityBlock, transitionBlock, branchOf.
  rewrite Ht. cbn [andb negb unchanged f_nextTexture f_isTransitioning
                   f_currentOpacity nextTexture isTransitioning currentOpacity].
  destruct (nextTexture c); [discriminate Hi|].
  split; [reflexivity|]. split; [exact Ht|].
  destruct (currentOpacity c); [|discriminate Ho].
  exists 1.0. split; [reflexivity|lra].
Qed.

End CardCrossfade.

Lemma pending_texture_invariant_witness :
  PFPCard.nextTexture (PFPCard.useFrame 0 0.1 (PFPCard.run [] PFPCard.mountedCard))
  = None.
Proof.
  destruct (pending_texture_invariant [] 0 0.1) as (_ & H).
  apply H. reflexivity.
Defined.

(** * Further properties of the ambient swarm *)

Section AgeCycle.

Variable b : R.
Hypothesis b_pos : 0 < b.

Lemma fmod_periodic (a : R) (k : Z) : JS.fmod (a + b * IZR k) b = JS.fmod a b.
Proof.
  rewrite !(fmod_floorMod b b_pos). unfold JS.floorMod.
  replace ((a + b * IZR k) / b) with (a / b + IZR k) by (field; lra).
  rewrite Zfloor_addz, plus_IZR. ring.
Qed.

Lemma fmod_small (a : R) : 0 <= a < b -> JS.fmod a b = a.
Proof.
  intros Ha. rewrite (fmod_floorMod b b_pos). unfold JS.floorMod.
  assert (E : Zfloor (a / b) = 0%Z).
  { apply Zfloor_eq. pose proof (quotient_mult b b_pos a) as Eq.
    set (q := a / b) in *. split; nra. }
  rewrite E. ring.
Qed.

(** The age is below [delta] exactly when a wrap instant [l + b m] lies in
    the last [delta] seconds. *)
Lemma fmod_below_iff (t l delta : R) :
  JS.fmod (t - l) b < delta <-> exists m : Z, t - delta < l + b * IZR m <= t.
Proof.
  rewrite (fmod_floorMod b b_pos). unfold JS.floorMod.
  pose proof (Zfloor_bound ((t - l) / b)) as [Hq1 Hq2].
  pose proof (quotient_mult b b_pos (t - l)) as Eq.
  set (q := (t - l) / b) in *. set (k := Zfloor q) in *.
  split.
  - intros H. exists k. split; nra.
  - intros [m [Hm1 Hm2]].
    assert (Hmk : (m <= k)%Z).
    { apply Zfloor_lub. fold q. nra. }
    apply IZR_le in Hmk. nra.
Qed.

End AgeCycle.

Section SwarmCycle.
Import FloatingParticles.

Lemma lifetime_pos : 0 < PARTICLE_LIFETIME.
Proof. unfold PARTICLE_LIFETIME. lra. Qed.

(** X11. The age of a particle always lies in [[0, PARTICLE_LIFETIME)],
    whatever the clock and the phase offset (also for a clock before the
    offset), it repeats every [PARTICLE_LIFETIME] seconds, and within the
    first cycle after the offset it is the time since the offset. *)
Theorem age_is_cyclic (globalTime : R) (lifetimesArr : list R) (i : nat) (k : Z) :
  0 <= age globalTime lifetimesArr i < PARTICLE_LIFETIME
  /\ age (globalTime + PARTICLE_LIFETIME * IZR k) lifetimesArr i
     = age globalTime lifetimesArr i
  /\ (0 <= globalTime - lifetimesArr !!! i < PARTICLE_LIFETIME ->
        age globalTime lifetimesArr i = globalTime - lifetimesArr !!! i).
Proof.
  unfold age. split; [apply fmod_range; exact lifetime_pos|]. split.
  - replace (globalTime + PARTICLE_LIFETIME * IZR k - lifetimesArr !!! i)
      with (globalTime - lifetimesArr !!! i + PARTICLE_LIFETIME * IZR k) by ring.
    apply fmod_periodic. exact lifetime_pos.
  - apply fmod_small. exact lifetime_pos.
Qed.

Lemma age_is_cyclic_witness : age 5 [4.5] 0 = 5 - 4.5.
Proof.
  apply (age_is_cyclic 5 [4.5] 0 0).
  cbn [lookup_total list_lookup_total]. unfold PARTICLE_LIFETIME. lra.
Defined.

Lemma ltb_iff_wraps (t lastT l : R) :
  JS.ltb (JS.fmod (t - l) PARTICLE_LIFETIME) (t - lastT) = true <-> wrapsIn l lastT t.
Proof.
  rewrite ltb_true, (fmod_below_iff _ lifetime_pos). unfold wrapsIn.
  replace (t - (t - lastT)) with lastT by ring. reflexivity.
Qed.

(** X12. A frame re-seeds exactly the particles whose cycle wrapped since
    the previous frame: particle [i] gets its seed when an instant
    [offset + 4 m] lies in [(lastTime, elapsedTime]], and keeps the position
    it had otherwise; the buffer keeps its length. *)
Theorem frame_reseeds_wrapped_particles (inp : FrameInput) (c : Component)
    (u : Uniforms) (pos : list R) (pd : ParticleData) (i : nat) :
  material c = Some u -> positions c = Some pos -> particleData c = Some pd ->
  (3 * length (lifetimes pd) <= length pos)%nat ->
  (i < length (lifetimes pd))%nat ->
  exists pos', positions (useFrame inp c) = Some pos'
    /\ length pos' = length pos
    /\ (wrapsIn (lifetimes pd !!! i) (lastTime c) (elapsedTime inp) ->
          readVec pos' i
          = respawnPosition (readVec (originalPositions pd) i) (localMouse inp)
              (radius inp) (strengthBase inp) (elapsedTime inp))
    /\ (~ wrapsIn (lifetimes pd !!! i) (lastTime c) (elapsedTime inp) ->
          readVec pos' i = readVec pos i).
Proof.
  intros Hm Hp Hd Hlen Hi.
  eexists. split; [apply (useFrame_positions inp c u pos pd Hm Hp Hd)|].
  split; [apply respawnLoop_length|].
  unfold respawnLoop. rewrite respawnPrefix_readVec by assumption.
  replace (i <? length (lifetimes pd))%nat with true
    by (symmetry; apply Nat.ltb_lt; assumption).
  cbn [andb]. unfold age.
  split; intros Hw.
  - apply ltb_iff_wraps in Hw. rewrite Hw. reflexivity.
  - destruct (JS.ltb _ _) eqn:E; [|reflexivity].
    exfalso. apply Hw. apply ltb_iff_wraps. exact E.
Qed.

Lemma frame_reseeds_wrapped_particles_witness :
  exists pos', positions (useFrame (frameAt 0) (oneParticle buyBurst)) = Some pos'
    /\ readVec pos' 0
       = respawnPosition (mkVec3 0 0 0) (mkVec3 1 0 0) 0.8 0.4 4.
Proof.
  destruct (frame_reseeds_wrapped_particles (frameAt 0) (oneParticle buyBurst)
              (mkUniforms 3.9 0.0 0.0) [5; 5; 5]
              (mkParticleData [0; 0; 0.3] [0] [0; 0; 0]) 0)
    as (pos' & H1 & _ & H2 & _).
  - reflexivity.
  - reflexivity.
  - reflexivity.
  - cbn. lia.
  - cbn. lia.
  - exists pos'. split; [exact H1|]. apply H2.
    exists 1%Z. cbn [lifetimes lookup_total list_lookup_total oneParticle lastTime
                     frameAt elapsedTime]. unfold PARTICLE_LIFETIME. lra.
Defined.

Lemma respawnLoop_still (globalTime delta : R) (mouse : Vec3) (radius strength : R)
    (pd : ParticleData) (pos : list R) :
  delta <= 0 -> respawnLoop globalTime delta mouse radius strength pd pos = pos.
Proof.
  intros Hd. unfold respawnLoop.
  induction (seq 0 (length (lifetimes pd))) as [|i l IH] using rev_ind;
    [reflexivity|].
  rewrite foldl_snoc, IH. unfold respawnStep.
  replace (JS.ltb (age globalTime (lifetimes pd) i) delta) with false; [reflexivity|].
  symmetry. apply ltb_false.
  pose proof (fmod_range _ lifetime_pos (globalTime - lifetimes pd !!! i)) as H.
  unfold age. lra.
Qed.

(** X13. When the render clock has not advanced since the previous frame
    (or went back), no particle is re-seeded: the frame leaves the whole
    position buffer as it is. *)
Theorem stalled_clock_reseeds_nothing (inp : FrameInput) (c : Component) :
  elapsedTime inp <= lastTime c ->
  positions (useFrame inp c) = positions c.
Proof.
  intros Ht. unfold useFrame.
  destruct (material c) as [u|]; [|reflexivity]. cbv zeta.
  destruct (burstFrame _ _ _ _ _) as [bs u2]. cbn [positions].
  destruct (positions c) as [p|]; [|reflexivity].
  destruct (particleData c) as [pd|]; [|reflexivity].
  rewrite respawnLoop_still by lra. reflexivity.
Qed.

Lemma stalled_clock_reseeds_nothing_witness :
  positions (useFrame (mkFrameInput 3.9 0 (mkVec3 1 0 0) 0.8 0.4 None)
               (oneParticle buyBurst))
  = Some [5; 5; 5].
Proof.
  apply (stalled_clock_reseeds_nothing
           (mkFrameInput 3.9 0 (mkVec3 1 0 0) 0.8 0.4 None) (oneParticle buyBurst)).
  cbn. lra.
Defined.

End SwarmCycle.

Section BurstParticles.
Import FloatingParticles.

Lemma sin_cos_one (a : R) : sin a * sin a + cos a * cos a = 1.
Proof. pose proof (sin2_cos2 a) as H. unfold Rsqr in H. exact H. Qed.

Lemma sqrt_between (v lo hi : R) :
  0 <= lo -> lo * lo <= v -> v < hi * hi -> 0 < hi -> lo <= sqrt v < hi.
Proof.
  intros Hlo H1 H2 Hhi.
  assert (Hv : 0 <= v) by nra.
  pose proof (sqrt_pos v) as Hs. pose proof (sqrt_sqrt v Hv) as Hq.
  set (r := sqrt v) in *. split; nra.
Qed.

Lemma newBurstParticle_speed (rnd : nat -> R) (i : nat) :
  unitRandom rnd -> 1 <= vlength (velocity (newBurstParticle rnd i)) < 5.
Proof.
  intros Hr. unfold newBurstParticle. cbv zeta. cbn [velocity].
  remember (INR i / INR numBurstParticles * PI * 2) as angle eqn:Eangle.
  remember ((rnd (4 * i)%nat - 0.5) * PI * 0.5) as elevation eqn:Eelev.
  remember (2 + rnd (4 * i + 1)%nat * 3) as s eqn:Es.
  assert (Hs : 2 <= s < 5) by (subst s; specialize (Hr (4 * i + 1)%nat); lra).
  unfold vlength. cbn [x y z].
  pose proof (sin_cos_one angle) as Ha. pose proof (sin_cos_one elevation) as He.
  remember (cos angle) as ca eqn:Eca. remember (sin angle) as sa eqn:Esa.
  remember (cos elevation) as ce eqn:Ece. remember (sin elevation) as se eqn:Ese.
  clear - Hs Ha He. replace 0.5 with (/ 2) by lra.
  replace (ca * ce * s * (ca * ce * s) + se * s * / 2 * (se * s * / 2)
           + sa * ce * s * (sa * ce * s))
    with (s * s * (ce * ce * (sa * sa + ca * ca) + se * se / 4)) by field.
  rewrite Ha.
  assert (Hw : 1 / 4 <= ce * ce * 1 + se * se / 4 <= 1) by nra.
  remember (ce * ce * 1 + se * se / 4) as w eqn:Ew.
  apply sqrt_between; try lra; nra.
Qed.

(** X14. A transaction effect that becomes active while the controller
    is idle starts a burst stamped with the current time and the effect's
    kind, with exactly 50 particles; each starts at the avatar centre with
    full life, a maximum life in [[0.8, 1.2)], a size in [[2, 6)] and a
    speed in [[1, 5)]. *)
Theorem burst_starts_with_fifty_particles (rnd : nat -> R) (dateNow : R)
    (te : TransactionEffect) (bs : BurstState) :
  unitRandom rnd -> isActive bs = false -> te_isActive te = true ->
  let bs' := burstInit rnd dateNow (Some te) bs in
  isActive bs' = true /\ startTime bs' = dateNow /\ type bs' = Some (te_type te)
  /\ length (burstParticles bs') = 50%nat
  /\ Forall (fun p => position p = mkVec3 0 (-2) 0 /\ life p = 1
                      /\ 0.8 <= maxLife p < 1.2 /\ 2 <= size p < 6
                      /\ 1 <= vlength (velocity p) < 5)
            (burstParticles bs').
Proof.
  intros Hr Ha Ht bs'.
  assert (E : bs' = mkBurstState true dateNow (Some (te_type te))
                      (map (newBurstParticle rnd) (seq 0 numBurstParticles))).
  { unfold bs', burstInit. rewrite Ht, Ha. reflexivity. }
  rewrite E. cbn [isActive startTime type burstParticles].
  split; [reflexivity|]. split; [reflexivity|]. split; [reflexivity|].
  split; [rewrite length_map, length_seq; reflexivity|].
  apply List.Forall_map. apply List.Forall_forall. intros i _.
  split; [reflexivity|]. split; [unfold newBurstParticle; cbn [life]; lra|].
  split; [|split].
  - unfold newBurstParticle. cbn [maxLife]. specialize (Hr (4 * i + 2)%nat). lra.
  - unfold newBurstParticle. cbn [size]. specialize (Hr (4 * i + 3)%nat). lra.
  - apply newBurstParticle_speed. exact Hr.
Qed.

Lemma burst_starts_with_fifty_particles_witness :
  length (burstParticles
            (burstInit (fun _ => 0.5) 100 (Some (mkTransactionEffect "sell" true))
               (mkBurstState false 0 None [])))
  = 50%nat.
Proof.
  apply (burst_starts_with_fifty_particles (fun _ => 0.5) 100
           (mkTransactionEffect "sell" true) (mkBurstState false 0 None [])).
  - intros k. lra.
  - reflexivity.
  - reflexivity.
Defined.

(** X15. Over the frames of a burst a particle's life falls by the
    elapsed time divided by its maximum life, while its horizontal velocity
    is scaled by 0.98 once per frame, whatever the frame deltas are; its
    maximum life and size never change. *)
Theorem burst_particle_after_frames (deltas : list R) (p : BurstParticle) :
  let p' := ageBurstParticle deltas p in
  maxLife p' = maxLife p /\ size p' = size p
  /\ life p' = life p - sumDeltas deltas / maxLife p
  /\ x (velocity p') = x (velocity p) * 0.98 ^ length deltas
  /\ z (velocity p') = z (velocity p) * 0.98 ^ length deltas.
Proof.
  revert p. induction deltas as [|d deltas IH]; intros p.
  - cbn. repeat split; try reflexivity; unfold Rdiv; ring.
  - cbn [ageBurstParticle foldl]. fold (ageBurstParticle deltas (stepBurstParticle d p)).
    destruct (IH (stepBurstParticle d p)) as (H1 & H2 & H3 & H4 & H5).
    cbv zeta. rewrite H1, H2, H3, H4, H5.
    unfold stepBurstParticle.
    cbn [maxLife size life velocity x z sumDeltas foldr length pow].
    fold (sumDeltas deltas).
    repeat split; try reflexivity; unfold Rdiv; ring.
Qed.

End BurstParticles.

Section SwarmInit.
Import FloatingParticles.

Lemma flat_triples_length (f : nat -> list R) (n : nat) :
  (forall j, length (f j) = 3%nat) ->
  length (flat_map f (seq 0 n)) = (3 * n)%nat.
Proof.
  intros Hf. rewrite (flat_map_constant_length (c := 3)).
  - rewrite length_seq. lia.
  - intros j _. apply Hf.
Qed.

(** Cell [k] of triple [i] of a buffer built triple by triple. *)
Lemma flat_triples_lookup (f : nat -> list R) (n i k : nat) :
  (forall j, length (f j) = 3%nat) ->
  (i < n)%nat -> (k < 3)%nat ->
  flat_map f (seq 0 n) !!! (i * 3 + k)%nat = f i !!! k.
Proof.
  intros Hf. induction n as [|n IH]; intros Hi Hk; [lia|].
  rewrite seq_S, flat_map_app. cbn [Nat.add flat_map]. rewrite app_nil_r.
  destruct (Nat.eq_dec i n) as [->|Hne].
  - rewrite lookup_total_app_r by (rewrite flat_triples_length by exact Hf; lia).
    rewrite flat_triples_length by exact Hf. f_equal. lia.
  - rewrite lookup_total_app_l by (rewrite flat_triples_length by exact Hf; lia).
    apply IH; lia.
Qed.

(** X16. Without source geometry there are no particles.  With it, the
    memo keeps a private copy of the source positions and holds as many
    velocity cells as there are source cells and one lifetime per whole
    position triple.  Every whole triple gets a sideways drift below 0.1
    per second, a drift of 0.2 to 0.5 along the local z axis and the phase
    offset drawn for it.  When the source length is not a multiple of 3,
    the loop runs once more: its writes to the lifetimes fall past the end
    and are dropped, and the trailing velocity cells hold the first
    coordinates drawn in that iteration. *)
Theorem initParticles_wellformed (rnd : nat -> R) (src : list R) :
  unitRandom rnd ->
  initParticles rnd None = None
  /\ exists pd, initParticles rnd (Some src) = Some (pd, src)
       /\ originalPositions pd = src
       /\ length (lifetimes pd) = (length src / 3)%nat
       /\ length (velocities pd) = length src
       /\ (3 * length (lifetimes pd) <= length src)%nat
       /\ (forall i, (i < length src / 3)%nat ->
             let v := readVec (velocities pd) i in
             - 0.1 <= x v < 0.1 /\ - 0.1 <= y v < 0.1 /\ 0.2 <= z v < 0.5
             /\ lifetimes pd !!! i = rnd (4 * i + 3)%nat * PARTICLE_LIFETIME
             /\ 0 <= lifetimes pd !!! i < PARTICLE_LIFETIME)
       /\ (forall k, (length src / 3 * 3 + k < length src)%nat ->
             velocities pd !!! (length src / 3 * 3 + k)%nat
             = coordinate (initVelocity rnd (length src / 3)) k).
Proof.
  intros Hr. split; [reflexivity|].
  destruct (initParticles_cells rnd src) as (pd & E & Ho & Hv & Hl & Hvel & Hlife).
  destruct (thirds (length src)) as (Hq & _ & _).
  exists pd. split; [exact E|]. split; [exact Ho|]. split; [exact Hl|].
  split; [exact Hv|]. split; [rewrite Hl; lia|]. split.
  - intros i Hi.
    pose proof (Hvel i 0%nat ltac:(lia) ltac:(lia)) as E0.
    pose proof (Hvel i 1%nat ltac:(lia) ltac:(lia)) as E1.
    pose proof (Hvel i 2%nat ltac:(lia) ltac:(lia)) as E2.
    rewrite Nat.add_0_r in E0.
    unfold readVec. cbn [x y z]. rewrite E0, E1, E2, (Hlife i Hi).
    unfold initVelocity, initLifetime, PARTICLE_SPEED, PARTICLE_LIFETIME.
    cbn [coordinate x y z].
    pose proof (Hr (4 * i)%nat). pose proof (Hr (4 * i + 1)%nat).
    pose proof (Hr (4 * i + 2)%nat). pose proof (Hr (4 * i + 3)%nat).
    repeat split; lra.
  - intros k Hk. apply Hvel; [lia|exact Hk].
Qed.

(** A source of four cells: one whole triple and one trailing cell, which
    the second iteration fills. *)
Lemma initParticles_wellformed_witness :
  exists pd, initParticles (fun _ => 0.5) (Some [0; 0; 0; 1]) = Some (pd, [0; 0; 0; 1])
             /\ length (lifetimes pd) = 1%nat
             /\ length (velocities pd) = 4%nat
             /\ velocities pd !!! 3%nat = (0.5 - 0.5) * 0.2.
Proof.
  destruct (initParticles_wellformed (fun _ => 0.5) [0; 0; 0; 1])
    as (_ & pd & H1 & _ & H2 & H3 & _ & _ & H4).
  - intros k. lra.
  - exists pd. split; [exact H1|]. split; [exact H2|]. split; [exact H3|].
    apply (H4 0%nat). cbn. lia.
Defined.

End SwarmInit.

(** * Further properties of the frame swarm *)

Section FrameGeometryFacts.
Import ParticleFrame.

Lemma outline_side (t : R) :
  0 <= t < 1 ->
  (Zfloor (t * 4) = 0 \/ Zfloor (t * 4) = 1 \/ Zfloor (t * 4) = 2 \/ Zfloor (t * 4) = 3)%Z
  /\ 0 <= JS.rem (t * 4) 1 < 1.
Proof.
  intros Ht. split.
  - pose proof (Zfloor_bound (t * 4)) as [H1 H2].
    assert (Hlo : (-1 < Zfloor (t * 4))%Z) by (apply lt_IZR; lra).
    assert (Hhi : (Zfloor (t * 4) < 4)%Z) by (apply lt_IZR; lra).
    lia.
  - apply rem_nonneg; lra.
Qed.

Lemma outlinePoint_onOutline (t : R) : 0 <= t < 1 -> onOutline (outlinePoint t).
Proof.
  intros Ht. destruct (outline_side t Ht) as [Hs Hr].
  unfold outlinePoint, onOutline, FRAME_SIZE. cbv zeta.
  remember (JS.rem (t * 4) 1) as sT eqn:EsT. clear EsT.
  destruct Hs as [-> | [-> | [-> | ->]]]; cbn [fst snd].
  - split; [apply Rabs_le; lra|]. split; [apply Rabs_le; lra|].
    right. apply Rabs_right. lra.
  - split; [apply Rabs_le; lra|]. split; [apply Rabs_le; lra|].
    left. apply Rabs_right. lra.
  - split; [apply Rabs_le; lra|]. split; [apply Rabs_le; lra|].
    right. rewrite Rabs_left by lra. lra.
  - split; [apply Rabs_le; lra|]. split; [apply Rabs_le; lra|].
    left. rewrite Rabs_left by lra. lra.
Qed.

Lemma frame_parameter_range (n i : nat) : (i < n)%nat -> 0 <= INR i / INR n < 1.
Proof.
  intros Hi.
  assert (Hn : 0 < INR n) by (apply lt_0_INR; lia).
  assert (H0 : 0 <= INR i) by apply pos_INR.
  assert (H1 : INR i < INR n) by (apply lt_INR; exact Hi).
  assert (Hinv : 0 < / INR n) by (apply Rinv_0_lt_compat; exact Hn).
  assert (E : INR n * / INR n = 1) by (apply Rinv_r; lra).
  unfold Rdiv. split; nra.
Qed.

Lemma cells_length (f : nat -> Vec3) (j : nat) : length (cells (f j)) = 3%nat.
Proof. reflexivity. Qed.

Lemma readVec_cells (f : nat -> Vec3) (n i : nat) :
  (i < n)%nat -> readVec (flat_map (fun j => cells (f j)) (seq 0 n)) i = f i.
Proof.
  intros Hi.
  pose proof (flat_triples_lookup (fun j => cells (f j)) n i 0 (cells_length f) Hi
                ltac:(lia)) as E0.
  pose proof (flat_triples_lookup (fun j => cells (f j)) n i 1 (cells_length f) Hi
                ltac:(lia)) as E1.
  pose proof (flat_triples_lookup (fun j => cells (f j)) n i 2 (cells_length f) Hi
                ltac:(lia)) as E2.
  rewrite Nat.add_0_r in E0. unfold readVec. rewrite E0, E1, E2.
  destruct (f i); reflexivity.
Qed.

Lemma seed_offset (rnd : nat -> R) (n i : nat) :
  unitRandom rnd ->
  let p := seedPosition rnd n i in
  let b := outlinePoint (INR i / INR n) in
  (x p - fst b) * (x p - fst b) + (y p - snd b) * (y p - snd b)
    <= FRAME_THICKNESS * FRAME_THICKNESS
  /\ Rabs (x p - fst b) <= FRAME_THICKNESS /\ Rabs (y p - snd b) <= FRAME_THICKNESS
  /\ Rabs (z p) <= 0.025.
Proof.
  intros Hr p b. unfold p, seedPosition. cbv zeta. cbn [x y z]. fold b.
  pose proof (Hr (7 * i + 1)%nat) as H1. pose proof (Hr (7 * i + 2)%nat) as H2.
  pose proof (sin_cos_one (rnd (7 * i)%nat * PI * 2)) as Hsc.
  pose proof (SIN_bound (rnd (7 * i)%nat * PI * 2)) as Hs.
  pose proof (COS_bound (rnd (7 * i)%nat * PI * 2)) as Hc.
  remember (cos (rnd (7 * i)%nat * PI * 2)) as co eqn:Eco.
  remember (sin (rnd (7 * i)%nat * PI * 2)) as si eqn:Esi.
  remember (rnd (7 * i + 1)%nat) as r1 eqn:Er1.
  unfold FRAME_THICKNESS. clear Eco Esi Er1.
  replace (fst b + co * (r1 * 0.1) - fst b) with (co * (r1 * 0.1)) by ring.
  replace (snd b + si * (r1 * 0.1) - snd b) with (si * (r1 * 0.1)) by ring.
  split; [|split; [|split]].
  - replace (co * (r1 * 0.1) * (co * (r1 * 0.1)) + si * (r1 * 0.1) * (si * (r1 * 0.1)))
      with ((si * si + co * co) * (r1 * 0.1 * (r1 * 0.1))) by ring.
    rewrite Hsc. nra.
  - apply Rabs_le. split; nra.
  - apply Rabs_le. split; nra.
  - apply Rabs_le. lra.
Qed.

(** X17. The generated particles form the frame: particle [i] of [n]
    sits within [FRAME_THICKNESS] of a point of the square outline of side
    [FRAME_SIZE], at most 0.025 off the card plane; the original positions
    are a copy of the positions, there is one lifetime per particle, and the
    recorded frame parameter [i / n] lies in [[0, 1)]. *)
Theorem frame_geometry_on_band (rnd : nat -> R) (n i : nat) :
  unitRandom rnd -> (i < n)%nat ->
  let g := generateFrameGeometry rnd n in
  let p := readVec (g_positions g) i in
  let b := outlinePoint (INR i / INR n) in
  onOutline b
  /\ (x p - fst b) * (x p - fst b) + (y p - snd b) * (y p - snd b)
       <= FRAME_THICKNESS * FRAME_THICKNESS
  /\ Rabs (z p) <= 0.025
  /\ g_originalPositions g = g_positions g
  /\ length (g_positions g) = (3 * n)%nat
  /\ g_lifetimes g = generateFrameGeometry_lifetimes rnd n
  /\ g_framePositions g !!! i = INR i / INR n
  /\ 0 <= g_framePositions g !!! i < 1.
Proof.
  intros Hr Hi g p b.
  assert (Ep : p = seedPosition rnd n i).
  { unfold p, g, generateFrameGeometry. cbn [g_positions].
    apply (readVec_cells (seedPosition rnd n) n i Hi). }
  assert (Ef : g_framePositions g !!! i = INR i / INR n).
  { unfold g, generateFrameGeometry. cbn [g_framePositions].
    rewrite list_lookup_total_alt, list_lookup_fmap, lookup_seq_lt by exact Hi.
    reflexivity. }
  destruct (seed_offset rnd n i Hr) as (H1 & _ & _ & H2).
  split; [apply outlinePoint_onOutline, frame_parameter_range, Hi|].
  rewrite Ep. split; [exact H1|]. split; [exact H2|].
  split; [reflexivity|].
  split; [apply flat_triples_length; reflexivity|].
  split; [reflexivity|]. split; [exact Ef|].
  rewrite Ef. apply frame_parameter_range. exact Hi.
Qed.

Lemma frame_geometry_on_band_witness :
  onOutline (outlinePoint (INR 1 / INR 4))
  /\ length (g_positions (generateFrameGeometry half 4)) = 12%nat.
Proof.
  destruct (frame_geometry_on_band half 4 1) as (H1 & _ & _ & _ & H2 & _).
  - intros k. unfold half. lra.
  - lia.
  - split; [exact H1|exact H2].
Defined.

End FrameGeometryFacts.

Section FrameVelocityFacts.
Import ParticleFrame.

Lemma Rabs_bounds (a b : R) : Rabs a <= b -> - b <= a <= b.
Proof. unfold Rabs. destruct (Rcase_abs a); lra. Qed.

Lemma seed_off_centre (rnd : nat -> R) (n i : nat) :
  unitRandom rnd -> (i < n)%nat ->
  let p := seedPosition rnd n i in
  0 < vlength (mkVec3 (x p) (y p) 0).
Proof.
  intros Hr Hi p.
  destruct (seed_offset rnd n i Hr) as (_ & Hx & Hy & _). fold p in Hx, Hy.
  pose proof (outlinePoint_onOutline _ (frame_parameter_range n i Hi)) as (Bx & By & Bo).
  unfold FRAME_THICKNESS, FRAME_SIZE in *.
  remember (outlinePoint (INR i / INR n)) as b eqn:Eb. clear Eb.
  unfold vlength. cbn [x y z]. apply sqrt_lt_R0.
  apply Rabs_bounds in Hx. apply Rabs_bounds in Hy.
  apply Rabs_bounds in Bx. apply Rabs_bounds in By.
  destruct Bo as [Bo|Bo].
  - assert (1.6 <= x p \/ x p <= - 1.6).
    { unfold Rabs in Bo. destruct (Rcase_abs (fst b)); [right|left]; lra. }
    nra.
  - assert (1.6 <= y p \/ y p <= - 1.6).
    { unfold Rabs in Bo. destruct (Rcase_abs (snd b)); [right|left]; lra. }
    nra.
Qed.

(** X18. Every generated particle moves away from the centre of the
    card: its velocity is a radial part of speed exactly 0.4, pointing from
    the centre through the particle within the card plane, plus a jitter of
    at most 0.025 sideways, 0.05 upwards and 0.025 in depth. *)
Theorem frame_velocity_is_radial (rnd : nat -> R) (n i : nat) :
  unitRandom rnd -> (i < n)%nat ->
  let g := generateFrameGeometry rnd n in
  let p := readVec (g_positions g) i in
  let v := readVec (g_velocities g) i in
  let r := radialVelocity rnd n i in
  vlength r = radialSpeed
  /\ (exists k, 0 < k /\ r = mkVec3 (k * x p) (k * y p) 0)
  /\ Rabs (x v - x r) <= 0.025 /\ Rabs (y v - y r) <= 0.05
  /\ Rabs (z v - z r) <= 0.025.
Proof.
  intros Hr Hi g p v r.
  assert (Ep : p = seedPosition rnd n i).
  { unfold p, g, generateFrameGeometry. cbn [g_positions].
    apply (readVec_cells (seedPosition rnd n) n i Hi). }
  assert (Ev : v = seedVelocity rnd n i).
  { unfold v, g, generateFrameGeometry. cbn [g_velocities].
    apply (readVec_cells (seedVelocity rnd n) n i Hi). }
  pose proof (seed_off_centre rnd n i Hr Hi) as HL. cbv zeta in HL.
  rewrite <- Ep in HL.
  set (d := mkVec3 (x p) (y p) 0) in *.
  set (k := 1 / vlength d * radialSpeed).
  assert (Hk : 0 < k).
  { unfold k, radialSpeed. apply Rmult_lt_0_compat; [|lra].
    apply Rdiv_lt_0_compat; lra. }
  assert (Er : r = mkVec3 (x d * k) (y d * k) (z d * k)).
  { unfold r, radialVelocity. cbv zeta. rewrite <- Ep. fold d.
    unfold normalize. cbv zeta.
    replace (JS.truthy (vlength d)) with true.
    2:{ unfold JS.truthy. destruct (Req_dec_T (vlength d) 0); [lra|reflexivity]. }
    cbn [x y z]. unfold k. f_equal; ring. }
  split; [|split].
  - rewrite Er, vlength_scaled by lra. unfold k.
    unfold Rdiv. rewrite Rmult_1_l, <- Rmult_assoc, Rinv_r by lra. ring.
  - exists k. split; [exact Hk|]. rewrite Er. unfold d. cbn [x y z]. f_equal; ring.
  - rewrite Ev. unfold seedVelocity. cbv zeta. fold r. cbn [x y z]. unfold upwardSpeed.
    pose proof (Hr (7 * i + 3)%nat). pose proof (Hr (7 * i + 4)%nat).
    pose proof (Hr (7 * i + 5)%nat).
    repeat split; apply Rabs_le; lra.
Qed.

Lemma frame_velocity_is_radial_witness :
  vlength (radialVelocity half 4 1) = radialSpeed.
Proof.
  apply (frame_velocity_is_radial half 4 1).
  - intros k. unfold half. lra.
  - lia.
Defined.

End FrameVelocityFacts.

Section FrameRun.
Import ParticleFrame.

(** X19. Whatever happens after the first render, the frame callback
    animates nothing.  The arrays and the generation intensity are those of
    the first render: the positions are the original positions, the
    intensity is 0 and never moves toward its target.  The material is
    unset or the rendered one, and the next frame returns at its guard
    while the material or the card is missing and otherwise throws a
    [TypeError] at its first uniform write, with the state untouched. *)
Theorem frame_callback_animates_nothing (rnd : nat -> R) (n : nat) (evs : list Event) :
  let c := run evs (newComponent rnd n) in
  generationIntensity c = 0
  /\ positions c = g_positions (generateFrameGeometry rnd n)
  /\ originalPositions c = positions c
  /\ (material c = None \/ material c = Some pointsMaterial)
  /\ forall r inp,
       useFrame r inp c =
         match material c, cardPosition inp with
         | Some _, Some _ => Throws TypeError c
         | _, _ => Returns c
         end.
Proof.
  intros c.
  destruct (run_frozen _ evs _ (newComponent_frozen rnd n))
    as (Hp & Ho & _ & Hg & Hm).
  fold c in Hp, Ho, Hg, Hm.
  split; [rewrite Hg; reflexivity|]. split; [rewrite Hp; reflexivity|].
  split; [rewrite Ho, Hp; reflexivity|]. split; [exact Hm|].
  intros r inp. apply (frame_callback_outcome r inp c Hm).
Qed.

(** X20. The burst time is latched on the rising edge of [isGenerating]:
    the effect stamps it once, running again while still generating changes
    nothing, and the falling edge clears the flag but keeps the stamp. *)
Theorem burst_time_is_latched (c : Component) (t1 t2 : R) :
  onGenerating true t2 (onGenerating true t1 c) = onGenerating true t1 c
  /\ (wasBursting c = false ->
        burstTime (onGenerating true t1 c) = t1 / 1000
        /\ wasBursting (onGenerating true t1 c) = true)
  /\ (wasBursting c = true -> onGenerating true t1 c = c)
  /\ burstTime (onGenerating false t1 c) = burstTime c
  /\ wasBursting (onGenerating false t1 c) = false
  /\ lifetimes (onGenerating false t1 c) = lifetimes c.
Proof.
  unfold onGenerating. destruct (wasBursting c) eqn:Hw; cbn [andb negb].
  - rewrite Hw. cbn [andb negb].
    split; [reflexivity|]. split; [intros [=]|].
    split; [reflexivity|]. split; [reflexivity|]. split; reflexivity.
  - cbn [wasBursting andb negb burstTime lifetimes].
    split; [reflexivity|]. split; [intros _; split; reflexivity|].
    split; [intros [=]|]. split; [reflexivity|]. split; reflexivity.
Qed.

Lemma burst_time_is_latched_witness :
  burstTime (onGenerating true 5000 (newComponent half 1)) = 5000 / 1000.
Proof.
  destruct (burst_time_is_latched (newComponent half 1) 5000 6000) as (_ & H & _).
  apply H. reflexivity.
Defined.

End FrameRun.

(** * Properties of the picture composer *)

Section RandomChoice.
Import App.

Lemma floorTimes_range (r : R) (n : nat) :
  0 <= r < 1 -> (0 < n)%nat -> (0 <= floorTimes r n < Z.of_nat n)%Z.
Proof.
  intros Hr Hn. unfold floorTimes.
  assert (Hpos : 0 < INR n) by (apply lt_0_INR; exact Hn).
  pose proof (Zfloor_bound (r * INR n)) as [H1 H2].
  split.
  - apply Zfloor_lub. cbn. nra.
  - apply lt_IZR. rewrite <- INR_IZR_INZ. nra.
Qed.

Lemma at_index_in_range {A : Type} (arr : list A) (z : Z) :
  (0 <= z < Z.of_nat (length arr))%Z ->
  exists a, at_index arr z = Some a /\ a ∈ arr.
Proof.
  intros Hz. unfold at_index.
  replace (z <? 0)%Z with false by (symmetry; apply Z.ltb_ge; lia).
  destruct (lookup_lt_is_Some_2 arr (Z.to_nat z)) as [a Ha]; [lia|].
  exists a. split; [exact Ha|]. apply list_elem_of_lookup. eauto.
Qed.

(** X22. A random pick never leaves the array: with a random number in
    [[0, 1)], [selectRandomFile] returns a member of a non-empty list and
    [generateRandomColor] a colour of the palette; only the empty list
    yields [undefined]. *)
Theorem random_pick_is_member (r : R) (files : list string) :
  0 <= r < 1 ->
  (files <> [] -> exists f, selectRandomFile r files = Some f /\ f ∈ files)
  /\ selectRandomFile r [] = None
  /\ exists c, generateRandomColor r = Some c /\ c ∈ colors.
Proof.
  intros Hr. split; [|split].
  - intros Hne. apply at_index_in_range. apply floorTimes_range; [exact Hr|].
    destruct files; [contradiction|cbn; lia].
  - unfold selectRandomFile, at_index. destruct (_ <? 0)%Z; reflexivity.
  - apply at_index_in_range. apply floorTimes_range; [exact Hr|]. cbn. lia.
Qed.

Lemma random_pick_is_member_witness :
  exists c, generateRandomColor 0.5 = Some c /\ c ∈ colors.
Proof.
  apply (random_pick_is_member 0.5 []). lra.
Defined.

End RandomChoice.

Section GradientStrings.
Import App.

Lemma allChars_impl (P Q : ascii -> bool) (s : string) :
  (forall c, P c = true -> Q c = true) -> allChars P s = true -> allChars Q s = true.
Proof.
  intros HPQ. induction s as [|c s IH]; simpl; [reflexivity|].
  intros H. apply andb_true_iff in H as [H1 H2].
  rewrite (HPQ c H1), (IH H2). reflexivity.
Qed.

Lemma allChars_app (P : ascii -> bool) (s t : string) :
  allChars P (s +:+ t) = allChars P s && allChars P t.
Proof.
  induction s as [|c s IH]; simpl; [reflexivity|].
  rewrite IH, andb_assoc. reflexivity.
Qed.

Lemma cleanToken_chars (s : string) : cleanToken s = true -> allChars tokenChar s = true.
Proof. destruct s; [discriminate|]. intros H. exact H. Qed.

Lemma stripPrefix_app (p s : string) : stripPrefix p (p +:+ s) = Some s.
Proof.
  induction p as [|c p IH]; simpl; [destruct s; reflexivity|].
  rewrite Ascii.eqb_refl. exact IH.
Qed.

Lemma spanNotParen_token (t rest : string) :
  allChars (fun c => negb (Ascii.eqb c ")")) t = true ->
  spanNotParen (t +:+ String ")" rest) = (t, String ")" rest).
Proof.
  induction t as [|c t IH]; simpl; [reflexivity|].
  intros H. apply andb_true_iff in H as [H1 H2].
  apply negb_true_iff in H1. rewrite H1, (IH H2). reflexivity.
Qed.

Lemma matchGradient_unfold (s : string) :
  matchGradient s =
    match gradientAt s with
    | Some g => Some g
    | None => match s with
              | EmptyString => None
              | String _ s' => matchGradient s'
              end
    end.
Proof. destruct s; reflexivity. Qed.

(** The regular expression finds what was put between the parentheses. *)
Lemma matchGradient_built (t : string) :
  t <> EmptyString ->
  allChars (fun c => negb (Ascii.eqb c ")")) t = true ->
  matchGradient ("linear-gradient(" +:+ t +:+ ")") = Some t.
Proof.
  intros Hne Ht. rewrite matchGradient_unfold. unfold gradientAt.
  rewrite stripPrefix_app.
  change (t +:+ ")")%string with (t +:+ String ")" EmptyString).
  rewrite spanNotParen_token by exact Ht.
  destruct t; [contradiction|reflexivity].
Qed.

Lemma splitComma_token (t : string) :
  allChars (fun c => negb (Ascii.eqb c ",")) t = true -> splitComma t = [t].
Proof.
  induction t as [|c t IH]; simpl; [reflexivity|].
  intros H. apply andb_true_iff in H as [H1 H2].
  apply negb_true_iff in H1. rewrite H1, (IH H2). reflexivity.
Qed.

Lemma splitComma_cons (t s : string) :
  allChars (fun c => negb (Ascii.eqb c ",")) t = true ->
  splitComma (t +:+ String "," s) = t :: splitComma s.
Proof.
  induction t as [|c t IH]; simpl; [reflexivity|].
  intros H. apply andb_true_iff in H as [H1 H2].
  apply negb_true_iff in H1. rewrite H1, (IH H2). reflexivity.
Qed.

Lemma trimEnd_token (t : string) :
  allChars (fun c => negb (isSpace c)) t = true -> trimEnd t = t.
Proof.
  induction t as [|c t IH]; [reflexivity|].
  intros H. cbn in H. apply andb_true_iff in H as [H1 H2].
  apply negb_true_iff in H1. cbn [trimEnd]. rewrite (IH H2), H1.
  destruct t; reflexivity.
Qed.

Lemma tokenChar_parts (c : ascii) :
  tokenChar c = true ->
  negb (Ascii.eqb c ",") = true /\ negb (Ascii.eqb c ")") = true
  /\ negb (isSpace c) = true.
Proof.
  unfold tokenChar. intros H.
  repeat (apply andb_true_iff in H as [H ?]). auto.
Qed.

Lemma trim_token (t : string) :
  cleanToken t = true -> trim t = t /\ trim (String " " t) = t.
Proof.
  intros Hc. pose proof (cleanToken_chars t Hc) as Ha.
  assert (He : trimEnd t = t).
  { apply trimEnd_token. revert Ha. apply allChars_impl.
    intros c H. apply (tokenChar_parts c H). }
  assert (Hs : trimStart t = t).
  { destruct t as [|c t]; [reflexivity|]. cbn in Ha.
    apply andb_true_iff in Ha as [H1 _].
    destruct (tokenChar_parts c H1) as (_ & _ & H3).
    apply negb_true_iff in H3. cbn [trimStart]. rewrite H3. reflexivity. }
  unfold trim. split; [rewrite Hs; exact He|].
  change (trimStart (String " " t)) with (trimStart t). rewrite Hs. exact He.
Qed.

Lemma token_no_comma (t : string) :
  cleanToken t = true -> allChars (fun c => negb (Ascii.eqb c ",")) t = true.
Proof.
  intros Hc. apply (allChars_impl tokenChar); [|apply cleanToken_chars, Hc].
  intros c H. apply (tokenChar_parts c H).
Qed.

Lemma token_no_paren (t : string) :
  cleanToken t = true -> allChars (fun c => negb (Ascii.eqb c ")")) t = true.
Proof.
  intros Hc. apply (allChars_impl tokenChar); [|apply cleanToken_chars, Hc].
  intros c H. apply (tokenChar_parts c H).
Qed.

Lemma splitComma_space (rest : string) :
  splitComma (String " " rest) =
    match splitComma rest with
    | h :: t => String " " h :: t
    | [] => [String " " EmptyString]
    end.
Proof. reflexivity. Qed.

(** Splitting and trimming the parameters gives back the tokens. *)
Lemma params_two (d c1 c2 : string) :
  cleanToken d = true -> cleanToken c1 = true -> cleanToken c2 = true ->
  map trim (splitComma (d +:+ ", " +:+ c1 +:+ ", " +:+ c2)) = [d; c1; c2].
Proof.
  intros Hd H1 H2.
  change (d +:+ ", " +:+ c1 +:+ ", " +:+ c2)%string
    with (d +:+ String "," (String " " (c1 +:+ String "," (String " " c2)))).
  rewrite splitComma_cons by (apply token_no_comma, Hd).
  rewrite splitComma_space, splitComma_cons by (apply token_no_comma, H1).
  rewrite splitComma_space, splitComma_token by (apply token_no_comma, H2).
  cbn [map].
  rewrite (proj1 (trim_token d Hd)), (proj2 (trim_token c1 H1)),
    (proj2 (trim_token c2 H2)).
  reflexivity.
Qed.

Lemma params_three (d c1 c2 c3 : string) :
  cleanToken d = true -> cleanToken c1 = true -> cleanToken c2 = true ->
  cleanToken c3 = true ->
  map trim (splitComma (d +:+ ", " +:+ c1 +:+ ", " +:+ c2 +:+ ", " +:+ c3))
  = [d; c1; c2; c3].
Proof.
  intros Hd H1 H2 H3.
  change (d +:+ ", " +:+ c1 +:+ ", " +:+ c2 +:+ ", " +:+ c3)%string
    with (d +:+ String "," (String " " (c1 +:+ String "," (String " "
            (c2 +:+ String "," (String " " c3)))))).
  rewrite splitComma_cons by (apply token_no_comma, Hd).
  rewrite splitComma_space, splitComma_cons by (apply token_no_comma, H1).
  rewrite splitComma_space, splitComma_cons by (apply token_no_comma, H2).
  rewrite splitComma_space, splitComma_token by (apply token_no_comma, H3).
  cbn [map].
  rewrite (proj1 (trim_token d Hd)), (proj2 (trim_token c1 H1)),
    (proj2 (trim_token c2 H2)), (proj2 (trim_token c3 H3)).
  reflexivity.
Qed.

End GradientStrings.

Section Backgrounds.
Import App.

Lemma palette_clean (c : string) : c ∈ colors -> cleanToken c = true.
Proof.
  intros Hc. apply list_elem_of_In in Hc.
  assert (H : forallb cleanToken colors = true) by (vm_compute; reflexivity).
  rewrite forallb_forall in H. apply H. exact Hc.
Qed.

Lemma directions_clean (d : string) : d ∈ directions -> cleanToken d = true.
Proof.
  intros Hd. apply list_elem_of_In in Hd.
  assert (H : forallb cleanToken directions = true) by (vm_compute; reflexivity).
  rewrite forallb_forall in H. apply H. exact Hd.
Qed.

Lemma append_assoc (a b c : string) : (a +:+ b) +:+ c = a +:+ (b +:+ c).
Proof.
  induction a as [|x a IH]; [reflexivity|].
  change (String x ((a +:+ b) +:+ c) = String x (a +:+ (b +:+ c))).
  f_equal. exact IH.
Qed.

Lemma random_color_member (r : R) :
  0 <= r < 1 -> exists c, generateRandomColor r = Some c /\ c ∈ colors.
Proof.
  intros Hr. apply at_index_in_range. apply floorTimes_range; [exact Hr|]. cbn. lia.
Qed.

Lemma separator_no_paren :
  allChars (fun c => negb (Ascii.eqb c ")")) ", " = true.
Proof. reflexivity. Qed.

Lemma draw_parsed (value params d : string) (cs : list string) (w h : R) :
  matchGradient value = Some params ->
  map trim (splitComma params) = d :: cs ->
  drawCSSBackground (mkBackground gradient (Some value)) w h
  = let '(x0, y0, x1, y1) := gradientLine d w h in
    [FillGradient x0 y0 x1 y1 (colorStops cs)].
Proof.
  intros Hm Hp. unfold drawCSSBackground. cbn [bg_type bg_value show].
  rewrite Hm, Hp. reflexivity.
Qed.

Lemma parse_gradient_two (d c1 c2 : string) :
  cleanToken d = true -> cleanToken c1 = true -> cleanToken c2 = true ->
  matchGradient ("linear-gradient(" +:+ d +:+ ", " +:+ c1 +:+ ", " +:+ c2 +:+ ")")
  = Some (d +:+ ", " +:+ c1 +:+ ", " +:+ c2).
Proof.
  intros Hd H1 H2.
  replace ("linear-gradient(" +:+ d +:+ ", " +:+ c1 +:+ ", " +:+ c2 +:+ ")")%string
    with ("linear-gradient(" +:+ (d +:+ ", " +:+ c1 +:+ ", " +:+ c2) +:+ ")")%string
    by (rewrite !append_assoc; reflexivity).
  apply matchGradient_built.
  - destruct d; [discriminate Hd|discriminate].
  - rewrite !allChars_app, separator_no_paren.
    rewrite (token_no_paren d Hd), (token_no_paren c1 H1), (token_no_paren c2 H2).
    reflexivity.
Qed.

Lemma parse_gradient_three (d c1 c2 c3 : string) :
  cleanToken d = true -> cleanToken c1 = true -> cleanToken c2 = true ->
  cleanToken c3 = true ->
  matchGradient ("linear-gradient(" +:+ d +:+ ", " +:+ c1 +:+ ", " +:+ c2
                   +:+ ", " +:+ c3 +:+ ")")
  = Some (d +:+ ", " +:+ c1 +:+ ", " +:+ c2 +:+ ", " +:+ c3).
Proof.
  intros Hd H1 H2 H3.
  replace ("linear-gradient(" +:+ d +:+ ", " +:+ c1 +:+ ", " +:+ c2
             +:+ ", " +:+ c3 +:+ ")")%string
    with ("linear-gradient(" +:+ (d +:+ ", " +:+ c1 +:+ ", " +:+ c2 +:+ ", " +:+ c3)
            +:+ ")")%string
    by (rewrite !append_assoc; reflexivity).
  apply matchGradient_built.
  - destruct d; [discriminate Hd|discriminate].
  - rewrite !allChars_app, separator_no_paren.
    rewrite (token_no_paren d Hd), (token_no_paren c1 H1), (token_no_paren c2 H2),
      (token_no_paren c3 H3).
    reflexivity.
Qed.

Lemma draw_gradient_two (d c1 c2 : string) (w h : R) :
  cleanToken d = true -> cleanToken c1 = true -> cleanToken c2 = true ->
  drawCSSBackground
    (mkBackground gradient
       (Some ("linear-gradient(" +:+ d +:+ ", " +:+ c1 +:+ ", " +:+ c2 +:+ ")"))) w h
  = let '(x0, y0, x1, y1) := gradientLine d w h in
    [FillGradient x0 y0 x1 y1 (colorStops [c1; c2])].
Proof.
  intros Hd H1 H2.
  apply (draw_parsed _ (d +:+ ", " +:+ c1 +:+ ", " +:+ c2)).
  - apply parse_gradient_two; assumption.
  - apply params_two; assumption.
Qed.

Lemma draw_gradient_three (d c1 c2 c3 : string) (w h : R) :
  cleanToken d = true -> cleanToken c1 = true -> cleanToken c2 = true ->
  cleanToken c3 = true ->
  drawCSSBackground
    (mkBackground gradient
       (Some ("linear-gradient(" +:+ d +:+ ", " +:+ c1 +:+ ", " +:+ c2
                +:+ ", " +:+ c3 +:+ ")"))) w h
  = let '(x0, y0, x1, y1) := gradientLine d w h in
    [FillGradient x0 y0 x1 y1 (colorStops [c1; c2; c3])].
Proof.
  intros Hd H1 H2 H3.
  apply (draw_parsed _ (d +:+ ", " +:+ c1 +:+ ", " +:+ c2 +:+ ", " +:+ c3)).
  - apply parse_gradient_three; assumption.
  - apply params_three; assumption.
Qed.

(** X23. Every background the generator produces can be drawn, and is
    drawn as generated.  A solid one is the palette colour picked by the
    second random number, and fills the canvas with it.  A gradient is the
    text [linear-gradient(d, c1, c2)] or [linear-gradient(d, c1, c2, c3)]
    of the direction and the palette colours picked by the next four
    random numbers, the sixth deciding between two and three colours; the
    regular expression, [split] and [trim] of the drawing code recover
    exactly that direction and those colours from the text, and the canvas
    is filled with the gradient along the line of that direction with
    those colours as its stops. *)
Theorem generated_background_is_drawable (rnd : nat -> R) (k : nat) (w h : R) :
  unitRandom rnd ->
  let bg := fst (generateCSSBackground rnd k) in
  (exists c,
     JS.gtb (rnd k) 0.3 = false
     /\ generateRandomColor (rnd (k + 1)%nat) = Some c /\ c ∈ colors
     /\ bg = mkBackground solid (Some c)
     /\ drawCSSBackground bg w h = [FillSolid (Some c)])
  \/ (exists d c1 c2 c3,
        JS.gtb (rnd k) 0.3 = true
        /\ at_index directions (floorTimes (rnd (k + 1)%nat) (length directions)) = Some d
        /\ generateRandomColor (rnd (k + 1 + 1)%nat) = Some c1
        /\ generateRandomColor (rnd (k + 1 + 2)%nat) = Some c2
        /\ generateRandomColor (rnd (k + 1 + 3)%nat) = Some c3
        /\ d ∈ directions /\ c1 ∈ colors /\ c2 ∈ colors /\ c3 ∈ colors
        /\ let two := JS.gtb (rnd (k + 1 + 4)%nat) 0.3 in
           let cs := if two then [c1; c2] else [c1; c2; c3] in
           let value :=
             if two then
               "linear-gradient(" +:+ d +:+ ", " +:+ c1 +:+ ", " +:+ c2 +:+ ")"
             else
               "linear-gradient(" +:+ d +:+ ", " +:+ c1 +:+ ", " +:+ c2
                 +:+ ", " +:+ c3 +:+ ")" in
           bg = mkBackground gradient (Some value)
           /\ (exists params,
                 matchGradient value = Some params
                 /\ map trim (splitComma params) = d :: cs)
           /\ drawCSSBackground bg w h
              = let '(x0, y0, x1, y1) := gradientLine d w h in
                [FillGradient x0 y0 x1 y1 (colorStops cs)]).
Proof.
  intros Hr bg. unfold bg, generateCSSBackground.
  destruct (JS.gtb (rnd k) 0.3) eqn:Hk.
  - right. cbn [fst]. unfold generateRandomGradient.
    destruct (at_index_in_range directions
                (floorTimes (rnd (k + 1)%nat) (length directions))) as (d & Ed & Hd).
    { apply floorTimes_range; [apply Hr|cbn; lia]. }
    destruct (random_color_member (rnd (k + 1 + 1)%nat) (Hr _))
      as (c1 & E1 & H1).
    destruct (random_color_member (rnd (k + 1 + 2)%nat) (Hr _))
      as (c2 & E2 & H2).
    destruct (random_color_member (rnd (k + 1 + 3)%nat) (Hr _))
      as (c3 & E3 & H3).
    cbv zeta. rewrite Ed, E1, E2, E3. cbn [show].
    pose proof (directions_clean d Hd) as Cd.
    pose proof (palette_clean c1 H1) as C1. pose proof (palette_clean c2 H2) as C2.
    pose proof (palette_clean c3 H3) as C3.
    exists d, c1, c2, c3.
    split; [reflexivity|]. split; [reflexivity|]. split; [reflexivity|].
    split; [reflexivity|]. split; [reflexivity|]. split; [exact Hd|].
    split; [exact H1|]. split; [exact H2|]. split; [exact H3|].
    destruct (JS.gtb (rnd (k + 1 + 4)%nat) 0.3).
    + split; [reflexivity|]. split.
      * eexists. split; [apply parse_gradient_two; assumption|].
        apply params_two; assumption.
      * apply draw_gradient_two; assumption.
    + split; [reflexivity|]. split.
      * eexists. split; [apply parse_gradient_three; assumption|].
        apply params_three; assumption.
      * apply draw_gradient_three; assumption.
  - left. cbn [fst].
    destruct (random_color_member (rnd (k + 1)%nat) (Hr _)) as (c & E & H).
    exists c. split; [reflexivity|]. split; [exact E|]. split; [exact H|].
    rewrite E. split; reflexivity.
Qed.

End Backgrounds.

Section GradientGeometry.
Import App.

Lemma generated_background_is_drawable_witness :
  length (drawCSSBackground (fst (generateCSSBackground (fun _ => 0.5) 0)) 800 800)
  = 1%nat.
Proof.
  destruct (generated_background_is_drawable (fun _ => 0.5) 0 800 800)
    as [(c & _ & _ & _ & _ & E)
       | (d & c1 & c2 & c3 & _ & _ & _ & _ & _ & _ & _ & _ & _ & _ & _ & E)].
  - intros k. lra.
  - rewrite E. reflexivity.
  - rewrite E. destruct (gradientLine d 800 800) as [[[x0 y0] x1] y1]. reflexivity.
Defined.

Lemma colorStops_lookup (cs : list string) (i : nat) :
  colorStops cs !! i
  = (fun color =>
       (if (length cs =? 1)%nat then 0 else INR i / (INR (length cs) - 1), color))
    <$> cs !! i.
Proof. unfold colorStops. rewrite list_lookup_imap. reflexivity. Qed.

Lemma stop_range (n i : nat) :
  (i < n)%nat ->
  0 <= (if (n =? 1)%nat then 0 else INR i / (INR n - 1)) <= 1.
Proof.
  intros Hi. destruct (Nat.eqb_spec n 1) as [|Hn]; [lra|].
  assert (Hn2 : (2 <= n)%nat) by lia.
  assert (H2 : 2 <= INR n) by (apply (le_INR 2) in Hn2; exact Hn2).
  assert (Hi1 : INR i <= INR n - 1).
  { assert (Hle : (i + 1 <= n)%nat) by lia. apply le_INR in Hle.
    rewrite plus_INR in Hle. cbn in Hle. lra. }
  pose proof (pos_INR i) as H0.
  assert (Hinv : 0 < / (INR n - 1)) by (apply Rinv_0_lt_compat; lra).
  assert (E : (INR n - 1) * / (INR n - 1) = 1) by (apply Rinv_r; lra).
  unfold Rdiv. split; nra.
Qed.

(** X24. The colour stops of a gradient always fit the canvas API: one
    stop per colour, in order, each offset in [[0, 1]]; the first offset is
    0, with two or more colours the last one is 1, and the offsets increase
    strictly from one colour to the next. *)
Theorem color_stops_span_unit_interval (cs : list string) :
  length (colorStops cs) = length cs
  /\ (forall i c, cs !! i = Some c ->
        exists s, colorStops cs !! i = Some (s, c) /\ 0 <= s <= 1)
  /\ (forall c, cs !! 0%nat = Some c -> colorStops cs !! 0%nat = Some (0, c))
  /\ (forall c, (2 <= length cs)%nat -> cs !! (length cs - 1)%nat = Some c ->
        exists s, colorStops cs !! (length cs - 1)%nat = Some (s, c) /\ s = 1)
  /\ (forall i j si sj ci cj, (i < j)%nat ->
        colorStops cs !! i = Some (si, ci) -> colorStops cs !! j = Some (sj, cj) ->
        si < sj).
Proof.
  split; [apply length_imap|]. split; [|split; [|split]].
  - intros i c Hc. rewrite colorStops_lookup, Hc. cbn [fmap option_fmap option_map].
    eexists. split; [reflexivity|]. apply stop_range.
    apply lookup_lt_Some in Hc. exact Hc.
  - intros c Hc. rewrite colorStops_lookup, Hc. cbn [fmap option_fmap option_map].
    f_equal. f_equal. destruct (length cs =? 1)%nat; [reflexivity|].
    cbn [INR]. unfold Rdiv. ring.
  - intros c Hn Hc. rewrite colorStops_lookup, Hc. cbn [fmap option_fmap option_map].
    eexists. split; [reflexivity|].
    replace (length cs =? 1)%nat with false by (symmetry; apply Nat.eqb_neq; lia).
    rewrite minus_INR by lia. cbn [INR].
    assert (H2 : 2 <= INR (length cs)) by (apply (le_INR 2) in Hn; exact Hn).
    field. lra.
  - intros i j si sj ci cj Hij Hi Hj.
    rewrite colorStops_lookup in Hi, Hj.
    destruct (cs !! i) as [a|] eqn:Ei; [|discriminate Hi].
    destruct (cs !! j) as [b|] eqn:Ej; [|discriminate Hj].
    cbn [fmap option_fmap option_map] in Hi, Hj.
    injection Hi as <- _. injection Hj as <- _.
    apply lookup_lt_Some in Ej.
    replace (length cs =? 1)%nat with false by (symmetry; apply Nat.eqb_neq; lia).
    assert (Hn2 : (2 <= length cs)%nat) by lia.
    assert (H2 : 2 <= INR (length cs)) by (apply (le_INR 2) in Hn2; exact Hn2).
    assert (Hlt : INR i < INR j) by (apply lt_INR; exact Hij).
    assert (Hinv : 0 < / (INR (length cs) - 1)) by (apply Rinv_0_lt_compat; lra).
    unfold Rdiv. nra.
Qed.

Lemma color_stops_span_unit_interval_witness :
  exists s, colorStops ["#000000"; "#FF6B9D"; "#1A1A1A"]%string !! 1%nat
            = Some (s, "#FF6B9D"%string) /\ 0 <= s <= 1.
Proof.
  destruct (color_stops_span_unit_interval ["#000000"; "#FF6B9D"; "#1A1A1A"]%string)
    as (_ & H & _).
  apply (H 1%nat). reflexivity.
Defined.

(** X25. Whatever the direction text, the gradient line on a canvas of
    positive size joins two different points, each a corner of the canvas. *)
Theorem gradient_line_joins_corners (direction : string) (w h : R) :
  0 < w -> 0 < h ->
  let '(x0, y0, x1, y1) := gradientLine direction w h in
  (x0 = 0 \/ x0 = w) /\ (x1 = 0 \/ x1 = w)
  /\ (y0 = 0 \/ y0 = h) /\ (y1 = 0 \/ y1 = h)
  /\ (x0 <> x1 \/ y0 <> y1).
Proof.
  intros Hw Hh. unfold gradientLine.
  repeat (match goal with |- context [if ?b then _ else _] => destruct b end);
    repeat split; auto; (left; lra) || (right; lra).
Qed.

Lemma gradient_line_joins_corners_witness :
  let '(x0, y0, x1, y1) := gradientLine "90deg" 800 800 in x0 <> x1 \/ y0 <> y1.
Proof.
  pose proof (gradient_line_joins_corners "90deg" 800 800) as H.
  destruct (gradientLine "90deg" 800 800) as [[[x0 y0] x1] y1].
  apply H; lra.
Defined.

End GradientGeometry.

Section Composer.
Import App.

Variable rnd : nat -> R.
Hypothesis rnd_unit : unitRandom rnd.
Variable loads : string -> bool.
Variable st : State.

Lemma random_file_member (r : R) (files : list string) :
  0 <= r < 1 -> files <> [] ->
  exists f, selectRandomFile r files = Some f /\ f ∈ files.
Proof.
  intros Hr Hne. apply at_index_in_range. apply floorTimes_range; [exact Hr|].
  destruct files; [contradiction|cbn; lia].
Qed.

Lemma drawFile_shape (layerName : string) (r : R) :
  0 <= r < 1 -> filesOf st layerName <> [] ->
  exists f, f ∈ filesOf st layerName
    /\ drawFile loads layerName (selectRandomFile r (filesOf st layerName))
       = if loads (pathOf layerName f) then [DrawImage (pathOf layerName f)] else [].
Proof.
  intros Hr Hne.
  destruct (random_file_member r _ Hr Hne) as (f & E & Hf).
  exists f. split; [exact Hf|]. unfold drawFile. rewrite E. reflexivity.
Qed.

Lemma drawCSSBackground_shape (bg : Background) (w h : R) :
  (length (drawCSSBackground bg w h) <= 1)%nat
  /\ forall op, op ∈ drawCSSBackground bg w h -> forall path, op <> DrawImage path.
Proof.
  unfold drawCSSBackground. destruct (bg_type bg).
  - destruct (matchGradient _); [|split; [cbn; lia|intros op H; inversion H]].
    destruct (gradientLine _ w h) as [[[x0 y0] x1] y1].
    split; [cbn; lia|]. intros op H path.
    apply list_elem_of_singleton in H. subst op. discriminate.
  - split; [cbn; lia|]. intros op H path.
    apply list_elem_of_singleton in H. subst op. discriminate.
Qed.

(** A layer paints at most one operation, and only what belongs to it. *)
Lemma composeLayer_shape (w h : R) (k : nat) (layerName : string) :
  let ops := fst (composeLayer rnd loads st w h k layerName) in
  (length ops <= 1)%nat /\ forall op, op ∈ ops -> paintedBy st layerName op.
Proof.
  assert (Hfile : forall r, 0 <= r < 1 -> filesOf st layerName <> [] ->
            let ops := drawFile loads layerName
                         (selectRandomFile r (filesOf st layerName)) in
            (length ops <= 1)%nat /\ forall op, op ∈ ops -> paintedBy st layerName op).
  { intros r Hr Hne. destruct (drawFile_shape layerName r Hr Hne) as (f & Hf & E).
    cbv zeta. rewrite E. destruct (loads _).
    - split; [cbn; lia|]. intros op H. apply list_elem_of_singleton in H. subst op.
      exists f. split; [exact Hf|reflexivity].
    - split; [cbn; lia|]. intros op H. inversion H. }
  assert (Hnil : (length (@nil DrawOp) <= 1)%nat
                 /\ forall op, op ∈ @nil DrawOp -> paintedBy st layerName op).
  { split; [cbn; lia|]. intros op H. inversion H. }
  unfold composeLayer. cbv zeta.
  destruct (includedBy _ _); [|exact Hnil].
  destruct (String.eqb_spec layerName "backgrounds") as [Eb|Eb].
  - destruct (_ && _) eqn:Ec.
    + apply andb_true_iff in Ec as [_ Hpos]. apply Nat.ltb_lt in Hpos.
      cbn [fst]. apply Hfile; [apply rnd_unit|].
      intros E. rewrite E in Hpos. cbn in Hpos. lia.
    + destruct (generateCSSBackground rnd (k + 2)) as [bg k'] eqn:Eg. cbn [fst].
      destruct (drawCSSBackground_shape bg w h) as [H1 H2].
      split; [exact H1|]. intros op Hop. specialize (H2 op Hop).
      destruct op; [exfalso; eapply H2; reflexivity|exact Eb|exact Eb].
  - destruct (Nat.eqb_spec (length (filesOf st layerName)) 0) as [E0|E0];
      [exact Hnil|].
    cbn [fst]. apply Hfile; [apply rnd_unit|].
    intros E. rewrite E in E0. cbn in E0. lia.
Qed.

Lemma composeLayers_shape (w h : R) (ls : list string) (k : nat) :
  Forall2 (fun layerName part =>
             (length part <= 1)%nat /\ forall op, op ∈ part -> paintedBy st layerName op)
          ls (composeLayers rnd loads st w h k ls).
Proof.
  revert k. induction ls as [|l ls IH]; intros k; [constructor|].
  cbn [composeLayers].
  pose proof (composeLayer_shape w h k l) as Hl. cbv zeta in Hl.
  destruct (composeLayer rnd loads st w h k l) as [ops k']. cbn [fst] in Hl.
  constructor; [exact Hl|apply IH].
Qed.

(** Every layer of the list gets its turn, whatever the earlier layers
    drew or skipped. *)
Lemma composeLayers_turn (w h : R) (ls : list string) (k : nat) (layerName : string) :
  layerName ∈ ls ->
  exists k', fst (composeLayer rnd loads st w h k' layerName)
             ∈ composeLayers rnd loads st w h k ls.
Proof.
  revert k. induction ls as [|l ls IH]; intros k Hin; [inversion Hin|].
  cbn [composeLayers].
  destruct (composeLayer rnd loads st w h k l) as [ops k1] eqn:El.
  apply elem_of_cons in Hin as [->|Hin].
  - exists k. rewrite El. cbn [fst]. apply elem_of_cons. left. reflexivity.
  - destruct (IH k1 Hin) as (k' & Hk'). exists k'. apply elem_of_cons. right. exact Hk'.
Qed.

End Composer.

Section ComposerClaims.
Import App.

(** X26. A picture is composed in z-index order: the painted operations
    are the concatenation, layer by layer from the background to [z5], of at
    most one operation per layer, and each operation is an image among the
    files discovered for that layer or, for the background, a fill. *)
Theorem composition_respects_layers (rnd : nat -> R) (loads : string -> bool) (st : State) :
  unitRandom rnd -> isLoadingAssets st = false -> canvas st = true ->
  exists parts,
    generatedImage (generatePFP rnd loads st) = Some (concat parts)
    /\ isGenerating (generatePFP rnd loads st) = false
    /\ Forall2 (fun layerName part =>
                  (length part <= 1)%nat
                  /\ forall op, op ∈ part -> paintedBy st layerName op)
               layers parts.
Proof.
  intros Hr Hl Hc. exists (composeLayers rnd loads st 800 800 0 layers).
  unfold generatePFP. rewrite Hl, Hc. cbn [negb generatedImage isGenerating].
  split; [reflexivity|]. split; [reflexivity|].
  apply composeLayers_shape. exact Hr.
Qed.

Lemma composition_respects_layers_witness :
  isGenerating
    (generatePFP (fun _ => 0.5) (fun _ => true)
       (mkState None false false ∅ initialProbabilities true))
  = false.
Proof.
  destruct (composition_respects_layers (fun _ => 0.5) (fun _ => true)
              (mkState None false false ∅ initialProbabilities true))
    as (parts & _ & H & _).
  - intros k. lra.
  - reflexivity.
  - reflexivity.
  - exact H.
Defined.

(** X27. The mandatory layers [z0], [z2] and [z5] are never left out:
    when such a layer has discovered files and its images load, the picture
    contains one of its files, whatever the random draws and whatever the
    other layers do. *)
Theorem mandatory_layers_are_drawn (rnd : nat -> R) (loads : string -> bool)
    (st : State) (layerName : string) :
  unitRandom rnd -> isLoadingAssets st = false -> canvas st = true ->
  mandatory layerName = true ->
  filesOf st layerName <> [] ->
  (forall f, f ∈ filesOf st layerName -> loads (pathOf layerName f) = true) ->
  exists ops f,
    generatedImage (generatePFP rnd loads st) = Some ops
    /\ f ∈ filesOf st layerName
    /\ DrawImage (pathOf layerName f) ∈ ops.
Proof.
  intros Hr Hl Hc Hm Hne Hload.
  assert (Hin : layerName ∈ layers /\ String.eqb layerName "backgrounds" = false).
  { unfold mandatory in Hm.
    apply orb_true_iff in Hm as [Hm|Hm]; [apply orb_true_iff in Hm as [Hm|Hm]|];
      apply String.eqb_eq in Hm; subst layerName;
      (split; [apply list_elem_of_In; cbn; tauto|reflexivity]). }
  destruct Hin as [Hin Hbg].
  destruct (composeLayers_turn rnd loads st 800 800 layers 0 layerName Hin)
    as (k' & Hk').
  destruct (drawFile_shape loads st layerName (rnd (k' + 1)%nat) (Hr _) Hne)
    as (f & Hf & Ef).
  exists (concat (composeLayers rnd loads st 800 800 0 layers)), f.
  split; [unfold generatePFP; rewrite Hl, Hc; reflexivity|].
  split; [exact Hf|].
  assert (E : fst (composeLayer rnd loads st 800 800 k' layerName)
              = [DrawImage (pathOf layerName f)]).
  { unfold composeLayer. cbv zeta. rewrite Hm. unfold includedBy.
    replace (JS.leb (rnd k') 1.0) with true
      by (symmetry; apply leb_true; specialize (Hr k'); lra).
    rewrite Hbg.
    replace (length (filesOf st layerName) =? 0)%nat with false.
    2:{ symmetry. apply Nat.eqb_neq. destruct (filesOf st layerName);
          [contradiction|cbn; lia]. }
    cbn [fst]. rewrite Ef, (Hload f Hf). reflexivity. }
  rewrite E in Hk'.
  apply list_elem_of_In. apply in_concat.
  exists [DrawImage (pathOf layerName f)].
  split; [apply list_elem_of_In; exact Hk'|left; reflexivity].
Qed.

Lemma mandatory_layers_are_drawn_witness :
  let st := mkState None false false
              (<["z0"%string := ["z0_lolcat.png"%string]]> ∅) initialProbabilities true in
  exists ops f,
    generatedImage (generatePFP (fun _ => 0.5) (fun _ => true) st) = Some ops
    /\ f ∈ filesOf st "z0" /\ DrawImage (pathOf "z0" f) ∈ ops.
Proof.
  intros st.
  apply (mandatory_layers_are_drawn (fun _ => 0.5) (fun _ => true) st "z0").
  - intros k. lra.
  - reflexivity.
  - reflexivity.
  - reflexivity.
  - unfold filesOf, st. cbn [availableFiles]. rewrite lookup_insert_eq. discriminate.
  - intros f _. reflexivity.
Defined.

(** X28. The guards of the composer: while assets are loading a click
    changes nothing; without a canvas the generating flag is raised and
    never lowered, and the previous picture stays; otherwise the picture is
    replaced, the flag is lowered, and the picture has at most seven
    operations.  With no discovered files at all the picture is at most one
    background fill. *)
Theorem composer_guards (rnd : nat -> R) (loads : string -> bool) (st : State) :
  unitRandom rnd ->
  (isLoadingAssets st = true -> generatePFP rnd loads st = st)
  /\ (isLoadingAssets st = false -> canvas st = false ->
        isGenerating (generatePFP rnd loads st) = true
        /\ generatedImage (generatePFP rnd loads st) = generatedImage st)
  /\ (isLoadingAssets st = false -> canvas st = true ->
        exists ops, generatedImage (generatePFP rnd loads st) = Some ops
          /\ (length ops <= 7)%nat
          /\ ((forall layerName, filesOf st layerName = []) ->
                (length ops <= 1)%nat /\ forall op path, op ∈ ops -> op <> DrawImage path)).
Proof.
  intros Hr. split; [|split].
  - intros Hl. unfold generatePFP. rewrite Hl. reflexivity.
  - intros Hl Hc. unfold generatePFP. rewrite Hl, Hc. split; reflexivity.
  - intros Hl Hc.
    exists (concat (composeLayers rnd loads st 800 800 0 layers)).
    split; [unfold generatePFP; rewrite Hl, Hc; reflexivity|].
    pose proof (composeLayers_shape rnd Hr loads st 800 800 layers 0) as HF.
    unfold layers in *.
    repeat (match goal with
            | H : Forall2 _ (_ :: _) _ |- _ =>
                apply Forall2_cons_inv_l in H as (? & ? & [? ?] & ? & ->)
            | H : Forall2 _ [] _ |- _ => apply Forall2_nil_inv_l in H as ->
            end).
    split; [cbn [concat]; rewrite !length_app; cbn [length]; lia|].
    intros Hempty.
    assert (Hno : forall (l : string) (part : list DrawOp),
               l <> "backgrounds"%string ->
               (forall op, op ∈ part -> paintedBy st l op) -> part = []).
    { intros l part Hl' Hp. destruct part as [|op part]; [reflexivity|].
      exfalso. specialize (Hp op ltac:(apply elem_of_cons; left; reflexivity)).
      destruct op; cbn in Hp; try (apply Hl'; exact Hp).
      destruct Hp as (f & Hf & _). rewrite Hempty in Hf. inversion Hf. }
    repeat (match goal with
            | H : forall op, op ∈ ?p -> paintedBy st ?l op |- _ =>
                lazymatch l with
                | "backgrounds"%string => fail
                | _ => apply (Hno l p ltac:(discriminate)) in H; subst p
                end
            end).
    cbn [concat]. rewrite !app_nil_r.
    split; [assumption|].
    intros op path Hop Eop. subst op.
    match goal with
    | H : forall op, op ∈ _ -> paintedBy st "backgrounds" op |- _ =>
        destruct (H _ Hop) as (f & Hf & _)
    end.
    rewrite Hempty in Hf. inversion Hf.
Qed.

Lemma composer_guards_witness :
  generatePFP (fun _ => 0.5) (fun _ => true)
    (mkState None false true ∅ initialProbabilities true)
  = mkState None false true ∅ initialProbabilities true.
Proof.
  apply (composer_guards (fun _ => 0.5) (fun _ => true)
           (mkState None false true ∅ initialProbabilities true)).
  - intros k. lra.
  - reflexivity.
Defined.

End ComposerClaims.

(** * Properties of asset discovery *)

Section Discovery.
Import App.

Variable probe : string -> bool.
Variable layerName : string.

Lemma arrayIncludes_false (files : list string) (name : string) :
  arrayIncludes files name = false -> name ∉ files.
Proof.
  unfold arrayIncludes. intros H Hin. apply list_elem_of_In in Hin.
  assert (E : existsb (String.eqb name) files = true).
  { apply existsb_exists. exists name. split; [exact Hin|apply String.eqb_refl]. }
  rewrite E in H. discriminate H.
Qed.

Lemma sound_nil : sound probe layerName [].
Proof. split; [constructor|]. intros f H. inversion H. Qed.

Lemma sound_push (files : list string) (name : string) :
  sound probe layerName files -> name ∉ files ->
  probe (pathOf layerName name) = true ->
  sound probe layerName (files ++ [name]).
Proof.
  intros [Hn Hp] Hnot Hprobe. split.
  - apply NoDup_app. split; [exact Hn|]. split; [|apply NoDup_singleton].
    intros x Hx Hx'. apply list_elem_of_singleton in Hx'. subst x. contradiction.
  - intros f Hf. apply elem_of_app in Hf as [Hf|Hf]; [apply Hp, Hf|].
    apply list_elem_of_singleton in Hf. subst f. exact Hprobe.
Qed.

Lemma seriesFrom_sound (base : string) (numbers : list nat) (files : list string) :
  sound probe layerName files ->
  sound probe layerName (seriesFrom probe layerName base numbers files).
Proof.
  revert files. induction numbers as [|i numbers IH]; intros files Hs; [exact Hs|].
  cbn [seriesFrom]. cbv zeta.
  destruct (arrayIncludes files _) eqn:Ei; [apply IH, Hs|].
  destruct (probe _) eqn:Ep; [|exact Hs].
  apply IH. apply sound_push; [exact Hs|apply arrayIncludes_false, Ei|exact Ep].
Qed.

Lemma tryPattern_sound (files : list string) (filename : string) :
  sound probe layerName files ->
  sound probe layerName (tryPattern probe layerName files filename).
Proof.
  intros Hs. unfold tryPattern.
  destruct (probe (pathOf layerName filename)) eqn:Ep; [|exact Hs].
  destruct (arrayIncludes files filename) eqn:Ei; [exact Hs|].
  cbn [andb negb]. cbv zeta.
  assert (Hp : sound probe layerName (files ++ [filename])).
  { apply sound_push; [exact Hs|apply arrayIncludes_false, Ei|exact Ep]. }
  destruct (includes "_" filename); [|exact Hp].
  destruct (numberedBase filename); [|exact Hp].
  apply seriesFrom_sound. exact Hp.
Qed.

Lemma tryNamingPatterns_sound :
  sound probe layerName (tryNamingPatterns probe layerName).
Proof.
  unfold tryNamingPatterns.
  assert (G : forall l files, sound probe layerName files ->
                sound probe layerName (foldl (tryPattern probe layerName) files l)).
  { induction l as [|x l IH]; intros files Hs; [exact Hs|].
    cbn [foldl]. apply IH. apply tryPattern_sound. exact Hs. }
  apply G. exact sound_nil.
Qed.

Lemma numbered_names_differ (i j : nat) :
  (i < 20)%nat -> (j < 20)%nat ->
  padStart3 (toString i) +:+ ".png" = padStart3 (toString j) +:+ ".png" -> i = j.
Proof.
  intros Hi Hj E.
  assert (T : forallb (fun a =>
                forallb (fun b =>
                  implb (String.eqb (padStart3 (toString a) +:+ ".png")
                                    (padStart3 (toString b) +:+ ".png"))
                        (Nat.eqb a b))
                  (seq 0 20))
                (seq 0 20) = true) by (vm_compute; reflexivity).
  rewrite forallb_forall in T.
  specialize (T i ltac:(apply in_seq; lia)). rewrite forallb_forall in T.
  specialize (T j ltac:(apply in_seq; lia)).
  rewrite E, String.eqb_refl in T. cbn [implb] in T. apply Nat.eqb_eq. exact T.
Qed.

(** The comprehensive scan, started at number [lo] with only smaller
    numbers found so far. *)
Lemma numberedScan_sound (prefix : string) (n lo : nat) (files : list string) :
  (lo + n <= 20)%nat ->
  sound probe layerName files ->
  (forall f, f ∈ files -> exists j, (j < lo)%nat
     /\ f = prefix +:+ "_" +:+ padStart3 (toString j) +:+ ".png") ->
  sound probe layerName (numberedScan probe layerName prefix (seq lo n) files).
Proof.
  revert lo files. induction n as [|n IH]; intros lo files Hb Hs Hf; [exact Hs|].
  cbn [seq numberedScan]. cbv zeta.
  destruct (probe _) eqn:Ep.
  - apply IH; [lia| |].
    + apply sound_push; [exact Hs| |exact Ep].
      intros Hin. destruct (Hf _ Hin) as (j & Hj & E).
      apply String.app_inj in E. injection E as E.
      apply numbered_names_differ in E; lia.
    + intros f Hin. apply elem_of_app in Hin as [Hin|Hin].
      * destruct (Hf f Hin) as (j & Hj & E). exists j. split; [lia|exact E].
      * apply list_elem_of_singleton in Hin. exists lo. split; [lia|exact Hin].
  - destruct (0 <? length files)%nat; [exact Hs|].
    apply IH; [lia|exact Hs|].
    intros f Hin. destruct (Hf f Hin) as (j & Hj & E). exists j. split; [lia|exact E].
Qed.

Lemma discoverLayerFiles_sound :
  sound probe layerName (discoverLayerFiles probe layerName).
Proof.
  unfold discoverLayerFiles.
  destruct (configOf LAYER_CONFIG layerName); [|exact sound_nil].
  cbv zeta. pose proof tryNamingPatterns_sound as Hs.
  destruct (tryNamingPatterns probe layerName) as [|x l] eqn:Et; [|exact Hs].
  cbn [length Nat.eqb].
  set (prefix := if String.eqb layerName "backgrounds" then "background"%string
                 else layerName).
  assert (Hscan : sound probe layerName
                    (numberedScan probe layerName prefix (seq 0 20) [])).
  { apply numberedScan_sound; [lia|exact sound_nil|]. intros f H. inversion H. }
  destruct (probe (pathOf layerName (prefix +:+ ".png"))) eqn:Ep; [|exact Hscan].
  destruct (arrayIncludes _ (prefix +:+ ".png")) eqn:Ei; [exact Hscan|].
  cbn [andb negb]. apply sound_push; [exact Hscan|apply arrayIncludes_false, Ei|exact Ep].
Qed.

End Discovery.

Section DiscoveryClaims.
Import App.

(** X29. Discovery lists only files that answered their probe, and
    lists none of them twice, in the pattern search, in the numbered series
    and in the comprehensive search alike. *)
Theorem discovery_is_sound (probe : string -> bool) (layerName : string) :
  NoDup (discoverLayerFiles probe layerName)
  /\ forall f, f ∈ discoverLayerFiles probe layerName ->
       probe (pathOf layerName f) = true.
Proof. apply discoverLayerFiles_sound. Qed.

Lemma discovered_lookup (probe : string -> bool) (st : State) (layerName : string) :
  layerName ∈ layers ->
  filesOf (discoverAllFiles probe st) layerName = discoverLayerFiles probe layerName.
Proof.
  intros Hin. unfold filesOf, discoverAllFiles, LAYER_CONFIG.
  cbn [availableFiles map fst foldl].
  apply list_elem_of_In in Hin. unfold layers in Hin. cbn [In] in Hin.
  repeat (destruct Hin as [<-|Hin];
          [repeat (rewrite lookup_insert_ne by discriminate);
           rewrite lookup_insert_eq; reflexivity|]).
  contradiction.
Qed.

Lemma Forall2_part {A B : Type} (P : A -> B -> Prop) (l : list A) (k : list B) (b : B) :
  Forall2 P l k -> b ∈ k -> exists a, a ∈ l /\ P a b.
Proof.
  induction 1 as [|a b' l k Hab _ IH]; intros Hin; [inversion Hin|].
  apply elem_of_cons in Hin as [->|Hin].
  - exists a. split; [apply elem_of_cons; left; reflexivity|exact Hab].
  - destruct (IH Hin) as (a' & Ha' & HP). exists a'.
    split; [apply elem_of_cons; right; exact Ha'|exact HP].
Qed.

(** X30. Discovery and composition fit together: once discovery has
    run, assets are no longer loading, each layer offers exactly the files
    discovered for it, and every image the composer then draws is a file
    whose probe had succeeded. *)
Theorem composer_draws_discovered_files (probe : string -> bool) (rnd : nat -> R)
    (loads : string -> bool) (st : State) :
  unitRandom rnd -> canvas st = true ->
  let st' := discoverAllFiles probe st in
  isLoadingAssets st' = false
  /\ (forall layerName, layerName ∈ layers ->
        filesOf st' layerName = discoverLayerFiles probe layerName)
  /\ exists ops, generatedImage (generatePFP rnd loads st') = Some ops
       /\ forall path, DrawImage path ∈ ops -> probe path = true.
Proof.
  intros Hr Hc st'. split; [reflexivity|].
  split; [intros l Hl; apply discovered_lookup; exact Hl|].
  exists (concat (composeLayers rnd loads st' 800 800 0 layers)).
  split.
  - unfold generatePFP. replace (isLoadingAssets st') with false by reflexivity.
    replace (canvas st') with true by (symmetry; exact Hc). reflexivity.
  - intros path Hin.
    apply list_elem_of_In, in_concat in Hin as (part & Hpart & Hop).
    apply list_elem_of_In in Hpart. apply list_elem_of_In in Hop.
    destruct (Forall2_part _ _ _ part
                (composeLayers_shape rnd Hr loads st' 800 800 layers 0) Hpart)
      as (l & Hl & _ & Hp).
    destruct (Hp _ Hop) as (f & Hf & ->).
    unfold st' in Hf. rewrite discovered_lookup in Hf by exact Hl.
    apply (discoverLayerFiles_sound probe l). exact Hf.
Qed.

Lemma composer_draws_discovered_files_witness :
  isLoadingAssets (discoverAllFiles (fun _ => false) initialState) = false.
Proof.
  apply (composer_draws_discovered_files (fun _ => false) (fun _ => 0.5)
           (fun _ => true) initialState).
  - intros k. lra.
  - reflexivity.
Defined.

End DiscoveryClaims.
